(** * Inverted index: tokenizer, index builder, Boolean and phrase search

    A shallow embedding of [app.py] (the indexing and query core of the
    Streamlit inverted-index application) and the properties its
    specification states about it.

    Conventions of the embedding.
    - A Python [str] is a [string]; its characters are the 256 code points
      of Latin-1 (U+0000 to U+00FF), classified the way CPython classifies
      them ([str.isspace], [str.isdecimal], [str.isalnum], [str.lower]).
      Text outside Latin-1 is outside this model. The tokenizer is
      embedded a second time ([Uni]), on strings of any code points and
      for any character tables of the interpreter; the two embeddings
      agree on Latin-1 text.
    - A Python [int] is a [Z].
    - A [dict] is a [gmap], a [set] is a [gset]: neither the claims nor the
      functions below depend on insertion order.
    - A list used as a stack ([append] / [pop] / [[-1]]) is a [list] whose
      head is the top of the stack.
    - An uncaught exception is the [Raise] branch of [result].
    - The code of the page that loads a corpus line by line, chooses the
      search and titles the hits is embedded as functions of the values
      it reads ([docs], [doc_ids], the session state); what titling a hit
      raises is the left branch of a sum. *)

From Stdlib Require Import ZArith Lia Ascii String Sorted.
From stdpp Require Import base gmap sets list strings pretty sorting.

Local Open Scope string_scope.
Local Open Scope list_scope.
Local Open Scope Z_scope.

(** ** Python strings *)

Module Py.

Definition code (c : ascii) : N := N_of_ascii c.

Definition between (lo hi n : N) : bool := ((lo <=? n) && (n <=? hi))%N.

(** [str.isspace] on one character, which is also [\s] of [re] on [str]
    patterns and what [split()] and [strip()] treat as white space. *)
Definition isspace (c : ascii) : bool :=
  let n := code c in
  between 9 13 n || between 28 32 n || (n =? 133)%N || (n =? 160)%N.

(** [\d] of [re]: the decimal digits. Inside Latin-1 these are 0-9. *)
Definition isdecimal (c : ascii) : bool := between 48 57 (code c).

Definition isalpha (c : ascii) : bool :=
  let n := code c in
  between 65 90 n || between 97 122 n
  || (n =? 170)%N || (n =? 181)%N || (n =? 186)%N
  || between 192 214 n || between 216 246 n || between 248 255 n.

(** Superscript digits and vulgar fractions: numeric but not decimal. *)
Definition isnumeric_nd (c : ascii) : bool :=
  let n := code c in
  (n =? 178)%N || (n =? 179)%N || (n =? 185)%N || between 188 190 n.

Definition isalnum (c : ascii) : bool :=
  isalpha c || isdecimal c || isnumeric_nd c.

(** [\w] of [re]: alphanumeric or the underscore. *)
Definition isword (c : ascii) : bool := isalnum c || (code c =? 95)%N.

Definition lower_char (c : ascii) : ascii :=
  let n := code c in
  if between 65 90 n || (between 192 222 n && negb (n =? 215)%N)
  then ascii_of_N (n + 32) else c.

Fixpoint map (f : ascii → ascii) (s : string) : string :=
  match s with
  | EmptyString => EmptyString
  | String c s' => String (f c) (map f s')
  end.

(** [text.lower()] *)
Definition lower (s : string) : string := map lower_char s.

(** [re.sub(p+, " ", text)] for a character class [p]: every maximal run
    of characters of the class becomes one space. [inrun] tells that the
    previous character belonged to a run already replaced. *)
Fixpoint sub_runs_go (p : ascii → bool) (inrun : bool) (s : string) : string :=
  match s with
  | EmptyString => EmptyString
  | String c s' =>
      if p c
      then (if inrun then sub_runs_go p true s'
            else String " " (sub_runs_go p true s'))
      else String c (sub_runs_go p false s')
  end.
Definition sub_runs (p : ascii → bool) (s : string) : string :=
  sub_runs_go p false s.

(** [re.sub(p, " ", text)] for a character class [p]. *)
Definition sub_each (p : ascii → bool) (s : string) : string :=
  map (λ c, if p c then " "%char else c) s.

Fixpoint lstrip (s : string) : string :=
  match s with
  | EmptyString => EmptyString
  | String c s' => if isspace c then lstrip s' else s
  end.

Fixpoint rstrip (s : string) : string :=
  match s with
  | EmptyString => EmptyString
  | String c s' =>
      match rstrip s' with
      | EmptyString => if isspace c then EmptyString else String c EmptyString
      | r => String c r
      end
  end.

(** [text.strip()] *)
Definition strip (s : string) : string := rstrip (lstrip s).

(** [text.split()]: the maximal runs of characters that are not white
    space. [cur] is the word being read. *)
Fixpoint split_go (cur : string) (s : string) : list string :=
  match s with
  | EmptyString => if decide (cur = "") then [] else [cur]
  | String c s' =>
      if isspace c
      then (if decide (cur = "") then split_go "" s'
            else cur :: split_go "" s')
      else split_go (cur +:+ String c "") s'
  end.
Definition split (s : string) : list string := split_go "" s.

(** [sep.join(words)] *)
Fixpoint join (sep : string) (ws : list string) : string :=
  match ws with
  | [] => ""
  | [w] => w
  | w :: ws' => w +:+ sep +:+ join sep ws'
  end.

End Py.

(** ** Tokenization *)

Definition STOPWORDS_EN : gset string := list_to_set [
  "a";"an";"and";"are";"as";"at";"be";"by";"for";"from";"has";"he";"in";"is";"it";
  "its";"of";"on";"that";"the";"to";"was";"were";"will";"with";"this";"these";"those";
  "or";"not";"but";"we";"you";"your";"our" ].

Definition STOPWORDS_ID : gset string := list_to_set [
  "yang";"dan";"di";"ke";"dari";"untuk";"pada";"dengan";"adalah";"itu";"ini";"ada";
  "atau";"tidak";"saya";"kami";"kita";"anda";"dia";"mereka";"sebagai";"sebuah";"para";
  "dalam";"ke";"sebuah";"akan";"lagi";"serta";"atau" ].

(** The keyword arguments of [tokenize]. *)
Record tokkw := Tokkw {
  lowercase : bool;
  remove_digits : bool;
  remove_punct : bool;
  lang : string;
  use_stop : bool
}.

(** The defaults of the signature of [tokenize]. *)
Definition tokkw_default : tokkw :=
  {| lowercase := true; remove_digits := false; remove_punct := true;
     lang := "id"; use_stop := true |}.

(** The class [[^\w\s]]. *)
Definition not_word_not_space (c : ascii) : bool :=
  negb (Py.isword c) && negb (Py.isspace c).

(** [sw = STOPWORDS_ID if lang == "id" else STOPWORDS_EN] *)
Definition stopwords_for (lang : string) : gset string :=
  if decide (lang = "id") then STOPWORDS_ID else STOPWORDS_EN.

Definition tokenize (text : string) (kw : tokkw) : list string :=
  let text := if lowercase kw then Py.lower text else text in
  let text := if remove_digits kw then Py.sub_runs Py.isdecimal text else text in
  let text := if remove_punct kw then Py.sub_each not_word_not_space text else text in
  let text := Py.strip (Py.sub_runs Py.isspace text) in
  let tokens := if decide (text = "") then [] else Py.split text in
  if use_stop kw
  then let sw := stopwords_for (lang kw) in
       filter (λ t, t ∉ sw) tokens
  else tokens.

(** ** The inverted index *)

(** A key of a postings dictionary. [build_inverted_index] writes [int]
    keys; a dictionary read back from JSON has [str] keys. *)
Inductive dockey := KInt (n : Z) | KStr (s : string).

Global Instance dockey_eq_dec : EqDecision dockey.
Proof. solve_decision. Defined.

Global Instance dockey_countable : Countable dockey :=
  inj_countable'
    (λ k, match k with KInt n => inl n | KStr s => inr s end)
    (λ x, match x with inl n => KInt n | inr s => KStr s end)
    (λ k, match k with KInt _ => eq_refl | KStr _ => eq_refl end).

Global Instance KStr_inj : Inj (=) (=) KStr.
Proof. by intros s1 s2 [= ->]. Qed.

Global Instance KInt_inj : Inj (=) (=) KInt.
Proof. by intros n1 n2 [= ->]. Qed.

(** [{"df": int, "postings": {doc_id: [pos, ...]}}] *)
Record entry := Entry {
  df : Z;
  postings : gmap dockey (list Z)
}.

(** [{"index": {term: entry}, "num_docs": int}] *)
Record inverted_index := InvertedIndex {
  index : gmap string entry;
  num_docs : Z
}.

Global Instance entry_eq_dec : EqDecision entry.
Proof. solve_decision. Defined.

Global Instance inverted_index_eq_dec : EqDecision inverted_index.
Proof. solve_decision. Defined.

(** What the [defaultdict] of [build_inverted_index] creates for a term it
    has not seen. *)
Definition fresh_entry : entry := {| df := 0; postings := ∅ |}.

(** [vocab[term]["postings"][doc_id].append(pos)], both dictionaries
    creating the missing value on first access. *)
Definition add_posting (doc_id pos : Z) (term : string)
    (vocab : gmap string entry) : gmap string entry :=
  let e := default fresh_entry (vocab !! term) in
  let l := default [] (postings e !! KInt doc_id) in
  <[term := {| df := df e;
               postings := <[KInt doc_id := l ++ [pos]]> (postings e) |}]> vocab.

(** [for pos, term in enumerate(tokens)], [pos] being the next position. *)
Fixpoint index_tokens (doc_id pos : Z) (tokens : list string)
    (vocab : gmap string entry) : gmap string entry :=
  match tokens with
  | [] => vocab
  | term :: tokens' =>
      index_tokens doc_id (pos + 1) tokens' (add_posting doc_id pos term vocab)
  end.

(** [for doc_id, text in enumerate(docs)], [doc_id] being the next id. *)
Fixpoint index_docs (kw : tokkw) (doc_id : Z) (docs : list string)
    (vocab : gmap string entry) : gmap string entry :=
  match docs with
  | [] => vocab
  | text :: docs' =>
      index_docs kw (doc_id + 1) docs'
        (index_tokens doc_id 0 (tokenize text kw) vocab)
  end.

(** [entry["df"] = len(entry["postings"])] *)
Definition set_df (e : entry) : entry :=
  {| df := Z.of_nat (size (postings e)); postings := postings e |}.

Definition build_inverted_index (docs : list string) (kw : tokkw)
    : inverted_index :=
  let vocab := index_docs kw 0 docs ∅ in
  {| index := set_df <$> vocab; num_docs := Z.of_nat (length docs) |}.

(** [cf] of [vocabulary_stats]:
    [sum(len(positions) for positions in entry["postings"].values())] *)
Definition cf (e : entry) : Z :=
  map_fold (λ _ positions acc, acc + Z.of_nat (length positions)) 0 (postings e).

(** ** Exceptions *)

Inductive exn := IndexError | KeyError.

Inductive result (A : Type) :=
  | Return (a : A)
  | Raise (e : exn).
Arguments Return {A} a.
Arguments Raise {A} e.

Definition bind {A B} (r : result A) (k : A → result B) : result B :=
  match r with
  | Return a => k a
  | Raise e => Raise e
  end.

Notation "x ←! r ; k" := (bind r (λ x, k))
  (at level 20, r at level 100, k at level 200, only parsing).
Notation "' p ←! r ; k" := (bind r (λ x, let 'p := x in k))
  (at level 20, p pattern, r at level 100, k at level 200, only parsing).

(** [stack.pop()] *)
Definition pop {A} (stack : list A) : result (A * list A) :=
  match stack with
  | [] => Raise IndexError
  | top :: rest => Return (top, rest)
  end.

(** ** Boolean search *)

(** [set(entry["postings"].keys()) if entry else set()] *)
Definition term_docs (idx : inverted_index) (term : string) : gset dockey :=
  match index idx !! term with
  | Some e => dom (postings e)
  | None => ∅
  end.

(** [set(range(index["num_docs"]))] *)
Definition universe (idx : inverted_index) : gset dockey :=
  list_to_set (KInt <$> seqZ 0 (num_docs idx)).

(** [prec = {"NOT":3, "AND":2, "OR":1}] *)
Definition prec : gmap string Z := {[ "NOT" := 3; "AND" := 2; "OR" := 1 ]}.

(** [tok in ("AND","OR","NOT")] *)
Definition is_operator (tok : string) : bool :=
  bool_decide (tok ∈ ["AND"; "OR"; "NOT"]).

(** The body of [apply_op] after [op = op_stack.pop()]: what it does to
    the operand stack. *)
Definition apply_operator (idx : inverted_index) (op : string)
    (out_stack : list (gset dockey)) : result (list (gset dockey)) :=
  if decide (op = "NOT") then
    '(a, out_stack) ←! pop out_stack;
    Return ((universe idx ∖ a) :: out_stack)
  else
    '(b, out_stack) ←! pop out_stack;
    '(a, out_stack) ←! pop out_stack;
    if decide (op = "AND") then Return ((a ∩ b) :: out_stack)
    else if decide (op = "OR") then Return ((a ∪ b) :: out_stack)
    else Return out_stack.

(** [apply_op()] on the two stacks. *)
Definition apply_op (idx : inverted_index)
    (st : list (gset dockey) * list string)
    : result (list (gset dockey) * list string) :=
  '(op, op_stack) ←! pop st.2;
  out_stack ←! apply_operator idx op st.1;
  Return (out_stack, op_stack).

(** [while op_stack and prec.get(op_stack[-1],0) >= p: apply_op()].
    Each round pops the operator it has just looked at, so the loop is a
    recursion on the operator stack. *)
Fixpoint reduce_while (idx : inverted_index) (p : Z)
    (out_stack : list (gset dockey)) (op_stack : list string)
    : result (list (gset dockey) * list string) :=
  match op_stack with
  | [] => Return (out_stack, [])
  | op :: op_stack' =>
      if decide (p ≤ default 0 (prec !! op)) then
        out_stack' ←! apply_operator idx op out_stack;
        reduce_while idx p out_stack' op_stack'
      else Return (out_stack, op_stack)
  end.

(** [while op_stack: apply_op()] *)
Fixpoint reduce_all (idx : inverted_index)
    (out_stack : list (gset dockey)) (op_stack : list string)
    : result (list (gset dockey)) :=
  match op_stack with
  | [] => Return out_stack
  | op :: op_stack' =>
      out_stack' ←! apply_operator idx op out_stack;
      reduce_all idx out_stack' op_stack'
  end.

(** One round of [for tok in tokens]. *)
Definition eval_token (idx : inverted_index)
    (st : list (gset dockey) * list string) (tok : string)
    : result (list (gset dockey) * list string) :=
  if is_operator tok then
    match prec !! tok with
    | None => Raise KeyError
    | Some p =>
        '(out_stack, op_stack) ←! reduce_while idx p st.1 st.2;
        Return (out_stack, tok :: op_stack)
    end
  else Return (term_docs idx tok :: st.1, st.2).

Fixpoint eval_tokens (idx : inverted_index) (tokens : list string)
    (st : list (gset dockey) * list string)
    : result (list (gset dockey) * list string) :=
  match tokens with
  | [] => Return st
  | tok :: tokens' =>
      st' ←! eval_token idx st tok;
      eval_tokens idx tokens' st'
  end.

Definition boolean_search (query : string) (idx : inverted_index)
    : result (gset dockey) :=
  let tokens := Py.split (Py.strip query) in
  if decide (tokens = []) then Return ∅
  else
    '(out_stack, op_stack) ←! eval_tokens idx tokens ([], []);
    out_stack ←! reduce_all idx out_stack op_stack;
    Return (match out_stack with
            | top :: _ => top
            | [] => ∅
            end).

(** ** Phrase search *)

(** The loop [for w in words[1:]] that narrows [candidate_docs].
    [None] stands for the early [return set()]. *)
Fixpoint narrow_candidates (idx : inverted_index) (words : list string)
    (candidate_docs : gset dockey) : option (gset dockey) :=
  match words with
  | [] => Some candidate_docs
  | w :: words' =>
      match index idx !! w with
      | None => None
      | Some e =>
          let candidate_docs := candidate_docs ∩ dom (postings e) in
          if decide (candidate_docs = ∅) then None
          else narrow_candidates idx words' candidate_docs
      end
  end.

(** [index["index"][w]["postings"][d]], two subscriptions that raise
    [KeyError] on a missing key. *)
Definition positions_of (idx : inverted_index) (d : dockey) (w : string)
    : result (list Z) :=
  match index idx !! w with
  | None => Raise KeyError
  | Some e =>
      match postings e !! d with
      | None => Raise KeyError
      | Some positions => Return positions
      end
  end.

(** [[index["index"][w]["postings"][d] for w in words]] *)
Fixpoint positions_lists (idx : inverted_index) (d : dockey)
    (words : list string) : result (list (list Z)) :=
  match words with
  | [] => Return []
  | w :: words' =>
      positions ←! positions_of idx d w;
      rest ←! positions_lists idx d words';
      Return (positions :: rest)
  end.

(** [{p - i for p in positions}] *)
Definition shifted (i : Z) (positions : list Z) : gset Z :=
  list_to_set ((λ p, p - i) <$> positions).

(** [[{p - i for p in positions_lists[i]} for i in range(from, ...)]] *)
Fixpoint shifted_from (i : Z) (lists : list (list Z)) : list (gset Z) :=
  match lists with
  | [] => []
  | positions :: lists' => shifted i positions :: shifted_from (i + 1) lists'
  end.

(** [shifted_sets]: the first list as it is, the others shifted by their
    index in the phrase. *)
Definition shifted_sets (lists : list (list Z)) : list (gset Z) :=
  match lists with
  | [] => []
  | first :: lists' => list_to_set first :: shifted_from 1 lists'
  end.

(** [set.intersection] of a list of sets that is not empty. *)
Fixpoint intersection_all (first : gset Z) (sets : list (gset Z)) : gset Z :=
  match sets with
  | [] => first
  | s :: sets' => intersection_all (first ∩ s) sets'
  end.

(** The test [if set.intersection( *shifted_sets )]: the common members
    of all shifted sets are not none. *)
Definition adjacent (lists : list (list Z)) : bool :=
  match shifted_sets lists with
  | [] => false
  | first :: sets => bool_decide (intersection_all first sets ≠ ∅)
  end.

(** [for d in candidate_docs], over the members in some order. *)
Fixpoint match_docs (idx : inverted_index) (words : list string)
    (ds : list dockey) (res : gset dockey) : result (gset dockey) :=
  match ds with
  | [] => Return res
  | d :: ds' =>
      lists ←! positions_lists idx d words;
      match_docs idx words ds' (if adjacent lists then {[d]} ∪ res else res)
  end.

Definition phrase_search (phrase : string) (idx : inverted_index)
    : result (gset dockey) :=
  let words := Py.split phrase in
  match words with
  | [] => Return ∅
  | w0 :: rest =>
      match index idx !! w0 with
      | None => Return ∅
      | Some first =>
          match narrow_candidates idx rest (dom (postings first)) with
          | None => Return ∅
          | Some candidate_docs =>
              match_docs idx words (elements candidate_docs) ∅
          end
      end
  end.

(** ** The JSON snapshot *)

Module Json.

(** The document [json.dumps] writes for an index: in JSON every key of
    an object is a string. *)
Record jentry := JEntry {
  j_df : Z;
  j_postings : gmap string (list Z)
}.

Record jindex := JIndex {
  j_index : gmap string jentry;
  j_num_docs : Z
}.

(** The key [json.dumps] writes for a dictionary key: a [str] as it is,
    an [int] in decimal. *)
Definition key (k : dockey) : string :=
  match k with
  | KInt n => pretty n
  | KStr s => s
  end.

(** A dictionary with its keys written as JSON keys. Two keys that are
    written alike ([0] and ["0"]) cannot both be kept; the postings of a
    built index hold [int] keys only, on which [key] is injective. *)
Definition dumps_postings (m : gmap dockey (list Z)) : gmap string (list Z) :=
  list_to_map (prod_map key id <$> map_to_list m).

Definition dumps_entry (e : entry) : jentry :=
  {| j_df := df e; j_postings := dumps_postings (postings e) |}.

(** [json.dumps(index, ensure_ascii=False)], as the document written. *)
Definition dumps (idx : inverted_index) : jindex :=
  {| j_index := dumps_entry <$> index idx; j_num_docs := num_docs idx |}.

(** [json.loads]: an object becomes a [dict] whose keys are [str]. *)
Definition loads_postings (m : gmap string (list Z)) : gmap dockey (list Z) :=
  kmap KStr m.

Definition loads_entry (e : jentry) : entry :=
  {| df := j_df e; postings := loads_postings (j_postings e) |}.

Definition loads (j : jindex) : inverted_index :=
  {| index := loads_entry <$> j_index j; num_docs := j_num_docs j |}.

(** Save then load. *)
Definition roundtrip (idx : inverted_index) : inverted_index :=
  loads (dumps idx).

End Json.

(** ** The tokenizer on every string

    The tokenizer once more, on strings of any code points. What it does
    to a character outside Latin-1 depends on the character tables of the
    interpreter, which change with its version of Unicode: the tokenizer
    is embedded for any such tables. *)

Module Uni.

(** A [str]: the sequence of its code points. *)
Definition str := list N.

(** The code points of a string of Latin-1 characters. *)
Fixpoint of_string (s : string) : str :=
  match s with
  | EmptyString => []
  | String c s' => N_of_ascii c :: of_string s'
  end.

(** The tables of the interpreter: [str.isspace], [str.isdecimal] and
    [str.isalnum] on one character, which are the classes [\s], [\d] and,
    with the underscore, [\w] of [re] on [str] patterns; and [str.lower],
    which is no map over the characters (the lower case of a capital
    sigma depends on what surrounds it). The lower case of the empty
    string is the empty string. *)
Class Tables := {
  isspace : N → bool;
  isdecimal : N → bool;
  isalnum : N → bool;
  lower : str → str;
  lower_nil : lower [] = []
}.

(** The keyword arguments of [tokenize]. *)
Record tokkw := Tokkw {
  lowercase : bool;
  remove_digits : bool;
  remove_punct : bool;
  lang : str;
  use_stop : bool
}.

(** The defaults of the signature of [tokenize]. *)
Definition tokkw_default : tokkw :=
  {| lowercase := true; remove_digits := false; remove_punct := true;
     lang := of_string "id"; use_stop := true |}.

(** [sw = STOPWORDS_ID if lang == "id" else STOPWORDS_EN] *)
Definition stopwords_for (lang : str) : gset str :=
  set_map of_string
    (if decide (lang = of_string "id") then STOPWORDS_ID else STOPWORDS_EN).

Section Tokenizer.
Context {T : Tables}.

(** [\w] *)
Definition isword (c : N) : bool := isalnum c || (c =? 95)%N.

(** The class [[^\w\s]]. *)
Definition not_word_not_space (c : N) : bool :=
  negb (isword c) && negb (isspace c).

(** [re.sub(p+, " ", text)] for a character class [p]. [inrun] tells that
    the previous character belonged to a run already replaced. *)
Fixpoint sub_runs_go (p : N → bool) (inrun : bool) (s : str) : str :=
  match s with
  | [] => []
  | c :: s' =>
      if p c
      then (if inrun then sub_runs_go p true s'
            else 32%N :: sub_runs_go p true s')
      else c :: sub_runs_go p false s'
  end.
Definition sub_runs (p : N → bool) (s : str) : str := sub_runs_go p false s.

(** [re.sub(p, " ", text)] for a character class [p]. *)
Definition sub_each (p : N → bool) (s : str) : str :=
  (λ c, if p c then 32%N else c) <$> s.

Fixpoint lstrip (s : str) : str :=
  match s with
  | [] => []
  | c :: s' => if isspace c then lstrip s' else s
  end.

Fixpoint rstrip (s : str) : str :=
  match s with
  | [] => []
  | c :: s' =>
      match rstrip s' with
      | [] => if isspace c then [] else [c]
      | r => c :: r
      end
  end.

(** [text.strip()] *)
Definition strip (s : str) : str := rstrip (lstrip s).

(** [text.split()]: the maximal runs of characters that are not white
    space. [cur] is the word being read. *)
Fixpoint split_go (cur : str) (s : str) : list str :=
  match s with
  | [] => if decide (cur = []) then [] else [cur]
  | c :: s' =>
      if isspace c
      then (if decide (cur = []) then split_go [] s' else cur :: split_go [] s')
      else split_go (cur ++ [c]) s'
  end.
Definition split (s : str) : list str := split_go [] s.

Definition tokenize (text : str) (kw : tokkw) : list str :=
  let text := if lowercase kw then lower text else text in
  let text := if remove_digits kw then sub_runs isdecimal text else text in
  let text := if remove_punct kw then sub_each not_word_not_space text else text in
  let text := strip (sub_runs isspace text) in
  let tokens := if decide (text = []) then [] else split text in
  if use_stop kw
  then let sw := stopwords_for (lang kw) in
       filter (λ t, t ∉ sw) tokens
  else tokens.

End Tokenizer.

(** The tables of CPython on the code points of Latin-1, as [Py] has
    them, and on the Arabic-Indic digits U+0660 to U+0669, which are
    decimal digits and alphanumeric, no white space, and their own lower
    case. The other code points are left without a class; these tables
    are for strings of the code points named. *)
Definition latin1 (p : ascii → bool) (c : N) : bool :=
  (c <? 256)%N && p (ascii_of_N c).

Definition arabic_indic_digit (c : N) : bool := (1632 <=? c)%N && (c <=? 1641)%N.

Definition small_tables : Tables := {|
  isspace := latin1 Py.isspace;
  isdecimal c := latin1 Py.isdecimal c || arabic_indic_digit c;
  isalnum c := latin1 Py.isalnum c || arabic_indic_digit c;
  lower :=
    fmap (M := list)
      (λ c, if (c <? 256)%N then N_of_ascii (Py.lower_char (ascii_of_N c)) else c);
  lower_nil := eq_refl
|}.

End Uni.

(** ** The normalizer as the specification words it *)

Module Spec.

Section Pipeline.
Context {T : Uni.Tables}.

(** "ASCII digits": the digits 0 to 9. *)
Definition ascii_digit (c : N) : bool := (48 <=? c)%N && (c <=? 57)%N.

(** "Any character that is neither alphanumeric nor whitespace". *)
Definition punctuation (c : N) : bool :=
  negb (Uni.isalnum c) && negb (Uni.isspace c).

(** "Replacing [a run] with a single separating space": a character of
    the class is dropped while the run goes on and becomes the space
    where the run ends. *)
Fixpoint squeeze (p : N → bool) (s : Uni.str) : Uni.str :=
  match s with
  | [] => []
  | c :: s' =>
      if p c then
        match s' with
        | [] => [32%N]
        | c' :: _ => if p c' then squeeze p s' else 32%N :: squeeze p s'
        end
      else c :: squeeze p s'
  end.

(** "Strip [a character of the class], replacing with a space". *)
Fixpoint blank (p : N → bool) (s : Uni.str) : Uni.str :=
  match s with
  | [] => []
  | c :: s' => (if p c then 32%N else c) :: blank p s'
  end.

(** The string without the white space it starts with. *)
Fixpoint skip_space (s : Uni.str) : Uni.str :=
  match s with
  | [] => []
  | c :: s' => if Uni.isspace c then skip_space s' else s
  end.

(** "Trim": without the white space at the start and, read backwards,
    at the end. *)
Definition trim (s : Uni.str) : Uni.str :=
  reverse (skip_space (reverse (skip_space s))).

(** The fields of a string: what stands before, between and after its
    white space characters, each of which separates two fields. *)
Fixpoint fields (s : Uni.str) : list Uni.str :=
  match s with
  | [] => [[]]
  | c :: s' =>
      if Uni.isspace c then [] :: fields s'
      else match fields s' with
           | w :: ws => (c :: w) :: ws
           | [] => [[c]]
           end
  end.

(** "Split on whitespace"; "empty input produces an empty sequence". *)
Definition split_on_space (s : Uni.str) : list Uni.str :=
  match s with
  | [] => []
  | _ :: _ => fields s
  end.

(** The stopword set the language selects: the Indonesian one for "id",
    the English one for any other language. *)
Definition selected (lang : Uni.str) : gset Uni.str :=
  match decide (lang = [105; 100]%N) with
  | left _ => set_map Uni.of_string STOPWORDS_ID
  | right _ => set_map Uni.of_string STOPWORDS_EN
  end.

(** The pipeline of the specification, for a given reading of "digit"
    and of "punctuation": case folding, digit stripping, punctuation
    stripping, in that order and each only if enabled; white space
    collapsed and trimmed; split on white space; stopwords of the
    selected set dropped. *)
Definition normalize_with (digit punct : N → bool) (text : Uni.str)
    (kw : Uni.tokkw) : list Uni.str :=
  let folded := if Uni.lowercase kw then Uni.lower text else text in
  let no_digits := if Uni.remove_digits kw then squeeze digit folded else folded in
  let no_punct := if Uni.remove_punct kw then blank punct no_digits else no_digits in
  let trimmed := trim (squeeze Uni.isspace no_punct) in
  let tokens := split_on_space trimmed in
  if Uni.use_stop kw
  then filter (λ t, t ∉ selected (Uni.lang kw)) tokens
  else tokens.

(** The pipeline as the specification states it. *)
Definition normalize : Uni.str → Uni.tokkw → list Uni.str :=
  normalize_with ascii_digit punctuation.

(** The pipeline with the digits and the punctuation of the code: a
    digit is a decimal digit of any script, as [\d] matches it, and the
    underscore is no punctuation. *)
Definition normalize_amended : Uni.str → Uni.tokkw → list Uni.str :=
  normalize_with Uni.isdecimal (λ c, punctuation c && negb (c =? 95)%N).

End Pipeline.

End Spec.

(** ** Vocabulary of the statements *)

Fixpoint no_space (s : string) : bool :=
  match s with
  | EmptyString => true
  | String c s' => negb (Py.isspace c) && no_space s'
  end.

(** What [split()] can return as one item: a word that is not empty and
    holds no white space. *)
Definition is_token (w : string) : bool :=
  negb (bool_decide (w = "")) && no_space w.

(** A term of the query grammar: a token that is not an operator. *)
Definition is_term (w : string) : bool :=
  is_token w && negb (is_operator w).

(** The tokens of the query "w1 AND w2 AND ... AND wn". *)
Fixpoint and_tokens (ws : list string) : list string :=
  match ws with
  | [] => []
  | [w] => [w]
  | w :: ws' => w :: "AND" :: and_tokens ws'
  end.

(** The positions, counted from [pos], at which [t] occurs in [tokens]. *)
Fixpoint occurrences (pos : Z) (t : string) (tokens : list string) : list Z :=
  match tokens with
  | [] => []
  | x :: tokens' =>
      (if decide (x = t) then [pos] else []) ++ occurrences (pos + 1) t tokens'
  end.

(** The corpus of the specification's scenarios. *)
Definition scenario_corpus : list string :=
  ["the cat sat"; "the dog sat"; "cat and dog"].

(** Punctuation removal on, stopword filtering off, the other keywords
    as given. *)
Definition scenario_kw (lc rd : bool) (l : string) : tokkw :=
  {| lowercase := lc; remove_digits := rd; remove_punct := true;
     lang := l; use_stop := false |}.

Definition scenario_index : inverted_index :=
  build_inverted_index scenario_corpus (scenario_kw true false "id").

(** Scenario A as the specification states it, for given keywords. *)
Definition scenario_A_as_stated (kw : tokkw) : Prop :=
  let idx := build_inverted_index scenario_corpus kw in
  index idx !! "cat"
    = Some {| df := 2; postings := {[ KInt 0 := [0]; KInt 2 := [0] ]} |} ∧
  index idx !! "sat"
    = Some {| df := 2; postings := {[ KInt 0 := [1]; KInt 1 := [1] ]} |}.

(** The position list the vocabulary holds for a term and a key, empty
    when there is none. *)
Definition plist (vocab : gmap string entry) (t : string) (k : dockey) : list Z :=
  match vocab !! t with
  | Some e => default [] (postings e !! k)
  | None => []
  end.

(** No entry without a key and no key with an empty list. *)
Definition proper (vocab : gmap string entry) : Prop :=
  ∀ t e, vocab !! t = Some e →
    (∃ k, is_Some (postings e !! k)) ∧
    (∀ k l, postings e !! k = Some l → l ≠ []).

(** What the documents [docs], numbered from [doc_id], add to the position
    list of key [k] for term [t]. *)
Fixpoint doc_occurrences (kw : tokkw) (doc_id : Z) (docs : list string)
    (t : string) (k : dockey) : list Z :=
  match docs with
  | [] => []
  | text :: docs' =>
      (if decide (k = KInt doc_id) then occurrences 0 t (tokenize text kw) else [])
      ++ doc_occurrences kw (doc_id + 1) docs' t k
  end.

(** The documents that hold every word of a phrase. *)
Definition docs_of_all (idx : inverted_index) (acc : gset dockey)
    (ws : list string) : gset dockey :=
  foldl (λ s w, s ∩ term_docs idx w) acc ws.

(** The tokens after the first word of "w1 AND w2 AND ... AND wn". *)
Definition and_tail (ws : list string) : list string :=
  flat_map (λ w, ["AND"; w]) ws.

(** What C5 states of two terms [x] and [y]: the queries "x" and "y"
    return, "x AND y" returns the intersection of their results, "x OR y"
    the union, and "NOT x" the universe minus the result of "x". *)
Definition connectives_hold (idx : inverted_index) (x y : string) : Prop :=
  ∃ X Y,
    boolean_search x idx = Return X ∧
    boolean_search y idx = Return Y ∧
    boolean_search (x +:+ " AND " +:+ y) idx = Return (X ∩ Y) ∧
    boolean_search (x +:+ " OR " +:+ y) idx = Return (X ∪ Y) ∧
    boolean_search ("NOT " +:+ x) idx = Return (universe idx ∖ X).

(** The relation C7 states between the two searches, for the words [ws]:
    both return, and the phrase result lies within the conjunctive one. *)
Definition phrase_within_and (idx : inverted_index) (ws : list string) : Prop :=
  ∃ R S,
    phrase_search (Py.join " " ws) idx = Return R ∧
    boolean_search (Py.join " " (and_tokens ws)) idx = Return S ∧
    R ⊆ S.

(** An index built with case kept, from a document that holds the word
    "AND". *)
Definition reserved_word_index : inverted_index :=
  build_inverted_index ["cats AND dogs"] (Tokkw false false true "id" true).

(** The refinement C8 states, for given tables. *)
Definition tokenize_refines_spec (T : Uni.Tables) : Prop :=
  ∀ text kw, Uni.tokenize text kw = Spec.normalize text kw.

(** The keyword arguments of the tokenizer on Latin-1 text, for the
    tokenizer on every string. *)
Definition of_kw (kw : tokkw) : Uni.tokkw :=
  {| Uni.lowercase := lowercase kw; Uni.remove_digits := remove_digits kw;
     Uni.remove_punct := remove_punct kw; Uni.lang := Uni.of_string (lang kw);
     Uni.use_stop := use_stop kw |}.

(** No two neighbours in the string are both of the class. *)
Fixpoint no_adjacent (p : N → bool) (s : Uni.str) : bool :=
  match s with
  | [] => true
  | c :: s' =>
      match s' with
      | [] => true
      | c' :: _ => negb (p c && p c')
      end && no_adjacent p s'
  end.

(** Every key of a postings dictionary is an [int], as in a built index. *)
Definition int_keys (m : gmap dockey (list Z)) : Prop :=
  ∀ k, is_Some (m !! k) → ∃ n, k = KInt n.

(** ** Well-formed queries

    The queries the precedence rules are made for: a disjunction of
    conjunctions of literals, a literal being a term or [NOT] and a term. *)

Inductive literal := Pos (t : string) | Neg (t : string).

Definition literal_term (l : literal) : string :=
  match l with Pos t | Neg t => t end.

Definition literal_tokens (l : literal) : list string :=
  match l with
  | Pos t => [t]
  | Neg t => ["NOT"; t]
  end.

(** The tokens of "l1 AND l2 AND ... AND ln". *)
Fixpoint conj_tokens (c : list literal) : list string :=
  match c with
  | [] => []
  | [l] => literal_tokens l
  | l :: c' => literal_tokens l ++ "AND" :: conj_tokens c'
  end.

(** The tokens of "c1 OR c2 OR ... OR cn". *)
Fixpoint query_tokens (q : list (list literal)) : list string :=
  match q with
  | [] => []
  | [c] => conj_tokens c
  | c :: q' => conj_tokens c ++ "OR" :: query_tokens q'
  end.

Definition literal_docs (idx : inverted_index) (l : literal) : gset dockey :=
  match l with
  | Pos t => term_docs idx t
  | Neg t => universe idx ∖ term_docs idx t
  end.

(** ((l1 ∩ l2) ∩ ...) ∩ ln *)
Definition conj_docs (idx : inverted_index) (c : list literal) : gset dockey :=
  match c with
  | [] => ∅
  | l :: c' => foldl (λ s l', s ∩ literal_docs idx l') (literal_docs idx l) c'
  end.

(** ((c1 ∪ c2) ∪ ...) ∪ cn *)
Definition query_docs (idx : inverted_index) (q : list (list literal))
    : gset dockey :=
  match q with
  | [] => ∅
  | c :: q' => foldl (λ s c', s ∪ conj_docs idx c') (conj_docs idx c) q'
  end.

(** No empty disjunction, no empty conjunction, and every term a term of
    the query grammar. *)
Definition well_formed (q : list (list literal)) : Prop :=
  q ≠ [] ∧
  Forall (λ c, c ≠ [] ∧ Forall (λ l, is_term (literal_term l) = true) c) q.

(** The two stacks below the literal being read: the value [a] of the
    conjuncts read so far waits for its [AND], under it the value [o] of
    the disjuncts read so far waits for its [OR]. *)
Definition under (o a : option (gset dockey))
    : list (gset dockey) * list string :=
  (option_list a ++ option_list o,
   (if a is Some _ then ["AND"] else []) ++ (if o is Some _ then ["OR"] else [])).

(** [a ∩ x], or [x] when nothing precedes. *)
Definition and_onto (a : option (gset dockey)) (x : gset dockey) : gset dockey :=
  match a with Some acc => acc ∩ x | None => x end.

(** [o ∪ x], or [x] when nothing precedes. *)
Definition or_onto (o : option (gset dockey)) (x : gset dockey) : gset dockey :=
  match o with Some acc => acc ∪ x | None => x end.

Fixpoint conj_onto (idx : inverted_index) (a : option (gset dockey))
    (c : list literal) : gset dockey :=
  match c with
  | [] => default ∅ a
  | l :: c' => conj_onto idx (Some (and_onto a (literal_docs idx l))) c'
  end.

Fixpoint query_onto (idx : inverted_index) (o : option (gset dockey))
    (q : list (list literal)) : gset dockey :=
  match q with
  | [] => default ∅ o
  | c :: q' => query_onto idx (Some (or_onto o (conj_onto idx None c))) q'
  end.

(** The end of [boolean_search]: the operators left are applied and the
    top of the operand stack is returned. *)
Definition finish (idx : inverted_index)
    (st : list (gset dockey) * list string) : result (gset dockey) :=
  bind (reduce_all idx st.1 st.2)
    (λ out, Return (match out with top :: _ => top | [] => ∅ end)).

(** Every document a term leads to is one of the ids 0 ... num_docs − 1. *)
Definition ids_in_range (idx : inverted_index) : Prop :=
  ∀ t, term_docs idx t ⊆ universe idx.

(** Every character of the string is of the class. *)
Fixpoint all_chars (p : ascii → bool) (s : string) : bool :=
  match s with
  | EmptyString => true
  | String c s' => p c && all_chars p s'
  end.

(** White space, or of the class: what a text may hold when its tokens
    are to hold characters of the class only. *)
Definition space_or (q : ascii → bool) (c : ascii) : bool :=
  Py.isspace c || q c.

(** A character [str.lower] leaves as it is. *)
Definition is_lowered (c : ascii) : bool :=
  bool_decide (Py.lower_char c = c).

(** ** Vocabulary statistics *)

(** A row [(term, df, cf)] of [vocabulary_stats]. *)
Definition row_of (te : string * entry) : string * Z * Z :=
  (te.1, df te.2, cf te.2).

(** The order of the sort key [(-x[1], x[0])]: tuples are compared
    component by component, strings by their code points. *)
Definition row_le (r1 r2 : string * Z * Z) : Prop :=
  - r1.1.2 < - r2.1.2 ∨ (- r1.1.2 = - r2.1.2 ∧ (r1.1.1 ≤ r2.1.1)%string).

Global Instance row_le_dec : RelDecision row_le.
Proof. intros r1 r2. unfold row_le. apply _. Defined.

(** [rows], one row for each item of [index["index"]]. *)
Definition vocabulary_rows (idx : inverted_index) : list (string * Z * Z) :=
  row_of <$> map_to_list (index idx).

(** [vocabulary_stats]: the rows sorted by their key. The terms of a
    dictionary are distinct, so no two rows have the same key and the
    sorted list does not depend on the order in which the dictionary
    gives its items. *)
Definition vocabulary_stats (idx : inverted_index) : list (string * Z * Z) :=
  merge_sort row_le (vocabulary_rows idx).

(** The tokens of the whole corpus, document after document. *)
Definition corpus_tokens (docs : list string) (kw : tokkw) : list string :=
  concat ((λ text, tokenize text kw) <$> docs).

(** The number of the documents whose tokens hold [t]. *)
Definition docs_holding (docs : list string) (kw : tokkw) (t : string) : Z :=
  Z.of_nat (length (filter (λ text, t ∈ tokenize text kw) docs)).

(** The number of the tokens of the corpus that are [t]. *)
Definition corpus_count (docs : list string) (kw : tokkw) (t : string) : Z :=
  Z.of_nat (length (filter (λ x, x = t) (corpus_tokens docs kw))).

(** The postings of [t] over the documents numbered from [doc_id]: each
    document that holds [t] under its id, with the positions of [t]. *)
Fixpoint postings_of (kw : tokkw) (doc_id : Z) (docs : list string)
    (t : string) : gmap dockey (list Z) :=
  match docs with
  | [] => ∅
  | text :: docs' =>
      let l := occurrences 0 t (tokenize text kw) in
      let m := postings_of kw (doc_id + 1) docs' t in
      if decide (l = []) then m else <[KInt doc_id := l]> m
  end.

(** ** The page: loading a corpus, searching, showing the hits *)

(** The line boundaries of [str.splitlines] inside Latin-1: LF, VT, FF,
    CR, FS, GS, RS and NEL. *)
Definition is_linebreak (c : ascii) : bool :=
  let n := Py.code c in
  Py.between 10 13 n || Py.between 28 30 n || (n =? 133)%N.

(** [txt.splitlines()]: the lines without their boundaries; CR LF is one
    boundary; a boundary at the very end opens no further line. [cur] is
    the line being read. *)
Fixpoint splitlines_go (cur : string) (s : string) : list string :=
  match s with
  | EmptyString => if decide (cur = "") then [] else [cur]
  | String c s' =>
      if is_linebreak c
      then cur :: (if decide (c = "013"%char)
                   then match s' with
                        | String "010"%char s'' => splitlines_go "" s''
                        | _ => splitlines_go "" s'
                        end
                   else splitlines_go "" s')
      else splitlines_go (cur +:+ String c "") s'
  end.
Definition splitlines (s : string) : list string := splitlines_go "" s.

(** No line boundary. *)
Definition in_line (c : ascii) : bool := negb (is_linebreak c).

(** [[line.strip() for line in txt.splitlines() if line.strip()]] *)
Definition corpus_lines (txt : string) : list string :=
  filter (λ line, line ≠ "") (Py.strip <$> splitlines txt).

(** [f"doc_{i+1}"] *)
Definition doc_label (i : Z) : string := "doc_" +:+ pretty (i + 1).

(** [[f"doc_{i+1}" for i in range(len(docs))]] *)
Definition doc_ids_for (docs : list string) : list string :=
  doc_label <$> seqZ 0 (Z.of_nat (length docs)).

(** The tab for pasted text, on the pair of [docs] and [doc_ids]: both
    are set when the text is not blank. *)
Definition load_pasted (txt : string) (st : list string * list string)
    : list string * list string :=
  if decide (Py.strip txt = "") then st
  else let docs := corpus_lines txt in (docs, doc_ids_for docs).

(** The tab for a text file, from the decoded text on: [docs] and
    [doc_ids] are set when there is a line. *)
Definition load_txt (t : string) (st : list string * list string)
    : list string * list string :=
  let lines := corpus_lines t in
  if decide (lines = []) then st else (lines, doc_ids_for lines).

(** The string does not start with white space. *)
Definition starts_nonspace (s : string) : bool :=
  match s with
  | EmptyString => true
  | String c _ => negb (Py.isspace c)
  end.

(** A document as these two tabs load it: not empty, without white space
    at its ends, on one line. *)
Definition line_doc (d : string) : Prop :=
  d ≠ "" ∧ Py.strip d = d ∧ all_chars in_line d = true.

(** The double quote. *)
Definition quote : ascii := ascii_of_N 34.

(** [s.lstrip(chars)], [s.rstrip(chars)] and [s.strip(chars)] for the
    characters of a class. *)
Fixpoint lstrip_of (p : ascii → bool) (s : string) : string :=
  match s with
  | EmptyString => EmptyString
  | String c s' => if p c then lstrip_of p s' else s
  end.

Fixpoint rstrip_of (p : ascii → bool) (s : string) : string :=
  match s with
  | EmptyString => EmptyString
  | String c s' =>
      match rstrip_of p s' with
      | EmptyString => if p c then EmptyString else String c EmptyString
      | r => String c r
      end
  end.

Definition strip_of (p : ascii → bool) (s : string) : string :=
  rstrip_of p (lstrip_of p s).

Definition is_quote (c : ascii) : bool := bool_decide (c = quote).

(** A phrase typed between double quotes. *)
Definition quoted (p : string) : string :=
  String quote (p +:+ String quote "").

(** The set holds [str] keys only. *)
Definition str_ids (s : gset dockey) : Prop :=
  ∀ k, k ∈ s → ∃ x, k = KStr x.

Inductive mode := Boolean | Phrase.

(** The search of the page: [hits] is the empty set unless the query is
    not blank; the phrase is the query without the white space and then
    the double quotes at its ends. *)
Definition search_hits (m : mode) (q : string) (idx : inverted_index)
    : result (gset dockey) :=
  if decide (Py.strip q = "") then Return ∅
  else match m with
       | Boolean => boolean_search q idx
       | Phrase => phrase_search (strip_of is_quote (Py.strip q)) idx
       end.

(** What showing a hit can raise. *)
Inductive show_exn := TypeError | SubscriptError.

(** [l[i]]: a [str] is no index of a list; an [int] below zero counts
    from the end; an [int] out of range raises IndexError (here
    [SubscriptError]). *)
Definition getitem (l : list string) (i : dockey) : show_exn + string :=
  match i with
  | KStr _ => inl TypeError
  | KInt d =>
      let j := if decide (d < 0) then d + Z.of_nat (length l) else d in
      if decide (0 ≤ j) then
        match l !! Z.to_nat j with
        | Some x => inr x
        | None => inl SubscriptError
        end
      else inl SubscriptError
  end.

(** [didx + 1] inside [f"doc_{didx+1}"]: a [str] and an [int] do not
    add. *)
Definition label_of (didx : dockey) : show_exn + string :=
  match didx with
  | KStr _ => inl TypeError
  | KInt d => inr (doc_label d)
  end.

(** The title of a hit:
    [st.session_state.get("doc_ids", doc_ids)[didx] if doc_ids else
    f"doc_{didx+1}"]. [session] is the value the session state holds
    under "doc_ids", if any. *)
Definition hit_title (session : option (list string)) (doc_ids : list string)
    (didx : dockey) : show_exn + string :=
  match doc_ids with
  | [] => label_of didx
  | _ :: _ => getitem (default doc_ids session) didx
  end.

(** * Properties *)

(** ** Strings: [split], [strip] and [join] *)

Lemma str_app_cons (c : ascii) (s1 s2 : string) :
  String c s1 +:+ s2 = String c (s1 +:+ s2).
Proof. done. Qed.

Lemma str_app_nil_r (s : string) : s +:+ "" = s.
Proof. induction s as [|c s IH]; [done|]. by rewrite str_app_cons, IH. Qed.

Lemma str_app_assoc (s1 s2 s3 : string) : (s1 +:+ s2) +:+ s3 = s1 +:+ s2 +:+ s3.
Proof. induction s1 as [|c s1 IH]; [done|]. by rewrite !str_app_cons, IH. Qed.

Lemma str_app_eq_nil (s1 s2 : string) : s1 +:+ s2 = "" → s1 = "" ∧ s2 = "".
Proof. destruct s1; [done|]. by rewrite str_app_cons. Qed.

Lemma split_go_nil (cur : string) :
  Py.split_go cur "" = if decide (cur = "") then [] else [cur].
Proof. done. Qed.

Lemma split_go_cons (cur : string) (c : ascii) (s : string) :
  Py.split_go cur (String c s) =
    if Py.isspace c
    then (if decide (cur = "") then Py.split_go "" s else cur :: Py.split_go "" s)
    else Py.split_go (cur +:+ String c "") s.
Proof. done. Qed.

(** A word without white space is read into the current word. *)
Lemma split_go_word (w cur s : string) :
  no_space w = true → Py.split_go cur (w +:+ s) = Py.split_go (cur +:+ w) s.
Proof.
  revert cur. induction w as [|c w IH]; intros cur Hw.
  - change ("" +:+ s) with s. by rewrite str_app_nil_r.
  - cbn in Hw. apply andb_true_iff in Hw as [Hc Hw].
    rewrite str_app_cons, split_go_cons.
    destruct (Py.isspace c); [done|].
    rewrite IH by done. by rewrite str_app_assoc.
Qed.

Lemma is_token_spec (w : string) :
  is_token w = true ↔ w ≠ "" ∧ no_space w = true.
Proof.
  unfold is_token. rewrite andb_true_iff, negb_true_iff, bool_decide_eq_false.
  done.
Qed.

Lemma is_term_spec (w : string) :
  is_term w = true ↔ is_token w = true ∧ is_operator w = false.
Proof. unfold is_term. by rewrite andb_true_iff, negb_true_iff. Qed.

Lemma split_go_token (w s : string) :
  is_token w = true →
  Py.split_go "" (w +:+ String " " s) = w :: Py.split_go "" s.
Proof.
  intros [Hne Hw]%is_token_spec.
  rewrite split_go_word by done. cbn [String.append].
  rewrite split_go_cons. change (Py.isspace " ") with true.
  change ("" +:+ w) with w. cbn. by destruct (decide (w = "")).
Qed.

Lemma split_token (w : string) : is_token w = true → Py.split w = [w].
Proof.
  intros [Hne Hw]%is_token_spec. unfold Py.split.
  rewrite <- (str_app_nil_r w) at 1. rewrite split_go_word by done.
  change ("" +:+ w) with w. cbn. by destruct (decide (w = "")).
Qed.

(** Joining tokens with single spaces and splitting gives the tokens back. *)
Lemma split_join (ws : list string) :
  Forall (λ w, is_token w = true) ws → Py.split (Py.join " " ws) = ws.
Proof.
  induction 1 as [|w ws Hw Hws IH]; [done|].
  destruct ws as [|w' ws].
  - by apply split_token.
  - change (Py.join " " (w :: w' :: ws))
      with (w +:+ String " " (Py.join " " (w' :: ws))).
    unfold Py.split. rewrite split_go_token by done.
    f_equal. exact IH.
Qed.

Lemma split_go_lstrip (s : string) : Py.split_go "" (Py.lstrip s) = Py.split_go "" s.
Proof.
  induction s as [|c s IH]; [done|].
  cbn [Py.lstrip]. rewrite (split_go_cons "" c s).
  destruct (Py.isspace c) eqn:Hc; [|by rewrite split_go_cons, Hc].
  by rewrite IH.
Qed.

Lemma split_go_rstrip (cur s : string) :
  Py.split_go cur (Py.rstrip s) = Py.split_go cur s.
Proof.
  revert cur. induction s as [|c s IH]; intros cur; [done|].
  cbn [Py.rstrip]. destruct (Py.rstrip s) as [|c' r] eqn:Hr.
  - rewrite (split_go_cons cur c s).
    destruct (Py.isspace c) eqn:Hc.
    + rewrite <- (IH ""). rewrite split_go_nil. cbn.
      by destruct (decide (cur = "")).
    + rewrite split_go_cons, Hc. by rewrite <- IH.
  - rewrite (split_go_cons cur c (String c' r)), (split_go_cons cur c s).
    by rewrite !IH.
Qed.

(** [strip()] before [split()] changes nothing. *)
Lemma split_strip (s : string) : Py.split (Py.strip s) = Py.split s.
Proof.
  unfold Py.split, Py.strip. by rewrite split_go_rstrip, split_go_lstrip.
Qed.

(** ** Boolean search: the two stacks *)

Lemma prec_NOT : prec !! "NOT" = Some 3.
Proof. reflexivity. Qed.

Lemma prec_AND : prec !! "AND" = Some 2.
Proof. reflexivity. Qed.

Lemma prec_OR : prec !! "OR" = Some 1.
Proof. reflexivity. Qed.

Lemma apply_operator_NOT idx a out :
  apply_operator idx "NOT" (a :: out) = Return ((universe idx ∖ a) :: out).
Proof. reflexivity. Qed.

Lemma apply_operator_AND idx a b out :
  apply_operator idx "AND" (b :: a :: out) = Return ((a ∩ b) :: out).
Proof. reflexivity. Qed.

Lemma apply_operator_OR idx a b out :
  apply_operator idx "OR" (b :: a :: out) = Return ((a ∪ b) :: out).
Proof. reflexivity. Qed.

(** [apply_op()] pops the operator on top and applies it. *)
Lemma apply_op_cons idx out op ops :
  apply_op idx (out, op :: ops) =
    bind (apply_operator idx op out) (λ out', Return (out', ops)).
Proof. reflexivity. Qed.

(** One round of [while op_stack: apply_op()]. *)
Lemma reduce_all_cons idx out op ops :
  reduce_all idx out (op :: ops) =
    bind (apply_op idx (out, op :: ops)) (λ st, reduce_all idx st.1 st.2).
Proof.
  rewrite apply_op_cons. cbn [reduce_all].
  by destruct (apply_operator idx op out).
Qed.

Lemma reduce_while_nil idx p out : reduce_while idx p out [] = Return (out, []).
Proof. reflexivity. Qed.

Lemma reduce_while_keep idx p q out op ops :
  prec !! op = Some q → q < p →
  reduce_while idx p out (op :: ops) = Return (out, op :: ops).
Proof.
  intros Hq Hlt. cbn [reduce_while]. rewrite Hq.
  change (default 0 (Some q)) with q.
  destruct (decide (p ≤ q)); [lia|done].
Qed.

Lemma reduce_while_apply idx p q out op ops :
  prec !! op = Some q → p ≤ q →
  reduce_while idx p out (op :: ops) =
    bind (apply_operator idx op out) (λ out', reduce_while idx p out' ops).
Proof.
  intros Hq Hle. cbn [reduce_while]. rewrite Hq.
  change (default 0 (Some q)) with q.
  destruct (decide (p ≤ q)); [done|lia].
Qed.

Lemma eval_token_term idx st w :
  is_operator w = false →
  eval_token idx st w = Return (term_docs idx w :: st.1, st.2).
Proof. intros Hw. unfold eval_token. by rewrite Hw. Qed.

Lemma eval_token_operator idx out ops tok p :
  is_operator tok = true → prec !! tok = Some p →
  eval_token idx (out, ops) tok =
    bind (reduce_while idx p out ops) (λ st, Return (st.1, tok :: st.2)).
Proof.
  intros Hop Hp. unfold eval_token. rewrite Hop, Hp. cbn [fst snd].
  by destruct (reduce_while idx p out ops) as [[??]|].
Qed.

Lemma eval_tokens_cons idx tok toks st :
  eval_tokens idx (tok :: toks) st =
    bind (eval_token idx st tok) (eval_tokens idx toks).
Proof. reflexivity. Qed.

Lemma bind_Return {A B} (a : A) (k : A → result B) : bind (Return a) k = k a.
Proof. reflexivity. Qed.

(** Unfolds one round of the evaluation loop on a known token. *)
Ltac eval_step :=
  first
    [ progress cbn [fst snd]
    | rewrite eval_tokens_cons
    | rewrite eval_token_term by done
    | rewrite (eval_token_operator _ _ _ "AND" 2) by done
    | rewrite (eval_token_operator _ _ _ "OR" 1) by done
    | rewrite (eval_token_operator _ _ _ "NOT" 3) by done
    | rewrite reduce_while_nil
    | rewrite (reduce_while_keep _ _ 3 _ "NOT") by (done || lia)
    | rewrite (reduce_while_keep _ _ 2 _ "AND") by (done || lia)
    | rewrite (reduce_while_keep _ _ 1 _ "OR") by (done || lia)
    | rewrite (reduce_while_apply _ _ 3 _ "NOT") by (done || lia)
    | rewrite (reduce_while_apply _ _ 2 _ "AND") by (done || lia)
    | rewrite (reduce_while_apply _ _ 1 _ "OR") by (done || lia)
    | rewrite apply_operator_NOT
    | rewrite apply_operator_AND
    | rewrite apply_operator_OR
    | rewrite bind_Return ].

(** The result of a query whose tokens are known. *)
Lemma boolean_search_tokens idx query toks :
  Py.split query = toks → toks ≠ [] →
  boolean_search query idx =
    bind (eval_tokens idx toks ([], []))
      (λ st, bind (reduce_all idx st.1 st.2)
        (λ out, Return (match out with top :: _ => top | [] => ∅ end))).
Proof.
  intros Hq Hne. unfold boolean_search. rewrite split_strip, Hq.
  destruct (decide (toks = [])); [done|].
  by destruct (eval_tokens idx toks ([], [])) as [[??]|].
Qed.

(** X9. A query without tokens (empty, or white space only) returns the
    empty set. *)
Lemma boolean_search_empty idx query :
  Py.split query = [] → boolean_search query idx = Return ∅.
Proof. intros Hq. unfold boolean_search. by rewrite split_strip, Hq. Qed.

Lemma boolean_search_empty_witness :
  boolean_search "  " scenario_index = Return ∅.
Proof. apply (boolean_search_empty scenario_index "  "). reflexivity. Defined.

(** A query that is one term returns the documents of the term. *)
Lemma boolean_search_term idx x :
  is_term x = true → boolean_search x idx = Return (term_docs idx x).
Proof.
  intros [Hx Hop]%is_term_spec.
  rewrite (boolean_search_tokens idx x [x]) by (by apply split_token || done).
  by repeat eval_step.
Qed.

(** Terms are pushed one after the other; nothing combines them. *)
Lemma eval_tokens_terms idx toks out ops :
  Forall (λ w, is_operator w = false) toks →
  eval_tokens idx toks (out, ops) =
    Return (reverse (term_docs idx <$> toks) ++ out, ops).
Proof.
  intros Htoks. revert out. induction Htoks as [|w toks Hw _ IH]; intros out.
  - done.
  - rewrite eval_tokens_cons, eval_token_term, bind_Return by done.
    cbn [fst snd]. rewrite IH. rewrite fmap_cons, reverse_cons.
    by rewrite <- app_assoc.
Qed.

(** ** Boolean search: malformed queries *)

(** C1 (the code departs from the claim). A query whose operator lacks an
    operand does not return the empty set: [apply_op] pops an empty operand
    stack and the [IndexError] of [list.pop] leaves [boolean_search].
    This holds on every index, for the query "AND", for the trailing
    operator of "cat AND", and for "NOT" alone. *)
Theorem boolean_search_underflow_raises idx :
  boolean_search "AND" idx = Raise IndexError ∧
  boolean_search "cat AND" idx = Raise IndexError ∧
  boolean_search "NOT" idx = Raise IndexError.
Proof. repeat split; reflexivity. Qed.

(** The part of the claim that holds: a query with no token at all (empty
    or white space only) returns the empty set. *)
Example boolean_search_blank idx :
  boolean_search "" idx = Return ∅ ∧ boolean_search "   " idx = Return ∅.
Proof. split; reflexivity. Qed.

(** A trailing [NOT] has its operand: the query is evaluated, and its
    result is the complement, not the empty set. *)
Example boolean_search_trailing_not :
  boolean_search "cat NOT" scenario_index = Return {[ KInt 1 ]}.
Proof. vm_compute. reflexivity. Qed.

(** ** Boolean search: precedence and connectives *)

(** C4. For every index and all terms [a], [b], [c] of the query grammar
    (tokens that are not operators), the query "a OR b AND NOT c" returns
    docs(a) ∪ (docs(b) ∩ (universe − docs(c))): [NOT] binds tighter than
    [AND], which binds tighter than [OR]. *)
Theorem boolean_search_precedence idx a b c :
  is_term a = true → is_term b = true → is_term c = true →
  boolean_search (a +:+ " OR " +:+ b +:+ " AND NOT " +:+ c) idx =
    Return (term_docs idx a ∪
            (term_docs idx b ∩ (universe idx ∖ term_docs idx c))).
Proof.
  intros [Ha Ha']%is_term_spec [Hb Hb']%is_term_spec [Hc Hc']%is_term_spec.
  rewrite (boolean_search_tokens idx _ [a; "OR"; b; "AND"; "NOT"; c]).
  - repeat eval_step. reflexivity.
  - change (a +:+ " OR " +:+ b +:+ " AND NOT " +:+ c)
      with (Py.join " " [a; "OR"; b; "AND"; "NOT"; c]).
    apply split_join. by repeat constructor.
  - done.
Qed.

Lemma boolean_search_precedence_witness :
  boolean_search "cat OR dog AND NOT sat" scenario_index =
    Return (term_docs scenario_index "cat" ∪
            (term_docs scenario_index "dog" ∩
             (universe scenario_index ∖ term_docs scenario_index "sat"))).
Proof.
  exact (boolean_search_precedence scenario_index "cat" "dog" "sat"
           eq_refl eq_refl eq_refl).
Defined.

(** On the scenario corpus the two groupings differ, and the query takes
    the first. *)
Example precedence_groupings_differ :
  boolean_search "cat OR dog AND NOT sat" scenario_index
    = Return {[ KInt 0; KInt 2 ]} ∧
  (term_docs scenario_index "cat" ∪ term_docs scenario_index "dog")
    ∩ (universe scenario_index ∖ term_docs scenario_index "sat")
    = {[ KInt 2 ]}.
Proof. split; vm_compute; reflexivity. Qed.

(** C5 fails as stated: a term present in an index may be one of the
    reserved words. The index built, with case kept, from the document
    "cats AND dogs" holds the terms "AND" and "cats"; the query "AND" and
    the query "AND AND cats" return no set, they raise (see C1). *)
Lemma connectives_of_reserved_word :
  "AND" ∈ dom (index reserved_word_index) ∧
  "cats" ∈ dom (index reserved_word_index) ∧
  boolean_search "AND" reserved_word_index = Raise IndexError ∧
  boolean_search "AND AND cats" reserved_word_index = Raise IndexError ∧
  ¬ connectives_hold reserved_word_index "AND" "cats".
Proof.
  split; [apply elem_of_dom; eexists; vm_compute; reflexivity|].
  split; [apply elem_of_dom; eexists; vm_compute; reflexivity|].
  split; [reflexivity|]. split; [reflexivity|].
  intros (X & Y & HX & _). vm_compute in HX. discriminate HX.
Qed.

(** C5, amended. For every index and any two terms [x] and [y] of the
    query grammar (words that are not empty, hold no white space and are
    none of the reserved words AND, OR, NOT; present in the index or not),
    "x AND y" returns the intersection of what "x" and "y" return,
    "x OR y" their union, and "NOT x" the universe {0, ..., num_docs − 1}
    minus what "x" returns. *)
Theorem boolean_search_connectives idx x y :
  is_term x = true → is_term y = true → connectives_hold idx x y.
Proof.
  intros Hx Hy. exists (term_docs idx x), (term_docs idx y).
  split; [by apply boolean_search_term|].
  split; [by apply boolean_search_term|].
  apply is_term_spec in Hx as [Hx Hx'], Hy as [Hy Hy'].
  split; [|split].
  - rewrite (boolean_search_tokens idx _ [x; "AND"; y]).
    + by repeat eval_step.
    + change (x +:+ " AND " +:+ y) with (Py.join " " [x; "AND"; y]).
      apply split_join. by repeat constructor.
    + done.
  - rewrite (boolean_search_tokens idx _ [x; "OR"; y]).
    + by repeat eval_step.
    + change (x +:+ " OR " +:+ y) with (Py.join " " [x; "OR"; y]).
      apply split_join. by repeat constructor.
    + done.
  - rewrite (boolean_search_tokens idx _ ["NOT"; x]).
    + by repeat eval_step.
    + change ("NOT " +:+ x) with (Py.join " " ["NOT"; x]).
      apply split_join. by repeat constructor.
    + done.
Qed.

Lemma boolean_search_connectives_witness :
  connectives_hold scenario_index "cat" "sat".
Proof.
  exact (boolean_search_connectives scenario_index "cat" "sat"
           eq_refl eq_refl).
Defined.

(** The terms of the witness are present in the index, and the five
    queries return these sets. *)
Example connectives_on_scenario :
  "cat" ∈ dom (index scenario_index) ∧ "sat" ∈ dom (index scenario_index) ∧
  boolean_search "cat" scenario_index = Return {[ KInt 0; KInt 2 ]} ∧
  boolean_search "sat" scenario_index = Return {[ KInt 0; KInt 1 ]} ∧
  boolean_search "cat AND sat" scenario_index = Return {[ KInt 0 ]} ∧
  boolean_search "cat OR sat" scenario_index = Return {[ KInt 0; KInt 1; KInt 2 ]} ∧
  boolean_search "NOT cat" scenario_index = Return {[ KInt 1 ]}.
Proof.
  split; [apply elem_of_dom; eexists; vm_compute; reflexivity|].
  split; [apply elem_of_dom; eexists; vm_compute; reflexivity|].
  repeat split; vm_compute; reflexivity.
Qed.

(** ** Boolean search: adjacent terms *)

(** C9. For every index and every query that consists of term tokens only
    (two or more of them, no operator), [boolean_search] returns the
    documents of the last term: the sets of the earlier terms stay on the
    operand stack and are dropped. *)
Theorem boolean_search_adjacent_terms idx query t :
  (2 ≤ length (Py.split (Py.strip query)))%nat →
  Forall (λ w, is_operator w = false) (Py.split (Py.strip query)) →
  last (Py.split (Py.strip query)) = Some t →
  boolean_search query idx = Return (term_docs idx t).
Proof.
  rewrite split_strip. intros Hlen Hterms Hlast.
  rewrite (boolean_search_tokens idx query (Py.split query)); [|done|].
  - rewrite eval_tokens_terms by done. rewrite !bind_Return. cbn [fst snd].
    cbn [reduce_all]. rewrite bind_Return, app_nil_r.
    destruct (Py.split query) as [|w toks] using rev_ind; [done|].
    rewrite last_snoc in Hlast. injection Hlast as ->.
    by rewrite fmap_app, reverse_app.
  - intros Hnil. rewrite Hnil in Hlen. cbn in Hlen. lia.
Qed.

Lemma boolean_search_adjacent_terms_witness :
  boolean_search "cat dog" scenario_index
    = Return (term_docs scenario_index "dog").
Proof.
  apply (boolean_search_adjacent_terms scenario_index "cat dog" "dog").
  - vm_compute. lia.
  - vm_compute. by repeat constructor.
  - reflexivity.
Defined.

(** ** Tokenization: the stopword set *)

(** C10. For every language value other than "id" (so for "en" and for any
    unknown value), [tokenize] with stopword filtering enabled drops
    exactly the tokens of the English stopword set, as it does for "en";
    [tokenize] is a total function, so no language value raises. *)
Theorem tokenize_language_fallback text lc rd rp l :
  l ≠ "id" →
  tokenize text (Tokkw lc rd rp l true)
    = filter (λ t, t ∉ STOPWORDS_EN) (tokenize text (Tokkw lc rd rp l false)) ∧
  tokenize text (Tokkw lc rd rp l true)
    = tokenize text (Tokkw lc rd rp "en" true).
Proof.
  intros Hl. unfold tokenize, stopwords_for. cbn [use_stop lang].
  destruct (decide (l = "id")); [done|].
  destruct (decide ("en" = "id")); done.
Qed.

Lemma tokenize_language_fallback_witness :
  tokenize "The cat and the hat" (Tokkw true false true "fr" true)
    = filter (λ t, t ∉ STOPWORDS_EN)
        (tokenize "The cat and the hat" (Tokkw true false true "fr" false)) ∧
  tokenize "The cat and the hat" (Tokkw true false true "fr" true)
    = tokenize "The cat and the hat" (Tokkw true false true "en" true).
Proof.
  apply (tokenize_language_fallback "The cat and the hat" true false true "fr").
  discriminate.
Defined.

Example tokenize_unknown_language :
  tokenize "The cat and the hat" (Tokkw true false true "fr" true)
    = ["cat"; "hat"] ∧
  tokenize "The cat and the hat" (Tokkw true false true "id" true)
    = ["the"; "cat"; "and"; "the"; "hat"].
Proof. split; vm_compute; reflexivity. Qed.

(** ** The scenario corpus *)

(** C3 fails as stated: with stopword filtering off, "the" keeps position
    0 in the first two documents, so "cat" is at position 1 of document 0
    and "sat" at position 2 of documents 0 and 1. *)
Lemma scenario_A_as_stated_fails :
  ¬ scenario_A_as_stated (scenario_kw true false "id").
Proof.
  intros [Hcat _]. vm_compute in Hcat. discriminate Hcat.
Qed.

(** C3, amended. With punctuation removal on and stopword filtering off
    (whatever the other keywords), the index of the scenario corpus has
    "cat" with df 2 and postings {0:[1], 2:[0]} and "sat" with df 2 and
    postings {0:[2], 1:[2]}. The postings the specification lists are the
    ones built with the English stopwords filtered out. *)
Theorem scenario_A lc rd l :
  (let idx := build_inverted_index scenario_corpus (scenario_kw lc rd l) in
   index idx !! "cat"
     = Some {| df := 2; postings := {[ KInt 0 := [1]; KInt 2 := [0] ]} |} ∧
   index idx !! "sat"
     = Some {| df := 2; postings := {[ KInt 0 := [2]; KInt 1 := [2] ]} |}) ∧
  scenario_A_as_stated (Tokkw lc rd true "en" true).
Proof.
  destruct lc, rd; repeat split; vm_compute; reflexivity.
Qed.

(** X7. Scenario B of the specification: on the scenario corpus
    "cat AND sat" returns {0}, "cat OR dog" returns {0, 1, 2} and "NOT cat"
    returns {1}. *)
Example scenario_B :
  boolean_search "cat AND sat" scenario_index = Return {[ KInt 0 ]} ∧
  boolean_search "cat OR dog" scenario_index
    = Return {[ KInt 0; KInt 1; KInt 2 ]} ∧
  boolean_search "NOT cat" scenario_index = Return {[ KInt 1 ]}.
Proof. repeat split; vm_compute; reflexivity. Qed.

(** X8. Scenario C of the specification: the phrase "cat sat" returns {0},
    the phrase "dog cat" returns nothing. *)
Example scenario_C :
  phrase_search "cat sat" scenario_index = Return {[ KInt 0 ]} ∧
  phrase_search "dog cat" scenario_index = Return ∅.
Proof. split; vm_compute; reflexivity. Qed.

(** ** The JSON snapshot *)

(** C2 (the code departs from the claim). Saving the index of the scenario
    corpus and loading it back does not reproduce it: the document ids,
    [int] keys in the built postings, come back as [str] keys. The
    frequencies, the position lists and [num_docs] are reproduced, but the
    loaded index answers queries differently: [NOT] subtracts [str] keys
    from a universe of [int] ids and removes nothing. *)
Theorem json_roundtrip_changes_doc_ids :
  Json.roundtrip scenario_index ≠ scenario_index ∧
  index scenario_index !! "cat"
    = Some {| df := 2; postings := {[ KInt 0 := [1]; KInt 2 := [0] ]} |} ∧
  index (Json.roundtrip scenario_index) !! "cat"
    = Some {| df := 2; postings := {[ KStr "0" := [1]; KStr "2" := [0] ]} |} ∧
  num_docs (Json.roundtrip scenario_index) = num_docs scenario_index ∧
  boolean_search "NOT cat" scenario_index = Return {[ KInt 1 ]} ∧
  boolean_search "NOT cat" (Json.roundtrip scenario_index)
    = Return {[ KInt 0; KInt 1; KInt 2 ]}.
Proof.
  split; [|repeat split; vm_compute; reflexivity].
  intros Heq. apply (f_equal (λ i, index i !! "cat")) in Heq.
  vm_compute in Heq. discriminate Heq.
Qed.

(** ** The index builder *)

Lemma plist_lookup vocab t e k l :
  vocab !! t = Some e → postings e !! k = Some l → plist vocab t k = l.
Proof. intros Ht Hk. unfold plist. by rewrite Ht, Hk. Qed.

Lemma plist_not_nil vocab t k :
  plist vocab t k ≠ [] → ∃ e, vocab !! t = Some e ∧ is_Some (postings e !! k).
Proof.
  unfold plist. destruct (vocab !! t) as [e|]; [|done].
  destruct (postings e !! k) as [l|] eqn:Hk; [|done]. eauto.
Qed.

Lemma plist_add_posting d p t vocab t' k :
  plist (add_posting d p t vocab) t' k =
    plist vocab t' k ++ (if decide (t = t' ∧ k = KInt d) then [p] else []).
Proof.
  unfold plist, add_posting. destruct (decide (t = t')) as [<-|Hne].
  - rewrite lookup_insert_eq. cbn [postings].
    destruct (decide (k = KInt d)) as [->|Hk].
    + rewrite lookup_insert_eq. rewrite decide_True by done.
      by destruct (vocab !! t).
    + rewrite lookup_insert_ne by done.
      rewrite decide_False by (by intros [_ ?]). rewrite app_nil_r.
      by destruct (vocab !! t).
  - rewrite lookup_insert_ne by done.
    rewrite decide_False by (by intros [? _]). by rewrite app_nil_r.
Qed.

Lemma proper_add_posting d p t vocab :
  proper vocab → proper (add_posting d p t vocab).
Proof.
  intros Hv t' e. unfold add_posting. destruct (decide (t = t')) as [<-|Hne].
  - rewrite lookup_insert_eq. intros [= <-]. cbn [postings]. split.
    + exists (KInt d). by rewrite lookup_insert_eq.
    + intros k l. destruct (decide (k = KInt d)) as [->|Hk].
      * rewrite lookup_insert_eq. intros [= <-]. by intros [_ ?]%app_eq_nil.
      * rewrite lookup_insert_ne by done.
        destruct (vocab !! t) as [e|] eqn:Ht; cbn; [|done].
        by apply (Hv t e).
  - rewrite lookup_insert_ne by done. apply Hv.
Qed.

Lemma plist_index_tokens d p tokens vocab t k :
  plist (index_tokens d p tokens vocab) t k =
    plist vocab t k ++ (if decide (k = KInt d) then occurrences p t tokens else []).
Proof.
  revert p vocab. induction tokens as [|x tokens IH]; intros p vocab.
  - cbn. by destruct (decide (k = KInt d)); rewrite app_nil_r.
  - cbn [index_tokens occurrences]. rewrite IH, plist_add_posting, <- app_assoc.
    f_equal. destruct (decide (k = KInt d)), (decide (x = t)).
    + by rewrite decide_True.
    + by rewrite decide_False by (by intros [? _]).
    + by rewrite decide_False by (by intros [_ ?]).
    + by rewrite decide_False by (by intros [_ ?]).
Qed.

Lemma proper_index_tokens d p tokens vocab :
  proper vocab → proper (index_tokens d p tokens vocab).
Proof.
  revert p vocab. induction tokens as [|x tokens IH]; intros p vocab Hv; [done|].
  cbn [index_tokens]. by apply IH, proper_add_posting.
Qed.

Lemma plist_index_docs kw d docs vocab t k :
  plist (index_docs kw d docs vocab) t k =
    plist vocab t k ++ doc_occurrences kw d docs t k.
Proof.
  revert d vocab. induction docs as [|text docs IH]; intros d vocab.
  - cbn. by rewrite app_nil_r.
  - cbn [index_docs doc_occurrences].
    by rewrite IH, plist_index_tokens, <- app_assoc.
Qed.

Lemma proper_index_docs kw d docs vocab :
  proper vocab → proper (index_docs kw d docs vocab).
Proof.
  revert d vocab. induction docs as [|text docs IH]; intros d vocab Hv; [done|].
  cbn [index_docs]. by apply IH, proper_index_tokens.
Qed.

Lemma occurrences_ge p t tokens : Forall (λ q, p ≤ q) (occurrences p t tokens).
Proof.
  revert p. induction tokens as [|x tokens IH]; intros p; [constructor|].
  cbn [occurrences]. apply Forall_app. split.
  - destruct (decide (x = t)); repeat constructor. lia.
  - eapply Forall_impl; [apply (IH (p + 1))|]. intros q ?. cbn in *. lia.
Qed.

(** Positions are appended in scan order: each list is strictly increasing. *)
Lemma occurrences_increasing p t tokens :
  StronglySorted Z.lt (occurrences p t tokens).
Proof.
  revert p. induction tokens as [|x tokens IH]; intros p; [constructor|].
  cbn [occurrences]. destruct (decide (x = t)); [|apply IH].
  cbn. constructor; [apply IH|].
  eapply Forall_impl; [apply (occurrences_ge (p + 1))|]. intros q ?. cbn in *. lia.
Qed.

Lemma occurrences_not_nil p t tokens :
  occurrences p t tokens ≠ [] ↔ t ∈ tokens.
Proof.
  revert p. induction tokens as [|x tokens IH]; intros p.
  - cbn. split; [done|]. by intros ?%elem_of_nil.
  - cbn [occurrences]. rewrite elem_of_cons. destruct (decide (x = t)) as [->|Hne].
    + split; [by left|done].
    + cbn. rewrite IH. split; [by right|]. by intros [?|?].
Qed.

Lemma doc_occurrences_below kw d0 docs t d :
  d < d0 → doc_occurrences kw d0 docs t (KInt d) = [].
Proof.
  revert d0. induction docs as [|text docs IH]; intros d0 Hlt; [done|].
  cbn [doc_occurrences]. rewrite decide_False by (intros [= ?]; lia).
  rewrite IH by lia. done.
Qed.

(** A key collects the occurrences of the term in one document. *)
Lemma doc_occurrences_cases kw d0 docs t k :
  doc_occurrences kw d0 docs t k = [] ∨
  ∃ text, text ∈ docs ∧
    doc_occurrences kw d0 docs t k = occurrences 0 t (tokenize text kw).
Proof.
  revert d0. induction docs as [|text docs IH]; intros d0; [by left|].
  cbn [doc_occurrences]. destruct (decide (k = KInt d0)) as [->|Hk].
  - right. exists text. split; [by left|].
    rewrite doc_occurrences_below by lia. by rewrite app_nil_r.
  - destruct (IH (d0 + 1)) as [->|(text' & Hin & ->)]; [by left|].
    right. exists text'. split; [by right|done].
Qed.

Lemma doc_occurrences_elem kw d0 docs t text :
  text ∈ docs → t ∈ tokenize text kw →
  ∃ k, doc_occurrences kw d0 docs t k ≠ [].
Proof.
  intros Hin Ht. revert d0.
  induction Hin as [text docs|text text' docs Hin IH]; intros d0.
  - exists (KInt d0). cbn [doc_occurrences]. rewrite decide_True by done.
    apply occurrences_not_nil with (p := 0) in Ht.
    by intros [? _]%app_eq_nil.
  - destruct (IH Ht (d0 + 1)) as [k Hk]. exists k. cbn [doc_occurrences].
    by intros [_ ?]%app_eq_nil.
Qed.

(** C6. Every index [build_inverted_index] produces satisfies: a term is a
    key iff it occurs among the tokens of at least one document; every
    document-id key of a postings map holds a position list that is not
    empty and strictly increasing; and the df stored for a term is the
    number of distinct document ids of its postings map. *)
Theorem build_inverted_index_invariants docs kw :
  let idx := build_inverted_index docs kw in
  (∀ t, t ∈ dom (index idx) ↔ ∃ text, text ∈ docs ∧ t ∈ tokenize text kw) ∧
  (∀ t e k l, index idx !! t = Some e → postings e !! k = Some l →
     l ≠ [] ∧ StronglySorted Z.lt l) ∧
  (∀ t e, index idx !! t = Some e →
     df e = Z.of_nat (size (dom (postings e)))).
Proof.
  cbn zeta. unfold build_inverted_index. cbn [index].
  pose proof (proper_index_docs kw 0 docs ∅) as Hproper.
  assert (proper (∅ : gmap string entry)) as Hempty by (by intros t e).
  specialize (Hproper Hempty).
  assert (∀ t k, plist (index_docs kw 0 docs ∅) t k
                 = doc_occurrences kw 0 docs t k) as Hplist.
  { intros t k. by rewrite plist_index_docs. }
  split; [|split].
  - intros t. rewrite elem_of_dom, lookup_fmap, fmap_is_Some. split.
    + intros [e He]. destruct (Hproper t e He) as [[k [l Hk]] Hne].
      pose proof (plist_lookup _ _ _ _ _ He Hk) as Hl.
      rewrite Hplist in Hl.
      destruct (doc_occurrences_cases kw 0 docs t k) as [Hnil|(text & Hin & Hocc)].
      * rewrite Hnil in Hl. subst l. by destruct (Hne k [] Hk).
      * exists text. split; [done|]. apply (occurrences_not_nil 0).
        rewrite <- Hocc, Hl. by apply (Hne k).
    + intros (text & Hin & Ht).
      destruct (doc_occurrences_elem kw 0 docs t text Hin Ht) as [k Hk].
      rewrite <- Hplist in Hk. apply plist_not_nil in Hk as (e & He & _). eauto.
  - intros t e k l. rewrite lookup_fmap.
    destruct (index_docs kw 0 docs ∅ !! t) as [e0|] eqn:He0; [|done].
    intros [= <-]. cbn [postings set_df]. intros Hk.
    destruct (Hproper t e0 He0) as [_ Hne]. split; [by apply (Hne k)|].
    pose proof (plist_lookup _ _ _ _ _ He0 Hk) as Hl. rewrite Hplist in Hl.
    destruct (doc_occurrences_cases kw 0 docs t k) as [Hnil|(text & _ & Hocc)].
    + rewrite Hnil in Hl. subst l. constructor.
    + rewrite <- Hl, Hocc. apply occurrences_increasing.
  - intros t e. rewrite lookup_fmap.
    destruct (index_docs kw 0 docs ∅ !! t) as [e0|]; [|done].
    intros [= <-]. cbn [df postings set_df]. by rewrite size_dom.
Qed.

(** ** Phrase search against the conjunctive query *)

Lemma elem_of_docs_of_all idx acc ws d :
  d ∈ docs_of_all idx acc ws ↔ d ∈ acc ∧ ∀ w, w ∈ ws → d ∈ term_docs idx w.
Proof.
  unfold docs_of_all. revert acc. induction ws as [|w ws IH]; intros acc.
  - cbn. split; [|by intros [? _]]. intros ?. split; [done|].
    by intros w ?%elem_of_nil.
  - cbn [foldl]. rewrite IH, elem_of_intersection. split.
    + intros [[Hacc Hw] Hws]. split; [done|].
      intros w' [->|?]%elem_of_cons; auto.
    + intros [Hacc Hws]. split; [split; [done|]|].
      * apply Hws. by left.
      * intros w' ?. apply Hws. by right.
Qed.

Lemma elem_of_term_docs idx w d :
  d ∈ term_docs idx w ↔ ∃ e, index idx !! w = Some e ∧ is_Some (postings e !! d).
Proof.
  unfold term_docs. destruct (index idx !! w) as [e|].
  - rewrite elem_of_dom. split; [by exists e|]. by intros (e' & [= <-] & ?).
  - split; [by intros ?%elem_of_empty|]. by intros (e & ? & _).
Qed.

Lemma narrow_candidates_Some idx ws cand c :
  narrow_candidates idx ws cand = Some c → c = docs_of_all idx cand ws.
Proof.
  unfold docs_of_all. revert cand. induction ws as [|w ws IH]; intros cand.
  - cbn. by intros [= ->].
  - cbn [narrow_candidates foldl]. unfold term_docs.
    destruct (index idx !! w) as [e|]; [|done].
    destruct (decide (cand ∩ dom (postings e) = ∅)); [done|]. apply IH.
Qed.

Lemma positions_lists_Return idx d words :
  (∀ w, w ∈ words → d ∈ term_docs idx w) →
  ∃ lists, positions_lists idx d words = Return lists.
Proof.
  induction words as [|w words IH]; intros Hws; [by eexists|].
  cbn [positions_lists]. unfold positions_of.
  assert (d ∈ term_docs idx w) as (e & -> & [l ->])%elem_of_term_docs
    by (apply Hws; by left).
  destruct IH as [lists ->]; [intros w' ?; apply Hws; by right|].
  by eexists.
Qed.

Lemma match_docs_Return idx words ds res :
  (∀ d w, d ∈ ds → w ∈ words → d ∈ term_docs idx w) →
  ∃ R, match_docs idx words ds res = Return R ∧ R ⊆ list_to_set ds ∪ res.
Proof.
  revert res. induction ds as [|d ds IH]; intros res Hds.
  - exists res. split; [done|]. set_solver.
  - cbn [match_docs].
    destruct (positions_lists_Return idx d words) as [lists ->].
    { intros w ?. apply Hds; [by left|done]. }
    rewrite bind_Return.
    destruct (IH (if adjacent lists then {[d]} ∪ res else res)) as (R & -> & HR).
    { intros d' w ??. apply Hds; [by right|done]. }
    exists R. split; [done|]. intros x Hx%HR. rewrite list_to_set_cons.
    destruct (adjacent lists); rewrite !elem_of_union in *; tauto.
Qed.

(** [phrase_search] never raises, and what it returns lies within the
    documents that hold every word of the phrase. *)
Lemma phrase_search_within idx phrase w0 rest :
  Py.split phrase = w0 :: rest →
  ∃ R, phrase_search phrase idx = Return R ∧
       R ⊆ docs_of_all idx (term_docs idx w0) rest.
Proof.
  intros Hsplit. unfold phrase_search. rewrite Hsplit.
  unfold term_docs at 1.
  destruct (index idx !! w0) as [first|] eqn:Hfirst; [|by exists ∅].
  destruct (narrow_candidates idx rest (dom (postings first))) as [c|] eqn:Hc;
    [|exists ∅; split; [done|set_solver]].
  apply narrow_candidates_Some in Hc.
  destruct (match_docs_Return idx (w0 :: rest) (elements c) ∅) as (R & -> & HR).
  - intros d w Hd%elem_of_elements Hw. rewrite Hc in Hd.
    apply elem_of_docs_of_all in Hd as [Hd0 Hd].
    apply elem_of_cons in Hw as [->|Hw]; [|by apply Hd].
    apply elem_of_term_docs. exists first. split; [done|].
    by apply elem_of_dom.
  - exists R. split; [done|]. rewrite <- Hc.
    intros d [Hd|Hd%elem_of_empty]%HR%elem_of_union; [|done].
    by apply elem_of_list_to_set, elem_of_elements in Hd.
Qed.

Lemma and_tokens_cons w ws : and_tokens (w :: ws) = w :: and_tail ws.
Proof.
  revert w. induction ws as [|w' ws IH]; intros w; [done|].
  change (and_tokens (w :: w' :: ws)) with (w :: "AND" :: and_tokens (w' :: ws)).
  by rewrite IH.
Qed.

Lemma and_tail_tokens ws :
  Forall (λ w, is_term w = true) ws →
  Forall (λ w, is_token w = true) (and_tail ws).
Proof.
  induction 1 as [|w ws Hw _ IH]; [constructor|].
  apply is_term_spec in Hw as [Hw _]. cbn. by repeat constructor.
Qed.

(** The conjunction is evaluated from the left: when the next [AND]
    arrives, the one on the operator stack is applied first. *)
Lemma eval_and_tail idx ws acc W :
  Forall (λ w, is_term w = true) ws →
  bind (eval_tokens idx (and_tail ws) ([W; acc], ["AND"]))
    (λ st, bind (reduce_all idx st.1 st.2)
      (λ out, Return (match out with top :: _ => top | [] => ∅ end)))
  = Return (docs_of_all idx (acc ∩ W) ws).
Proof.
  intros Hws. revert acc W.
  induction Hws as [|w ws Hw _ IH]; intros acc W.
  - cbn [and_tail flat_map eval_tokens]. rewrite bind_Return. cbn [fst snd].
    cbn [reduce_all]. by rewrite apply_operator_AND.
  - apply is_term_spec in Hw as [_ Hw].
    change (and_tail (w :: ws)) with ("AND" :: w :: and_tail ws).
    repeat eval_step. apply IH.
Qed.

Lemma boolean_search_and idx w ws :
  Forall (λ w, is_term w = true) (w :: ws) →
  boolean_search (Py.join " " (and_tokens (w :: ws))) idx =
    Return (docs_of_all idx (term_docs idx w) ws).
Proof.
  intros Hws. pose proof Hws as Hws'. apply Forall_cons in Hws' as [Hw Hrest].
  apply is_term_spec in Hw as [Hw Hop].
  rewrite (boolean_search_tokens idx _ (and_tokens (w :: ws))).
  - rewrite and_tokens_cons. destruct Hrest as [|w' ws Hop' Hrest].
    + by repeat eval_step.
    + apply is_term_spec in Hop' as [_ Hop'].
      change (and_tail (w' :: ws)) with ("AND" :: w' :: and_tail ws).
      repeat eval_step. by rewrite eval_and_tail.
  - apply split_join. rewrite and_tokens_cons. constructor; [done|].
    by apply and_tail_tokens.
  - by rewrite and_tokens_cons.
Qed.

(** C7 fails as stated: a word of a phrase may be one of the reserved
    words. In an index that holds "AND", the phrase "AND" matches document
    0, while the conjunctive query of that one word is the query "AND",
    which returns no set: it raises (see C1). *)
Lemma phrase_of_reserved_word :
  phrase_search "AND" reserved_word_index = Return {[ KInt 0 ]} ∧
  boolean_search "AND" reserved_word_index = Raise IndexError ∧
  ¬ phrase_within_and reserved_word_index ["AND"].
Proof.
  split; [vm_compute; reflexivity|]. split; [reflexivity|].
  intros (R & S & _ & HS & _). vm_compute in HS. discriminate HS.
Qed.

(** C7, amended. For every index (a built one in particular) and every
    sequence of words w1 ... wn that is not empty and holds none of the
    reserved words AND, OR, NOT, [phrase_search] on the words returns a
    subset of what [boolean_search] returns on "w1 AND w2 AND ... AND wn". *)
Theorem phrase_search_subset_and idx ws :
  ws ≠ [] → Forall (λ w, is_term w = true) ws →
  phrase_within_and idx ws.
Proof.
  intros Hne Hws. destruct ws as [|w ws]; [done|].
  destruct (phrase_search_within idx (Py.join " " (w :: ws)) w ws) as (R & HR & Hsub).
  { apply split_join. eapply Forall_impl; [exact Hws|].
    by intros w' [? _]%is_term_spec. }
  exists R, (docs_of_all idx (term_docs idx w) ws).
  split; [done|]. split; [by apply boolean_search_and|done].
Qed.

Lemma phrase_search_subset_and_witness :
  phrase_within_and scenario_index ["cat"; "sat"].
Proof.
  apply (phrase_search_subset_and scenario_index ["cat"; "sat"]).
  - discriminate.
  - repeat constructor.
Defined.

(** ** The tokenizer against the pipeline of the specification *)

Section Refinement.
Context {T : Uni.Tables}.

(** Emitting the space where a run starts or where it ends is the same. *)
Lemma sub_runs_go_squeeze p s :
  Uni.sub_runs_go p false s = Spec.squeeze p s ∧
  ∀ c, p c = true → 32%N :: Uni.sub_runs_go p true s = Spec.squeeze p (c :: s).
Proof.
  induction s as [|c' s [IH1 IH2]].
  - split; [done|]. intros c Hc. cbn. by rewrite Hc.
  - split.
    + cbn [Uni.sub_runs_go]. destruct (p c') eqn:Hc'.
      * by apply IH2.
      * cbn [Spec.squeeze]. by rewrite Hc', IH1.
    + intros c Hc. change (Spec.squeeze p (c :: c' :: s))
        with (if p c then (if p c' then Spec.squeeze p (c' :: s)
                           else 32%N :: Spec.squeeze p (c' :: s))
              else c :: Spec.squeeze p (c' :: s)).
      rewrite Hc. cbn [Uni.sub_runs_go]. destruct (p c') eqn:Hc'.
      * by apply IH2.
      * cbn [Spec.squeeze]. by rewrite Hc', IH1.
Qed.

Lemma sub_runs_squeeze p s : Uni.sub_runs p s = Spec.squeeze p s.
Proof. apply sub_runs_go_squeeze. Qed.

Lemma sub_each_blank p q s :
  (∀ c, p c = q c) → Uni.sub_each p s = Spec.blank q s.
Proof.
  intros Hpq. unfold Uni.sub_each. induction s as [|c s IH]; [done|].
  cbn [Spec.blank]. by rewrite fmap_cons, IH, Hpq.
Qed.

(** The underscore is the one character that is neither alphanumeric nor
    white space and that [[^\w\s]] leaves alone. *)
Lemma not_word_not_space_punctuation c :
  Uni.not_word_not_space c = Spec.punctuation c && negb (c =? 95)%N.
Proof.
  unfold Uni.not_word_not_space, Uni.isword, Spec.punctuation.
  by destruct (Uni.isalnum c), (Uni.isspace c), (c =? 95)%N.
Qed.

(** *** [strip] is the trimming of the specification *)

Lemma lstrip_skip_space s : Uni.lstrip s = Spec.skip_space s.
Proof. induction s as [|c s IH]; [done|]. cbn. by rewrite IH. Qed.

Lemma rstrip_snoc s c :
  Uni.rstrip (s ++ [c]) = if Uni.isspace c then Uni.rstrip s else s ++ [c].
Proof.
  induction s as [|c0 s IH].
  - cbn. by destruct (Uni.isspace c).
  - cbn [app Uni.rstrip]. rewrite IH. destruct (Uni.isspace c); [done|].
    by destruct s.
Qed.

Lemma rstrip_reverse s :
  Uni.rstrip s = reverse (Spec.skip_space (reverse s)).
Proof.
  induction s as [|c s IH] using rev_ind; [done|].
  rewrite rstrip_snoc, reverse_snoc. cbn [Spec.skip_space].
  destruct (Uni.isspace c); [done|].
  by rewrite reverse_cons, reverse_involutive.
Qed.

Lemma strip_trim s : Uni.strip s = Spec.trim s.
Proof.
  unfold Uni.strip, Spec.trim. by rewrite rstrip_reverse, <- lstrip_skip_space.
Qed.

(** *** What [strip] leaves of collapsed white space *)

Lemma lstrip_head s c t : Uni.lstrip s = c :: t → Uni.isspace c = false.
Proof.
  induction s as [|c0 s IH]; [done|]. cbn [Uni.lstrip].
  destruct (Uni.isspace c0) eqn:Hc0; [done|]. by intros [= <- _].
Qed.

Lemma rstrip_head s c r : Uni.rstrip s = c :: r → ∃ s', s = c :: s'.
Proof.
  destruct s as [|c0 s]; [done|]. cbn [Uni.rstrip].
  destruct (Uni.rstrip s); [destruct (Uni.isspace c0)|];
    intros [= <- _]; eauto.
Qed.

Lemma rstrip_twice s : Uni.rstrip (Uni.rstrip s) = Uni.rstrip s.
Proof.
  induction s as [|c s IH]; [done|]. cbn [Uni.rstrip].
  destruct (Uni.rstrip s) as [|c' r] eqn:Hr.
  - destruct (Uni.isspace c) eqn:Hc; [done|]. cbn. by rewrite Hc.
  - cbn [Uni.rstrip]. cbn [Uni.rstrip] in IH. by rewrite IH.
Qed.

(** A string that [rstrip] leaves as it is: so does it leave what
    follows the first character, if anything does. *)
Lemma rstrip_fixed_tail c c' s :
  Uni.rstrip (c :: c' :: s) = c :: c' :: s → Uni.rstrip (c' :: s) = c' :: s.
Proof.
  change (Uni.rstrip (c :: c' :: s))
    with (match Uni.rstrip (c' :: s) with
          | [] => if Uni.isspace c then [] else [c]
          | r => c :: r
          end).
  destruct (Uni.rstrip (c' :: s)) as [|c2 r].
  - by destruct (Uni.isspace c).
  - by intros [= -> ->].
Qed.

Lemma no_adjacent_tail p c s :
  no_adjacent p (c :: s) = true → no_adjacent p s = true.
Proof. cbn [no_adjacent]. by intros [_ ?]%andb_true_iff. Qed.

Lemma no_adjacent_squeeze p s : no_adjacent p (Spec.squeeze p s) = true.
Proof.
  induction s as [|c s IH]; [done|]. cbn [Spec.squeeze].
  destruct (p c) eqn:Hc.
  - destruct s as [|c' s]; [done|]. destruct (p c') eqn:Hc'; [done|].
    cbn [Spec.squeeze] in *. rewrite Hc' in *.
    change (negb (p 32%N && p c') && no_adjacent p (c' :: Spec.squeeze p s) = true).
    by rewrite Hc', andb_false_r, IH.
  - cbn [no_adjacent]. rewrite IH, Hc, andb_true_r.
    by destruct (Spec.squeeze p s).
Qed.

Lemma no_adjacent_lstrip s :
  no_adjacent Uni.isspace s = true → no_adjacent Uni.isspace (Uni.lstrip s) = true.
Proof.
  induction s as [|c s IH]; [done|]. intros Hs. cbn [Uni.lstrip].
  destruct (Uni.isspace c); [|done]. by apply IH, (no_adjacent_tail _ c).
Qed.

Lemma no_adjacent_rstrip s :
  no_adjacent Uni.isspace s = true → no_adjacent Uni.isspace (Uni.rstrip s) = true.
Proof.
  induction s as [|c s IH]; [done|]. intros Hs. cbn [Uni.rstrip].
  specialize (IH (no_adjacent_tail _ _ _ Hs)).
  destruct (Uni.rstrip s) as [|c2 r] eqn:Hr.
  - by destruct (Uni.isspace c).
  - destruct (rstrip_head _ _ _ Hr) as [s' ->].
    cbn [no_adjacent] in Hs. apply andb_true_iff in Hs as [Hcc _].
    change (negb (Uni.isspace c && Uni.isspace c2)
            && no_adjacent Uni.isspace (c2 :: r) = true).
    by rewrite Hcc, IH.
Qed.

(** *** [split()] against the fields between white space *)

Lemma fields_not_nil s : Spec.fields s ≠ [].
Proof.
  destruct s as [|c s]; [done|]. cbn [Spec.fields].
  destruct (Uni.isspace c); [done|]. by destruct (Spec.fields s).
Qed.

(** [split()] gives the fields that are not empty. *)
Lemma split_go_fields cur s :
  Uni.split_go cur s =
    match Spec.fields s with
    | w :: ws => filter (λ f, f ≠ []) ((cur ++ w) :: ws)
    | [] => []
    end.
Proof.
  revert cur. induction s as [|c s IH]; intros cur.
  - cbn [Uni.split_go Spec.fields]. rewrite app_nil_r.
    destruct (decide (cur = [])) as [->|Hcur]; [done|].
    by rewrite filter_cons_True.
  - cbn [Uni.split_go Spec.fields]. destruct (Uni.isspace c).
    + rewrite app_nil_r, (IH []). cbn [app].
      pose proof (fields_not_nil s) as Hs.
      destruct (Spec.fields s) as [|w ws]; [done|].
      destruct (decide (cur = [])) as [->|Hcur].
      * by rewrite (filter_cons_False _ []) by (by intros ?).
      * by rewrite (filter_cons_True _ cur).
    + rewrite IH. pose proof (fields_not_nil s) as Hs.
      destruct (Spec.fields s) as [|w ws]; [done|].
      by rewrite <- app_assoc.
Qed.

(** Without white space at its end and without two white space
    characters in a row, a string has no empty field but, when it starts
    with white space, the first. *)
Lemma fields_tight t :
  t ≠ [] → Uni.rstrip t = t → no_adjacent Uni.isspace t = true →
  ∃ w ws, Spec.fields t = w :: ws ∧ Forall (λ f, f ≠ []) ws ∧
    (w = [] → ∃ c t', t = c :: t' ∧ Uni.isspace c = true).
Proof.
  induction t as [|c t IH]; [done|]. intros _ Hfix Hadj.
  destruct t as [|c' t].
  - cbn in Hfix. cbn [Spec.fields]. destruct (Uni.isspace c); [done|].
    exists [c], []. by repeat split.
  - destruct IH as (w' & ws' & Hf & Hws & Hw');
      [done|by apply (rstrip_fixed_tail c)|by apply (no_adjacent_tail _ c)|].
    cbn [no_adjacent] in Hadj. apply andb_true_iff in Hadj as [Hcc _].
    change (Spec.fields (c :: c' :: t))
      with (if Uni.isspace c then [] :: Spec.fields (c' :: t)
            else match Spec.fields (c' :: t) with
                 | w :: ws => (c :: w) :: ws
                 | [] => [[c]]
                 end).
    rewrite Hf. destruct (Uni.isspace c) eqn:Hc.
    + exists [], (w' :: ws'). split; [done|]. split.
      * constructor; [|done]. intros ->.
        destruct Hw' as (c2 & t2 & [= <- <-] & Hc2); [done|].
        by rewrite Hc2 in Hcc.
      * intros _. by exists c, (c' :: t).
    + exists (c :: w'), ws'. by repeat split.
Qed.

Lemma filter_all {A} (P : A → Prop) `{∀ x, Decision (P x)} (l : list A) :
  Forall P l → filter P l = l.
Proof.
  induction 1 as [|x l Hx Hl IH]; [done|]. by rewrite filter_cons_True, IH.
Qed.

(** Once white space is collapsed and trimmed, [split()] and the
    splitting at each white space character give the same. *)
Lemma split_collapsed u :
  let t := Uni.strip (Spec.squeeze Uni.isspace u) in
  (if decide (t = []) then [] else Uni.split t) = Spec.split_on_space t.
Proof.
  intros t. destruct (decide (t = [])) as [->|Hne]; [done|].
  assert (Uni.rstrip t = t) as Hfix by apply rstrip_twice.
  assert (no_adjacent Uni.isspace t = true) as Hadj
    by apply no_adjacent_rstrip, no_adjacent_lstrip, no_adjacent_squeeze.
  assert (∀ c t', t = c :: t' → Uni.isspace c = false) as Hhead.
  { intros c t' Ht. destruct (rstrip_head _ _ _ Ht) as [s' Hs'].
    by apply (lstrip_head _ _ _ Hs'). }
  destruct (fields_tight t Hne Hfix Hadj) as (w & ws & Hf & Hws & Hw).
  unfold Uni.split. rewrite split_go_fields, Hf. cbn [app].
  rewrite filter_all.
  - destruct t; [done|]. by cbn [Spec.split_on_space].
  - constructor; [|done]. intros ->.
    destruct Hw as (c & t' & Ht & Hc); [done|]. by rewrite (Hhead c t' Ht) in Hc.
Qed.

Lemma selected_stopwords_for l : Spec.selected l = Uni.stopwords_for l.
Proof.
  unfold Spec.selected, Uni.stopwords_for.
  change (Uni.of_string "id") with [105; 100]%N.
  by destruct (decide (l = [105; 100]%N)).
Qed.

(** C8, amended. For every input string and every combination of
    options, whatever the character tables of the interpreter,
    [tokenize] is the pipeline of the specification in which a digit is
    every decimal digit that [\d] matches, not only an ASCII digit, and
    in which the punctuation that is stripped is every character that is
    neither alphanumeric, nor white space, nor the underscore: case
    folding, then runs of digits each replaced by one space, then
    punctuation, each only if enabled and in that order; white space
    collapsed and trimmed; split on white space; then, if enabled, the
    tokens of the selected stopword set dropped. The empty input yields
    the empty sequence. *)
Theorem tokenize_refines_amended_spec text kw :
  Uni.tokenize text kw = Spec.normalize_amended text kw ∧
  Uni.tokenize [] kw = [].
Proof.
  split.
  - unfold Uni.tokenize, Spec.normalize_amended, Spec.normalize_with.
    cbn zeta. rewrite !sub_runs_squeeze.
    rewrite (sub_each_blank _ _ _ not_word_not_space_punctuation).
    rewrite split_collapsed, strip_trim.
    by rewrite selected_stopwords_for.
  - unfold Uni.tokenize. cbn zeta.
    assert ((if Uni.lowercase kw then Uni.lower [] else []) = []) as ->
      by (destruct (Uni.lowercase kw); [apply Uni.lower_nil|done]).
    by destruct (Uni.remove_digits kw), (Uni.remove_punct kw), (Uni.use_stop kw).
Qed.

End Refinement.

(** *** The two embeddings of the tokenizer agree on Latin-1 text *)

Lemma of_string_app s1 s2 :
  Uni.of_string (s1 +:+ s2) = Uni.of_string s1 ++ Uni.of_string s2.
Proof.
  induction s1 as [|c s1 IH]; [done|]. rewrite str_app_cons. cbn. by rewrite IH.
Qed.

Global Instance of_string_inj : Inj (=) (=) Uni.of_string.
Proof.
  intros s1. induction s1 as [|c1 s1 IH]; intros [|c2 s2]; try done.
  cbn. intros [= Hc Hs]. apply (f_equal ascii_of_N) in Hc.
  rewrite !ascii_N_embedding in Hc. by rewrite Hc, (IH s2 Hs).
Qed.

Lemma latin1_code p c : Uni.latin1 p (N_of_ascii c) = p c.
Proof.
  unfold Uni.latin1. rewrite ascii_N_embedding.
  pose proof (N_ascii_bounded c) as Hc. apply N.ltb_lt in Hc. by rewrite Hc.
Qed.

Lemma arabic_indic_digit_code c : Uni.arabic_indic_digit (N_of_ascii c) = false.
Proof.
  unfold Uni.arabic_indic_digit. pose proof (N_ascii_bounded c) as Hc.
  apply andb_false_iff. left. apply N.leb_gt. lia.
Qed.

Lemma sub_runs_go_latin1 (P : N → bool) (p : ascii → bool) b s :
  (∀ c, P (N_of_ascii c) = p c) →
  Uni.sub_runs_go P b (Uni.of_string s) = Uni.of_string (Py.sub_runs_go p b s).
Proof.
  intros HP. revert b. induction s as [|c s IH]; intros b; [done|].
  cbn [Uni.of_string Uni.sub_runs_go Py.sub_runs_go]. rewrite HP.
  destruct (p c); [destruct b|]; cbn [Uni.of_string]; by rewrite IH.
Qed.

Lemma sub_each_latin1 (P : N → bool) (p : ascii → bool) s :
  (∀ c, P (N_of_ascii c) = p c) →
  Uni.sub_each P (Uni.of_string s) = Uni.of_string (Py.sub_each p s).
Proof.
  intros HP. unfold Uni.sub_each, Py.sub_each. induction s as [|c s IH]; [done|].
  cbn [Uni.of_string Py.map]. rewrite fmap_cons, IH, HP. by destruct (p c).
Qed.

Lemma lower_latin1 s :
  Uni.lower (Tables := Uni.small_tables) (Uni.of_string s)
    = Uni.of_string (Py.lower s).
Proof.
  unfold Py.lower. cbn [Uni.lower Uni.small_tables].
  induction s as [|c s IH]; [done|].
  cbn [Uni.of_string Py.map]. rewrite fmap_cons, IH, ascii_N_embedding.
  pose proof (N_ascii_bounded c) as Hc. apply N.ltb_lt in Hc. by rewrite Hc.
Qed.

Lemma lstrip_latin1 s :
  Uni.lstrip (T := Uni.small_tables) (Uni.of_string s)
    = Uni.of_string (Py.lstrip s).
Proof.
  induction s as [|c s IH]; [done|].
  cbn [Uni.of_string Uni.lstrip Py.lstrip].
  change (Uni.isspace (N_of_ascii c)) with (Uni.latin1 Py.isspace (N_of_ascii c)).
  rewrite latin1_code. by destruct (Py.isspace c).
Qed.

Lemma rstrip_latin1 s :
  Uni.rstrip (T := Uni.small_tables) (Uni.of_string s)
    = Uni.of_string (Py.rstrip s).
Proof.
  induction s as [|c s IH]; [done|].
  cbn [Uni.of_string Uni.rstrip Py.rstrip]. rewrite IH.
  change (Uni.isspace (N_of_ascii c)) with (Uni.latin1 Py.isspace (N_of_ascii c)).
  rewrite latin1_code. destruct (Py.rstrip s); [by destruct (Py.isspace c)|done].
Qed.

Lemma split_go_latin1 cur s :
  Uni.split_go (T := Uni.small_tables) (Uni.of_string cur) (Uni.of_string s)
    = Uni.of_string <$> Py.split_go cur s.
Proof.
  revert cur. induction s as [|c s IH]; intros cur.
  - cbn [Uni.of_string Uni.split_go Py.split_go].
    destruct (decide (cur = "")) as [->|Hcur]; [done|].
    rewrite decide_False; [done|]. by intros ?%(inj Uni.of_string cur "").
  - cbn [Uni.of_string Uni.split_go Py.split_go].
    change (Uni.isspace (N_of_ascii c)) with (Uni.latin1 Py.isspace (N_of_ascii c)).
    rewrite latin1_code. destruct (Py.isspace c).
    + destruct (decide (cur = "")) as [->|Hcur].
      * apply (IH "").
      * rewrite decide_False by (by intros ?%(inj Uni.of_string cur "")).
        rewrite fmap_cons. f_equal. apply (IH "").
    + rewrite <- IH, of_string_app. done.
Qed.

Lemma stopwords_for_latin1 l t :
  Uni.of_string t ∈ Uni.stopwords_for (Uni.of_string l) ↔ t ∈ stopwords_for l.
Proof.
  unfold Uni.stopwords_for, stopwords_for.
  assert (∀ X : gset string, Uni.of_string t ∈ (set_map Uni.of_string X : gset Uni.str)
                             ↔ t ∈ X) as Hmap.
  { intros X. rewrite elem_of_map. split; [|by exists t].
    by intros (t' & ->%(inj Uni.of_string) & ?). }
  destruct (decide (l = "id")) as [->|Hl].
  - rewrite decide_True by done. apply Hmap.
  - rewrite decide_False by (by intros ?%(inj Uni.of_string l "id")). apply Hmap.
Qed.

(** On a text of Latin-1 characters, the tokenizer on every string,
    with the tables of CPython for these characters, gives the tokens of
    the tokenizer on Latin-1 text. *)
Lemma tokenize_latin1 text kw :
  Uni.tokenize (T := Uni.small_tables) (Uni.of_string text) (of_kw kw)
    = Uni.of_string <$> tokenize text kw.
Proof.
  unfold Uni.tokenize, tokenize, of_kw. cbn zeta.
  cbn [Uni.lowercase Uni.remove_digits Uni.remove_punct Uni.lang Uni.use_stop].
  set (t1 := if lowercase kw then Py.lower text else text).
  assert ((if lowercase kw
           then Uni.lower (Tables := Uni.small_tables) (Uni.of_string text)
           else Uni.of_string text) = Uni.of_string t1) as ->
    by (unfold t1; destruct (lowercase kw); [apply lower_latin1|done]).
  set (t2 := if remove_digits kw then Py.sub_runs Py.isdecimal t1 else t1).
  assert ((if remove_digits kw
           then Uni.sub_runs (Uni.isdecimal (Tables := Uni.small_tables))
                  (Uni.of_string t1)
           else Uni.of_string t1) = Uni.of_string t2) as ->.
  { unfold t2. destruct (remove_digits kw); [|done].
    apply sub_runs_go_latin1. intros c. cbn [Uni.isdecimal Uni.small_tables].
    by rewrite latin1_code, arabic_indic_digit_code, orb_false_r. }
  set (t3 := if remove_punct kw then Py.sub_each not_word_not_space t2 else t2).
  assert ((if remove_punct kw
           then Uni.sub_each (Uni.not_word_not_space (T := Uni.small_tables))
                  (Uni.of_string t2)
           else Uni.of_string t2) = Uni.of_string t3) as ->.
  { unfold t3. destruct (remove_punct kw); [|done].
    apply sub_each_latin1. intros c.
    unfold Uni.not_word_not_space, Uni.isword, not_word_not_space, Py.isword.
    cbn [Uni.isalnum Uni.isspace Uni.small_tables].
    by rewrite !latin1_code, arabic_indic_digit_code, orb_false_r. }
  set (t4 := Py.strip (Py.sub_runs Py.isspace t3)).
  assert (Uni.strip (T := Uni.small_tables)
            (Uni.sub_runs (Uni.isspace (Tables := Uni.small_tables))
               (Uni.of_string t3)) = Uni.of_string t4) as ->.
  { unfold t4, Uni.strip, Py.strip, Uni.sub_runs, Py.sub_runs.
    rewrite (sub_runs_go_latin1 _ Py.isspace) by (intros c; apply latin1_code).
    by rewrite lstrip_latin1, rstrip_latin1. }
  assert ((if decide (Uni.of_string t4 = [])
           then [] else Uni.split (T := Uni.small_tables) (Uni.of_string t4))
          = Uni.of_string <$> (if decide (t4 = "") then [] else Py.split t4)) as ->.
  { destruct (decide (t4 = "")) as [->|Ht4]; [done|].
    rewrite decide_False by (by intros ?%(inj Uni.of_string t4 "")).
    apply (split_go_latin1 ""). }
  destruct (use_stop kw); [|done]. cbn zeta.
  induction (if decide (t4 = "") then [] else Py.split t4) as [|t ts IH]; [done|].
  rewrite fmap_cons. destruct (decide (t ∈ stopwords_for (lang kw))) as [Hin|Hnin].
  - rewrite (filter_cons_False _ t) by (by intros ?).
    rewrite filter_cons_False; [done|].
    intros Ht. apply Ht. by apply stopwords_for_latin1.
  - rewrite (filter_cons_True _ t) by done.
    rewrite filter_cons_True by (by rewrite stopwords_for_latin1).
    by rewrite fmap_cons, IH.
Qed.

(** *** Where the pipeline as stated departs from the tokenizer *)

(** Whatever the tables, as long as the Arabic-Indic digit three is a
    decimal digit, "a" and "b" are none, and of the four characters only
    the space is white space: the tokenizer strips the digit, the
    pipeline as stated does not. *)
Lemma digit_clause_fails (T : Uni.Tables) :
  Uni.isdecimal 1635 = true → Uni.isdecimal 97 = false → Uni.isdecimal 98 = false →
  Uni.isspace 32 = true →
  Uni.isspace 97 = false → Uni.isspace 98 = false → Uni.isspace 1635 = false →
  Uni.tokenize [97; 1635; 98]%N (Uni.Tokkw false true false [] false)
    = [[97]; [98]]%N ∧
  Spec.normalize [97; 1635; 98]%N (Uni.Tokkw false true false [] false)
    = [[97; 1635; 98]]%N.
Proof.
  intros Hd Hda Hdb Hsp Hsa Hsb Hsd. split.
  - unfold Uni.tokenize, Uni.sub_runs, Uni.strip, Uni.split.
    cbn [Uni.lowercase Uni.remove_digits Uni.remove_punct Uni.use_stop].
    cbn zeta.
    repeat (cbn [Uni.sub_runs_go Uni.lstrip Uni.rstrip Uni.split_go app];
            rewrite ?Hd, ?Hda, ?Hdb, ?Hsp, ?Hsa, ?Hsb, ?Hsd).
    done.
  - unfold Spec.normalize, Spec.normalize_with, Spec.trim, Spec.split_on_space.
    cbn [Uni.lowercase Uni.remove_digits Uni.remove_punct Uni.use_stop].
    cbn zeta.
    change (Spec.squeeze Spec.ascii_digit [97; 1635; 98]%N) with [97; 1635; 98]%N.
    repeat (cbn [Spec.squeeze Spec.skip_space Spec.fields reverse rev_append app];
            rewrite ?Hsp, ?Hsa, ?Hsb, ?Hsd).
    done.
Qed.

(** Whatever the tables, as long as "a" and "b" are alphanumeric, the
    underscore is not, and of the four characters only the space is
    white space: the tokenizer keeps the underscore, the pipeline as
    stated strips it. *)
Lemma punctuation_clause_fails (T : Uni.Tables) :
  Uni.isalnum 97 = true → Uni.isalnum 98 = true → Uni.isalnum 95 = false →
  Uni.isspace 32 = true →
  Uni.isspace 97 = false → Uni.isspace 98 = false → Uni.isspace 95 = false →
  Uni.tokenize [97; 95; 98]%N (Uni.Tokkw false false true [] false)
    = [[97; 95; 98]]%N ∧
  Spec.normalize [97; 95; 98]%N (Uni.Tokkw false false true [] false)
    = [[97]; [98]]%N.
Proof.
  intros Haa Hab Hau Hsp Hsa Hsb Hsu. split.
  - unfold Uni.tokenize, Uni.sub_runs, Uni.sub_each, Uni.strip, Uni.split,
      Uni.not_word_not_space, Uni.isword.
    cbn [Uni.lowercase Uni.remove_digits Uni.remove_punct Uni.use_stop].
    cbn zeta. cbn [fmap list_fmap].
    rewrite Haa, Hab, Hau, Hsa, Hsb, Hsu. cbn [orb negb andb N.eqb Pos.eqb].
    repeat (cbn [Uni.sub_runs_go Uni.lstrip Uni.rstrip Uni.split_go app];
            rewrite ?Hsp, ?Hsa, ?Hsb, ?Hsu).
    done.
  - unfold Spec.normalize, Spec.normalize_with, Spec.trim, Spec.split_on_space,
      Spec.punctuation.
    cbn [Uni.lowercase Uni.remove_digits Uni.remove_punct Uni.use_stop].
    cbn zeta. cbn [Spec.blank]. rewrite Haa, Hab, Hau, Hsa, Hsb, Hsu.
    cbn [negb andb].
    repeat (cbn [Spec.squeeze Spec.skip_space Spec.fields reverse rev_append app];
            rewrite ?Hsp, ?Hsa, ?Hsb, ?Hsu).
    done.
Qed.

Example clauses_fail_small_tables :
  (Uni.tokenize (T := Uni.small_tables) [97; 1635; 98]%N
       (Uni.Tokkw false true false [] false) = [[97]; [98]]%N ∧
   Spec.normalize (T := Uni.small_tables) [97; 1635; 98]%N
       (Uni.Tokkw false true false [] false) = [[97; 1635; 98]]%N) ∧
  (Uni.tokenize (T := Uni.small_tables) [97; 95; 98]%N
       (Uni.Tokkw false false true [] false) = [[97; 95; 98]]%N ∧
   Spec.normalize (T := Uni.small_tables) [97; 95; 98]%N
       (Uni.Tokkw false false true [] false) = [[97]; [98]]%N).
Proof.
  split.
  - by apply (digit_clause_fails Uni.small_tables).
  - by apply (punctuation_clause_fails Uni.small_tables).
Qed.

(** C8 fails as stated, in two places. [tokenize] keeps the underscore,
    a character that is neither alphanumeric nor white space; and it
    strips the Arabic-Indic digit three (U+0663), a decimal digit that is
    no ASCII digit. Amending the punctuation alone, or the digits alone,
    still does not give the tokenizer. *)
Lemma tokenize_departs_from_spec :
  Uni.tokenize (T := Uni.small_tables) (Uni.of_string "a_b") Uni.tokkw_default
    = [Uni.of_string "a_b"] ∧
  Spec.normalize (T := Uni.small_tables) (Uni.of_string "a_b") Uni.tokkw_default
    = [Uni.of_string "a"; Uni.of_string "b"] ∧
  Uni.tokenize (T := Uni.small_tables) [97; 1635; 98]%N
      (Uni.Tokkw true true true (Uni.of_string "id") true)
    = [[97]; [98]]%N ∧
  Spec.normalize (T := Uni.small_tables) [97; 1635; 98]%N
      (Uni.Tokkw true true true (Uni.of_string "id") true)
    = [[97; 1635; 98]]%N ∧
  ¬ tokenize_refines_spec Uni.small_tables ∧
  ¬ (∀ text kw, Uni.tokenize (T := Uni.small_tables) text kw =
       Spec.normalize_with (T := Uni.small_tables) Spec.ascii_digit
         (λ c, Spec.punctuation (T := Uni.small_tables) c && negb (c =? 95)%N)
         text kw) ∧
  ¬ (∀ text kw, Uni.tokenize (T := Uni.small_tables) text kw =
       Spec.normalize_with (T := Uni.small_tables)
         (Uni.isdecimal (Tables := Uni.small_tables))
         (Spec.punctuation (T := Uni.small_tables)) text kw).
Proof.
  split; [vm_compute; reflexivity|]. split; [vm_compute; reflexivity|].
  split; [vm_compute; reflexivity|]. split; [vm_compute; reflexivity|].
  split; [|split].
  - intros H. specialize (H (Uni.of_string "a_b") Uni.tokkw_default).
    vm_compute in H. discriminate H.
  - intros H. specialize (H [97; 1635; 98]%N
      (Uni.Tokkw true true true (Uni.of_string "id") true)).
    vm_compute in H. discriminate H.
  - intros H. specialize (H (Uni.of_string "a_b") Uni.tokkw_default).
    vm_compute in H. discriminate H.
Qed.

(** ** Further properties of the tokenizer and the builder *)

Lemma no_space_app s1 s2 :
  no_space (s1 +:+ s2) = no_space s1 && no_space s2.
Proof.
  induction s1 as [|c s1 IH]; [done|].
  rewrite str_app_cons. cbn [no_space]. by rewrite IH, andb_assoc.
Qed.

Lemma split_go_tokens cur s :
  no_space cur = true → Forall (λ w, is_token w = true) (Py.split_go cur s).
Proof.
  revert cur. induction s as [|c s IH]; intros cur Hcur.
  - rewrite split_go_nil. destruct (decide (cur = "")); [constructor|].
    repeat constructor. by apply is_token_spec.
  - rewrite split_go_cons. destruct (Py.isspace c) eqn:Hc.
    + destruct (decide (cur = "")); [by apply IH|].
      constructor; [by apply is_token_spec|by apply IH].
    + apply IH. rewrite no_space_app, Hcur. cbn. by rewrite Hc.
Qed.

(** X1. Every token [tokenize] returns is a word that is not empty and
    holds no white space. *)
Theorem tokenize_tokens text kw :
  Forall (λ t, is_token t = true) (tokenize text kw).
Proof.
  unfold tokenize.
  set (s := Py.strip _).
  assert (Forall (λ t, is_token t = true)
            (if decide (s = "") then [] else Py.split s)) as Htok.
  { destruct (decide (s = "")); [constructor|]. by apply split_go_tokens. }
  destruct (use_stop kw); [|done]. rewrite Forall_forall in Htok |- *.
  intros t [_ Ht]%list_elem_of_filter. by apply Htok.
Qed.

(** The positions of [t] are the indexes at which the token list holds
    [t]. *)
Lemma elem_of_occurrences p t tokens q :
  q ∈ occurrences p t tokens ↔ p ≤ q ∧ tokens !! Z.to_nat (q - p) = Some t.
Proof.
  revert p. induction tokens as [|x tokens IH]; intros p.
  - cbn. split; [by intros ?%elem_of_nil|]. by intros [_ ?].
  - cbn [occurrences]. rewrite elem_of_app, IH. split.
    + intros [Hq|[Hle Hq]].
      * destruct (decide (x = t)) as [->|]; [|by apply elem_of_nil in Hq].
        apply list_elem_of_singleton in Hq as ->. split; [lia|].
        by replace (p - p) with 0 by lia.
      * split; [lia|].
        replace (Z.to_nat (q - p)) with (S (Z.to_nat (q - (p + 1)))) by lia.
        done.
    + intros [Hle Hq]. destruct (decide (q = p)) as [->|Hne].
      * left. replace (p - p) with 0 in Hq by lia. cbn in Hq.
        injection Hq as ->. rewrite decide_True by done. by left.
      * right. split; [lia|].
        replace (Z.to_nat (q - p)) with (S (Z.to_nat (q - (p + 1)))) in Hq by lia.
        done.
Qed.

(** The position list of key [d] is the list of the occurrences of the
    term in document [d]; other keys have none. *)
Lemma doc_occurrences_lookup kw d0 docs t k :
  doc_occurrences kw d0 docs t k =
    match k with
    | KInt d =>
        if decide (d0 ≤ d) then
          match docs !! Z.to_nat (d - d0) with
          | Some text => occurrences 0 t (tokenize text kw)
          | None => []
          end
        else []
    | KStr _ => []
    end.
Proof.
  revert d0. induction docs as [|text docs IH]; intros d0.
  - cbn. destruct k as [d|]; [|done]. by destruct (decide (d0 ≤ d)).
  - cbn [doc_occurrences]. rewrite IH. destruct k as [d|]; [|done].
    destruct (decide (d = d0)) as [->|Hne].
    + rewrite (decide_True (P := KInt d0 = KInt d0)) by done.
      rewrite (decide_False (P := d0 + 1 ≤ d0)) by lia.
      rewrite (decide_True (P := d0 ≤ d0)) by lia.
      replace (d0 - d0) with 0 by lia. cbn. by rewrite app_nil_r.
    + rewrite (decide_False (P := KInt d = KInt d0)) by congruence. cbn [app].
      destruct (decide (d0 + 1 ≤ d)).
      * rewrite (decide_True (P := d0 ≤ d)) by lia.
        by replace (Z.to_nat (d - d0)) with (S (Z.to_nat (d - (d0 + 1)))) by lia.
      * by rewrite (decide_False (P := d0 ≤ d)) by lia.
Qed.

Lemma built_postings_iff docs kw t k l :
  (∃ e, index (build_inverted_index docs kw) !! t = Some e ∧
        postings e !! k = Some l) ↔
  (∃ d text, k = KInt d ∧ 0 ≤ d < num_docs (build_inverted_index docs kw) ∧
     docs !! Z.to_nat d = Some text ∧
     l = occurrences 0 t (tokenize text kw) ∧ l ≠ []).
Proof.
  unfold build_inverted_index. cbn [index num_docs].
  pose proof (proper_index_docs kw 0 docs ∅) as Hproper.
  assert (proper (∅ : gmap string entry)) as Hempty by (by intros ??).
  specialize (Hproper Hempty).
  pose proof (plist_index_docs kw 0 docs ∅ t k) as Hplist.
  change (plist ∅ t k) with (@nil Z) in Hplist. cbn [app] in Hplist.
  rewrite doc_occurrences_lookup in Hplist. split.
  - intros (e & He & Hk). rewrite lookup_fmap in He.
    destruct (index_docs kw 0 docs ∅ !! t) as [e0|] eqn:He0; [|done].
    injection He as <-. cbn [postings set_df] in Hk.
    destruct (Hproper t e0 He0) as [_ Hne]. specialize (Hne k l Hk).
    rewrite (plist_lookup _ _ _ _ _ He0 Hk) in Hplist.
    destruct k as [d|s]; [|done].
    destruct (decide (0 ≤ d)); [|done].
    replace (d - 0) with d in Hplist by lia.
    destruct (docs !! Z.to_nat d) as [text|] eqn:Hd; [|done].
    exists d, text. pose proof (lookup_lt_Some _ _ _ Hd).
    repeat split; [lia|lia|done..].
  - intros (d & text & -> & [Hd0 _] & Hd & -> & Hne).
    rewrite decide_True in Hplist by done.
    replace (d - 0) with d in Hplist by lia. rewrite Hd in Hplist.
    assert (plist (index_docs kw 0 docs ∅) t (KInt d) ≠ []) as Hne'
      by (by rewrite Hplist).
    apply plist_not_nil in Hne' as (e0 & He0 & [l Hl]).
    exists (set_df e0). rewrite lookup_fmap, He0. split; [done|].
    cbn [postings set_df].
    by rewrite <- Hplist, (plist_lookup _ _ _ _ _ He0 Hl).
Qed.

(** ** What the JSON round trip reproduces *)

Lemma dumps_postings_Some m s v :
  int_keys m →
  Json.dumps_postings m !! s = Some v ↔ ∃ n, s = pretty n ∧ m !! KInt n = Some v.
Proof.
  intros Hint. unfold Json.dumps_postings.
  rewrite <- elem_of_list_to_map', list_elem_of_fmap.
  - split.
    + intros ([k v'] & [= -> ->] & Hin%elem_of_map_to_list).
      destruct (Hint k) as [n ->]; [done|]. by exists n.
    + intros (n & -> & Hn). exists (KInt n, v). split; [done|].
      by apply elem_of_map_to_list.
  - intros v'. rewrite !list_elem_of_fmap.
    intros ([k1 v1] & [= -> ->] & Hin1%elem_of_map_to_list).
    intros ([k2 v2] & [= Hk ->] & Hin2%elem_of_map_to_list).
    destruct (Hint k1) as [n1 ->]; [done|].
    destruct (Hint k2) as [n2 ->]; [done|].
    cbn in Hk. apply (inj pretty) in Hk as ->. congruence.
Qed.

(** A postings dictionary saved and loaded: the same lists, under the
    decimal strings of the document ids. *)
Lemma roundtrip_postings_Some m k v :
  int_keys m →
  Json.loads_postings (Json.dumps_postings m) !! k = Some v ↔
    ∃ n, k = KStr (pretty n) ∧ m !! KInt n = Some v.
Proof.
  intros Hint. unfold Json.loads_postings.
  rewrite lookup_kmap_Some by apply _.
  split.
  - intros (s & -> & (n & -> & Hn)%dumps_postings_Some); [|done]. by exists n.
  - intros (n & -> & Hn). exists (pretty n). split; [done|].
    apply dumps_postings_Some; [done|]. by exists n.
Qed.

Lemma int_keys_insert n v m : int_keys (<[KInt n := v]> m) → int_keys m.
Proof.
  intros Hint k [l Hk]. apply Hint. destruct (decide (k = KInt n)) as [->|].
  - by rewrite lookup_insert_eq.
  - by rewrite lookup_insert_ne.
Qed.

Lemma roundtrip_postings_insert n v m :
  int_keys m →
  Json.loads_postings (Json.dumps_postings (<[KInt n := v]> m)) =
    <[KStr (pretty n) := v]> (Json.loads_postings (Json.dumps_postings m)).
Proof.
  intros Hint.
  assert (int_keys (<[KInt n := v]> m)) as Hint'.
  { intros k [l Hk]. destruct (decide (k = KInt n)) as [->|Hne]; [by exists n|].
    rewrite lookup_insert_ne in Hk by done. by apply Hint. }
  apply map_eq. intros k. apply option_eq. intros l.
  rewrite roundtrip_postings_Some by done.
  destruct (decide (k = KStr (pretty n))) as [->|Hne].
  - rewrite lookup_insert_eq. split.
    + intros (n' & [= ->%(inj pretty)] & Hn'). by rewrite lookup_insert_eq in Hn'.
    + intros [= ->]. exists n. by rewrite lookup_insert_eq.
  - rewrite lookup_insert_ne by done. rewrite roundtrip_postings_Some by done.
    split; intros (n' & -> & Hn'); exists n'; (split; [done|]).
    + rewrite lookup_insert_ne in Hn' by congruence. done.
    + rewrite lookup_insert_ne by congruence. done.
Qed.

Lemma roundtrip_postings_cf m :
  int_keys m →
  cf {| df := 0; postings := Json.loads_postings (Json.dumps_postings m) |}
    = cf {| df := 0; postings := m |}.
Proof.
  unfold cf. cbn [postings]. induction m as [|k v m Hk IH] using map_ind.
  - intros _. reflexivity.
  - intros Hint. destruct (Hint k) as [n ->]; [by rewrite lookup_insert_eq|].
    apply int_keys_insert in Hint.
    rewrite roundtrip_postings_insert by done.
    rewrite !map_fold_insert_L; [by rewrite IH|intros; lia|done|intros; lia|].
    apply eq_None_not_Some. intros [l (n' & [= ->%(inj pretty)] & Hn')%roundtrip_postings_Some];
      [congruence|done].
Qed.

(** X2. What the builder stores: under a term, the key [d] holds exactly
    the positions at which the term occurs among the tokens of document
    [d], and a key is there only for a document in which the term occurs.
    Keys are the [int] ids 0 ... num_docs − 1. *)
Theorem build_inverted_index_postings docs kw t k l :
  (∃ e, index (build_inverted_index docs kw) !! t = Some e ∧
        postings e !! k = Some l) ↔
  (∃ d text, k = KInt d ∧ 0 ≤ d < num_docs (build_inverted_index docs kw) ∧
     docs !! Z.to_nat d = Some text ∧
     l = occurrences 0 t (tokenize text kw) ∧ l ≠ []).
Proof. apply built_postings_iff. Qed.

Lemma build_inverted_index_entry_key docs kw t e :
  index (build_inverted_index docs kw) !! t = Some e →
  ∃ k l, postings e !! k = Some l.
Proof.
  unfold build_inverted_index. cbn [index]. rewrite lookup_fmap.
  destruct (index_docs kw 0 docs ∅ !! t) as [e0|] eqn:He0; [|done].
  intros [= <-]. cbn [postings set_df].
  assert (proper (∅ : gmap string entry)) as Hnil by (by intros ??).
  destruct (proper_index_docs kw 0 docs ∅ Hnil t e0 He0) as [[k [l Hk]] _].
  eauto.
Qed.

Lemma build_inverted_index_int_keys docs kw t e :
  index (build_inverted_index docs kw) !! t = Some e → int_keys (postings e).
Proof.
  intros He k [l Hk].
  destruct (proj1 (built_postings_iff docs kw t k l)) as (d & _ & -> & _);
    [by exists e|by exists d].
Qed.

(** X3. For every built index, the round trip through JSON reproduces
    [num_docs], the terms, and for every term its df, its cf and its
    position lists; each list comes back under the decimal string of its
    document id, and no [int] key comes back. An index that holds a term
    is therefore not reproduced. *)
Theorem json_roundtrip_built docs kw :
  let idx := build_inverted_index docs kw in
  let idx' := Json.roundtrip idx in
  num_docs idx' = num_docs idx ∧
  dom (index idx') = dom (index idx) ∧
  (∀ t e, index idx !! t = Some e →
     ∃ e', index idx' !! t = Some e' ∧ df e' = df e ∧ cf e' = cf e ∧
       ∀ k l, postings e' !! k = Some l ↔
              ∃ n, k = KStr (pretty n) ∧ postings e !! KInt n = Some l) ∧
  (index idx ≠ ∅ → idx' ≠ idx).
Proof.
  cbn zeta. set (idx := build_inverted_index docs kw).
  assert (∀ t e, index idx !! t = Some e →
     ∃ e', index (Json.roundtrip idx) !! t = Some e' ∧ df e' = df e ∧ cf e' = cf e ∧
       ∀ k l, postings e' !! k = Some l ↔
              ∃ n, k = KStr (pretty n) ∧ postings e !! KInt n = Some l) as Hterm.
  { intros t e He. exists (Json.loads_entry (Json.dumps_entry e)).
    pose proof (build_inverted_index_int_keys docs kw t e He) as Hint.
    split; [|split; [done|split]].
    - unfold Json.roundtrip, Json.loads, Json.dumps. cbn [index Json.j_index].
      by rewrite !lookup_fmap, He.
    - apply (roundtrip_postings_cf (postings e) Hint).
    - intros k l. by apply roundtrip_postings_Some. }
  split; [done|]. split; [|split; [done|]].
  - unfold Json.roundtrip, Json.loads, Json.dumps. cbn [index Json.j_index].
    by rewrite !dom_fmap_L.
  - intros Hne Heq.
    destruct (map_choose (index idx)) as (t & e & He); [done|].
    destruct (Hterm t e He) as (e' & He' & _ & _ & Hkeys).
    rewrite Heq, He in He'. injection He' as <-.
    destruct (build_inverted_index_entry_key docs kw t e He) as (k & l & Hk).
    apply Hkeys in Hk as Hk'. destruct Hk' as (n & -> & Hn).
    destruct (build_inverted_index_int_keys docs kw t e He (KStr (pretty n)))
      as [n' [=]]. by exists l.
Qed.

(** ** The last guard of [boolean_search] *)

Lemma is_operator_spec op :
  is_operator op = true ↔ op = "AND" ∨ op = "OR" ∨ op = "NOT".
Proof.
  unfold is_operator. rewrite bool_decide_eq_true, !elem_of_cons, elem_of_nil.
  tauto.
Qed.

(** Whatever an operator is applied to, it leaves an operand. *)
Lemma apply_operator_not_nil idx op out out' :
  is_operator op = true → apply_operator idx op out = Return out' → out' ≠ [].
Proof.
  intros [-> | [-> | ->]]%is_operator_spec;
    destruct out as [|b [|a out]]; cbn; intros [= <-]; done.
Qed.

Lemma reduce_while_operators idx p out ops st :
  Forall (λ op, is_operator op = true) ops →
  reduce_while idx p out ops = Return st →
  Forall (λ op, is_operator op = true) st.2.
Proof.
  intros Hops. revert out. induction Hops as [|op ops Hop Hops IH]; intros out.
  - cbn. by intros [= <-].
  - cbn [reduce_while]. destruct (decide (p ≤ default 0 (prec !! op))).
    + destruct (apply_operator idx op out) as [out1|]; [|done]. apply IH.
    + intros [= <-]. by constructor.
Qed.

Lemma eval_token_stacks idx st tok st' :
  Forall (λ op, is_operator op = true) st.2 →
  eval_token idx st tok = Return st' →
  Forall (λ op, is_operator op = true) st'.2 ∧ (st'.1 ≠ [] ∨ st'.2 ≠ []).
Proof.
  intros Hops. unfold eval_token. destruct (is_operator tok) eqn:Htok.
  - destruct (prec !! tok) as [p|]; [|done].
    destruct (reduce_while idx p st.1 st.2) as [[out ops]|] eqn:Hred; [|done].
    cbn. intros [= <-]. cbn. split; [|by right].
    constructor; [done|]. by apply (reduce_while_operators _ _ _ _ _ Hops Hred).
  - intros [= <-]. cbn. split; [done|by left].
Qed.

Lemma eval_tokens_stacks idx toks st st' :
  toks ≠ [] →
  Forall (λ op, is_operator op = true) st.2 →
  eval_tokens idx toks st = Return st' →
  Forall (λ op, is_operator op = true) st'.2 ∧ (st'.1 ≠ [] ∨ st'.2 ≠ []).
Proof.
  revert st. induction toks as [|tok toks IH]; intros st Hne Hops; [done|].
  cbn [eval_tokens]. destruct (eval_token idx st tok) as [st1|] eqn:Htok; [|done].
  destruct (eval_token_stacks _ _ _ _ Hops Htok) as [Hops1 Hst1].
  rewrite bind_Return. destruct toks as [|tok' toks].
  - cbn. by intros [= <-].
  - by apply IH.
Qed.

Lemma reduce_all_not_nil idx out ops out' :
  Forall (λ op, is_operator op = true) ops →
  out ≠ [] ∨ ops ≠ [] →
  reduce_all idx out ops = Return out' → out' ≠ [].
Proof.
  intros Hops. revert out. induction Hops as [|op ops Hop Hops IH]; intros out.
  - cbn. intros [?|?] [= <-]; done.
  - intros _. cbn [reduce_all].
    destruct (apply_operator idx op out) as [out1|] eqn:Hop1; [|done].
    rewrite bind_Return. apply IH. left.
    by apply (apply_operator_not_nil _ _ _ _ Hop Hop1).
Qed.

(** X4. When a query has a token and its evaluation does not raise, the
    operand stack is not empty at the end: the branch [else set()] of the
    last line of [boolean_search] is never taken. *)
Theorem boolean_search_operand_left idx toks st out :
  toks ≠ [] →
  eval_tokens idx toks ([], []) = Return st →
  reduce_all idx st.1 st.2 = Return out →
  out ≠ [].
Proof.
  intros Hne Hst Hout.
  destruct (eval_tokens_stacks idx toks ([], []) st Hne) as [Hops Hor];
    [constructor|done|].
  by apply (reduce_all_not_nil idx st.1 st.2 out).
Qed.

Lemma boolean_search_operand_left_witness :
  [term_docs scenario_index "cat"] ≠ [].
Proof.
  apply (boolean_search_operand_left scenario_index ["cat"]
           ([term_docs scenario_index "cat"], [])).
  - discriminate.
  - reflexivity.
  - reflexivity.
Defined.

(** ** Phrase search never raises *)

Lemma phrase_search_returns idx phrase :
  ∃ R, phrase_search phrase idx = Return R.
Proof.
  destruct (Py.split phrase) as [|w0 rest] eqn:Hsplit.
  - exists ∅. unfold phrase_search. by rewrite Hsplit.
  - destruct (phrase_search_within idx phrase w0 rest Hsplit) as (R & HR & _).
    by exists R.
Qed.

(** X5. On every index and for every phrase, [phrase_search] returns a
    set: none of its subscriptions raises [KeyError]. *)
Theorem phrase_search_total idx phrase :
  ∃ R, phrase_search phrase idx = Return R.
Proof. apply phrase_search_returns. Qed.

(** ** What phrase search finds *)

Lemma elem_of_shifted p i l : p ∈ shifted i l ↔ p + i ∈ l.
Proof.
  unfold shifted. rewrite elem_of_list_to_set, list_elem_of_fmap. split.
  - intros (q & -> & Hq). by replace (q - i + i) with q by lia.
  - intros Hp. exists (p + i). split; [lia|done].
Qed.

Lemma elem_of_intersection_all p first sets :
  p ∈ intersection_all first sets ↔ p ∈ first ∧ Forall (λ s, p ∈ s) sets.
Proof.
  revert first. induction sets as [|s sets IH]; intros first.
  - cbn. split; [by intros ?; split|by intros [? _]].
  - cbn [intersection_all]. rewrite IH, elem_of_intersection, Forall_cons. tauto.
Qed.

Lemma shifted_from_Forall p i lists :
  Forall (λ s, p ∈ s) (shifted_from i lists) ↔
  ∀ (j : nat) l, lists !! j = Some l → p + (i + Z.of_nat j) ∈ l.
Proof.
  revert i. induction lists as [|l0 lists IH]; intros i.
  - cbn. split; [by intros _ j l ?|constructor].
  - cbn [shifted_from]. rewrite Forall_cons, IH, elem_of_shifted. split.
    + intros [H0 Hrest] [|j] l Hl.
      * injection Hl as <-. by replace (p + (i + Z.of_nat 0)) with (p + i) by lia.
      * replace (p + (i + Z.of_nat (S j))) with (p + (i + 1 + Z.of_nat j)) by lia.
        by apply Hrest.
    + intros Hall. split.
      * replace (p + i) with (p + (i + Z.of_nat 0)) by lia. by apply (Hall 0%nat).
      * intros j l Hl.
        replace (p + (i + 1 + Z.of_nat j)) with (p + (i + Z.of_nat (S j))) by lia.
        by apply (Hall (S j)).
Qed.

(** The adjacency test: some position [p] is such that the list of the
    [j]-th word holds [p + j], for every word of the phrase. *)
Lemma adjacent_spec lists :
  adjacent lists = true ↔
  lists ≠ [] ∧ ∃ p, ∀ (j : nat) l, lists !! j = Some l → p + Z.of_nat j ∈ l.
Proof.
  unfold adjacent. destruct lists as [|first rest]; [by split; [|intros [? _]]|].
  cbn [shifted_sets]. rewrite bool_decide_eq_true.
  assert (∀ p, p ∈ intersection_all (list_to_set first) (shifted_from 1 rest) ↔
               ∀ (j : nat) l, (first :: rest) !! j = Some l → p + Z.of_nat j ∈ l)
    as Hmem.
  { intros p. rewrite elem_of_intersection_all, shifted_from_Forall,
      elem_of_list_to_set. split.
    - intros [H0 Hrest] [|j] l Hl.
      + injection Hl as <-. by replace (p + Z.of_nat 0) with p by lia.
      + replace (p + Z.of_nat (S j)) with (p + (1 + Z.of_nat j)) by lia.
        by apply Hrest.
    - intros Hall. split.
      + replace p with (p + Z.of_nat 0) by lia. by apply (Hall 0%nat).
      + intros j l Hl.
        replace (p + (1 + Z.of_nat j)) with (p + Z.of_nat (S j)) by lia.
        by apply (Hall (S j)). }
  split.
  - intros [p Hp]%set_choose_L. split; [done|]. exists p. by apply Hmem.
  - intros [_ [p Hp]] Hempty. apply Hmem in Hp. rewrite Hempty in Hp.
    by apply elem_of_empty in Hp.
Qed.

Lemma positions_lists_spec idx d words lists :
  positions_lists idx d words = Return lists ↔
  Forall2 (λ w l, ∃ e, index idx !! w = Some e ∧ postings e !! d = Some l)
    words lists.
Proof.
  revert lists. induction words as [|w words IH]; intros lists.
  - cbn. split; [intros [= <-]; constructor|by intros ->%Forall2_nil_inv_l].
  - cbn [positions_lists]. unfold positions_of. split.
    + destruct (index idx !! w) as [e|] eqn:He; [|done].
      destruct (postings e !! d) as [l|] eqn:Hl; [|done].
      rewrite bind_Return.
      destruct (positions_lists idx d words) as [rest|] eqn:Hrest; [|done].
      rewrite bind_Return. intros [= <-]. constructor; [by exists e|].
      by apply IH.
    + intros (l & rest & (e & -> & ->) & Hrest%IH & ->)%Forall2_cons_inv_l.
      by rewrite bind_Return, Hrest.
Qed.

Lemma match_docs_spec idx words ds res R :
  match_docs idx words ds res = Return R →
  ∀ k, k ∈ R ↔
    k ∈ res ∨ (k ∈ ds ∧ ∃ lists, positions_lists idx k words = Return lists ∧
                                 adjacent lists = true).
Proof.
  revert res. induction ds as [|d ds IH]; intros res.
  - cbn. intros [= <-] k. split; [by left|].
    by intros [?|[?%elem_of_nil _]].
  - cbn [match_docs].
    destruct (positions_lists idx d words) as [lists|] eqn:Hlists; [|done].
    rewrite bind_Return. intros HR k. rewrite (IH _ HR k), elem_of_cons.
    assert (k ∈ (if adjacent lists then {[d]} ∪ res else res) ↔
            k ∈ res ∨ (k = d ∧ adjacent lists = true)) as ->.
    { destruct (adjacent lists).
      - rewrite elem_of_union, elem_of_singleton. tauto.
      - split; [tauto|]. by intros [?|[_ ?]]. }
    split.
    + intros [[?|[-> Hadj]]|[? ?]]; [by left| |right; tauto].
      right. split; [by left|]. by exists lists.
    + intros [?|[[->|?] (lists' & Hl & Hadj)]]; [tauto| |].
      * left. right. split; [done|]. congruence.
      * right. split; [done|]. by exists lists'.
Qed.

Lemma docs_of_all_empty idx ws : docs_of_all idx ∅ ws = ∅.
Proof.
  apply set_eq. intros d. rewrite elem_of_docs_of_all.
  split; [by intros [? _]|by intros ?%elem_of_empty].
Qed.

Lemma narrow_candidates_None idx ws cand :
  narrow_candidates idx ws cand = None → docs_of_all idx cand ws = ∅.
Proof.
  unfold docs_of_all. revert cand. induction ws as [|w ws IH]; intros cand; [done|].
  cbn [narrow_candidates foldl]. unfold term_docs.
  destruct (index idx !! w) as [e|].
  - destruct (decide (cand ∩ dom (postings e) = ∅)) as [->|]; [|apply IH].
    intros _. apply docs_of_all_empty.
  - intros _. replace (cand ∩ ∅) with (∅ : gset dockey); [apply docs_of_all_empty|].
    apply set_eq. intros d. rewrite elem_of_intersection.
    split; [by intros ?%elem_of_empty|by intros [_ ?]].
Qed.

(** On any index: a document is returned iff it holds every word and the
    position lists of the words pass the adjacency test. *)
Theorem phrase_search_spec idx phrase R :
  phrase_search phrase idx = Return R →
  ∀ k, k ∈ R ↔
    Py.split phrase ≠ [] ∧
    ∃ lists, positions_lists idx k (Py.split phrase) = Return lists ∧
             adjacent lists = true.
Proof.
  unfold phrase_search. destruct (Py.split phrase) as [|w0 rest] eqn:Hsplit.
  { intros [= <-] k. split; [by intros ?%elem_of_empty|by intros [? _]]. }
  assert (∀ k lists, positions_lists idx k (w0 :: rest) = Return lists →
            k ∈ docs_of_all idx (term_docs idx w0) rest) as Hall.
  { intros k lists Hl%positions_lists_spec. apply elem_of_docs_of_all.
    assert (∀ w, w ∈ w0 :: rest → k ∈ term_docs idx w) as Hw.
    { intros w (j & Hj)%list_elem_of_lookup.
      destruct (Forall2_lookup_l _ _ _ _ _ Hl Hj) as (l & _ & e & He & Hk).
      apply elem_of_term_docs. by exists e. }
    split; [apply Hw; by left|]. intros w ?. apply Hw. by right. }
  destruct (index idx !! w0) as [first|] eqn:Hfirst.
  - destruct (narrow_candidates idx rest (dom (postings first))) as [c|] eqn:Hc.
    + apply narrow_candidates_Some in Hc. intros HR k.
      rewrite (match_docs_spec _ _ _ _ _ HR k), elem_of_elements. split.
      * intros [?%elem_of_empty|[_ ?]]; [done|]. by split.
      * intros [_ (lists & Hl & Hadj)]. right. split; [|by exists lists].
        rewrite Hc. replace (dom (postings first)) with (term_docs idx w0)
          by (unfold term_docs; by rewrite Hfirst).
        by apply (Hall k lists).
    + apply narrow_candidates_None in Hc. intros [= <-] k.
      split; [by intros ?%elem_of_empty|]. intros [_ (lists & Hl & _)].
      apply Hall in Hl. unfold term_docs in Hl. rewrite Hfirst, Hc in Hl.
      by apply elem_of_empty in Hl.
  - intros [= <-] k. split; [by intros ?%elem_of_empty|].
    intros [_ (lists & Hl & _)]. apply Hall, elem_of_docs_of_all in Hl as [Hl _].
    unfold term_docs in Hl. rewrite Hfirst in Hl. by apply elem_of_empty in Hl.
Qed.

(** X6. On a built index phrase search finds exactly the documents in which
    the words of the phrase stand at consecutive positions, in phrase
    order: document [d] is returned iff for some position [p] the token at
    [p + j] of the document is the [j]-th word, for every word. *)
Theorem phrase_search_built docs kw ws :
  ws ≠ [] → Forall (λ w, is_token w = true) ws →
  ∃ R,
    phrase_search (Py.join " " ws) (build_inverted_index docs kw) = Return R ∧
    ∀ k, k ∈ R ↔
      ∃ (d p : nat) text,
        k = KInt (Z.of_nat d) ∧ docs !! d = Some text ∧
        ∀ (j : nat) w, ws !! j = Some w → tokenize text kw !! (p + j)%nat = Some w.
Proof.
  intros Hne Hws. set (idx := build_inverted_index docs kw).
  destruct (phrase_search_returns idx (Py.join " " ws)) as [R HR].
  exists R. split; [done|]. intros k.
  rewrite (phrase_search_spec _ _ _ HR k), split_join by done.
  assert (∀ w l d, (∃ e, index idx !! w = Some e ∧ postings e !! KInt d = Some l) ↔
            0 ≤ d ∧ ∃ text, docs !! Z.to_nat d = Some text ∧
              l = occurrences 0 w (tokenize text kw) ∧ l ≠ []) as Hpost.
  { intros w l d. unfold idx. rewrite built_postings_iff. split.
    - intros (d' & text & [= <-] & [? _] & ? & ? & ?). split; [done|]. by exists text.
    - intros [Hd (text & Htext & ? & ?)]. exists d, text.
      pose proof (lookup_lt_Some _ _ _ Htext).
      repeat split; [done|unfold build_inverted_index; cbn [num_docs]; lia|done..]. }
  split.
  - intros [_ (lists & Hl%positions_lists_spec & [_ [p Hp]]%adjacent_spec)].
    destruct ws as [|w0 ws']; [done|].
    destruct (Forall2_lookup_l _ _ _ 0%nat w0 Hl eq_refl) as (l0 & Hl0 & e0 & He0 & Hk0).
    destruct (proj1 (built_postings_iff docs kw w0 k l0)) as
      (d & text & -> & [Hd _] & Htext & -> & _); [by exists e0|].
    assert (0 ≤ p) as Hp0.
    { specialize (Hp 0%nat _ Hl0). apply elem_of_occurrences in Hp. lia. }
    exists (Z.to_nat d), (Z.to_nat p), text.
    split; [by rewrite Z2Nat.id|]. split; [done|].
    intros j w Hj.
    destruct (Forall2_lookup_l _ _ _ j w Hl Hj) as (l & Hlj & Hex).
    apply Hpost in Hex as [_ (text' & Htext' & -> & _)].
    rewrite Htext in Htext'. injection Htext' as <-.
    specialize (Hp j _ Hlj). apply elem_of_occurrences in Hp as [_ Hp].
    by replace (Z.to_nat (p + Z.of_nat j - 0)) with (Z.to_nat p + j)%nat in Hp by lia.
  - intros (d & p & text & -> & Htext & Hadj). split; [done|].
    exists ((λ w, occurrences 0 w (tokenize text kw)) <$> ws).
    assert (∀ (j : nat) w, ws !! j = Some w →
              Z.of_nat p + Z.of_nat j ∈ occurrences 0 w (tokenize text kw)) as Hocc.
    { intros j w Hj. apply elem_of_occurrences. split; [lia|].
      replace (Z.to_nat (Z.of_nat p + Z.of_nat j - 0)) with (p + j)%nat by lia.
      by apply Hadj. }
    split.
    + apply positions_lists_spec, Forall2_fmap_r, Forall2_same_length_lookup_2; [done|].
      intros j w w' Hj Hj'. rewrite Hj in Hj'. injection Hj' as <-.
      apply Hpost. split; [lia|]. exists text. rewrite Nat2Z.id.
      split; [done|]. split; [done|].
      intros Hnil. specialize (Hocc j w Hj). rewrite Hnil in Hocc.
      by apply elem_of_nil in Hocc.
    + apply adjacent_spec. split; [by destruct ws|].
      exists (Z.of_nat p). intros j l Hj. rewrite list_lookup_fmap in Hj.
      destruct (ws !! j) as [w|] eqn:Hw; [|done]. injection Hj as <-.
      by apply Hocc.
Qed.

Lemma phrase_search_built_witness :
  ∃ R,
    phrase_search "cat sat" (build_inverted_index scenario_corpus tokkw_default)
      = Return R ∧
    ∀ k, k ∈ R ↔
      ∃ (d p : nat) text,
        k = KInt (Z.of_nat d) ∧ scenario_corpus !! d = Some text ∧
        ∀ (j : nat) w, ["cat"; "sat"] !! j = Some w →
                       tokenize text tokkw_default !! (p + j)%nat = Some w.
Proof.
  apply (phrase_search_built scenario_corpus tokkw_default ["cat"; "sat"]).
  - discriminate.
  - repeat constructor.
Defined.

(** ** Queries made of operators only *)

Lemma apply_operator_nil idx op : apply_operator idx op [] = Raise IndexError.
Proof. unfold apply_operator. by destruct (decide (op = "NOT")). Qed.

Lemma prec_operator op : is_operator op = true → is_Some (prec !! op).
Proof. by intros [-> | [-> | ->]]%is_operator_spec. Qed.

Lemma reduce_while_no_operand idx p ops :
  reduce_while idx p [] ops = Raise IndexError ∨
  ∃ ops', reduce_while idx p [] ops = Return ([], ops').
Proof.
  destruct ops as [|op ops]; [right; by exists []|].
  cbn [reduce_while]. destruct (decide (p ≤ default 0 (prec !! op))).
  - left. by rewrite apply_operator_nil.
  - right. by eexists.
Qed.

(** With operators only, the operand stack stays empty until an operator
    is applied, and then [list.pop] raises. *)
Lemma eval_tokens_operators idx toks ops :
  Forall (λ w, is_operator w = true) toks →
  eval_tokens idx toks ([], ops) = Raise IndexError ∨
  ∃ ops', eval_tokens idx toks ([], ops) = Return ([], ops') ∧
          (toks ≠ [] → ops' ≠ []).
Proof.
  intros Htoks. revert ops. induction Htoks as [|tok toks Htok _ IH]; intros ops.
  - right. by exists ops.
  - rewrite eval_tokens_cons. unfold eval_token. rewrite Htok.
    destruct (prec_operator tok Htok) as [p ->]. cbn [fst snd].
    destruct (reduce_while_no_operand idx p ops) as [->|[ops' ->]]; [by left|].
    cbn. destruct (IH (tok :: ops')) as [->|(ops'' & Heq & Hne)]; [by left|].
    right. exists ops''. split; [done|]. intros _.
    destruct toks; [|by apply Hne]. cbn in Heq. by injection Heq as <-.
Qed.

(** X10. For every index, a query that holds at least one token and whose
    tokens are all operators raises [IndexError]. *)
Theorem boolean_search_operators_only idx query :
  Py.split query ≠ [] →
  Forall (λ w, is_operator w = true) (Py.split query) →
  boolean_search query idx = Raise IndexError.
Proof.
  intros Hne Hops. rewrite (boolean_search_tokens idx query (Py.split query)) by done.
  destruct (eval_tokens_operators idx (Py.split query) [] Hops)
    as [->|(ops & -> & Hops')]; [done|].
  rewrite bind_Return. cbn [fst snd]. destruct ops as [|op ops]; [by destruct Hops'|].
  cbn [reduce_all]. by rewrite apply_operator_nil.
Qed.

Lemma boolean_search_operators_only_witness :
  boolean_search "NOT AND OR" scenario_index = Raise IndexError.
Proof.
  apply (boolean_search_operators_only scenario_index "NOT AND OR").
  - discriminate.
  - repeat constructor.
Defined.

(** ** Boolean search on well-formed queries *)

Lemma eval_tokens_app idx toks1 toks2 st :
  eval_tokens idx (toks1 ++ toks2) st =
    bind (eval_tokens idx toks1 st) (eval_tokens idx toks2).
Proof.
  revert st. induction toks1 as [|tok toks1 IH]; intros st; [done|].
  cbn [app eval_tokens]. destruct (eval_token idx st tok) as [st'|]; [|done].
  rewrite !bind_Return. apply IH.
Qed.

(** Reading a literal on top of what waits: the term is pushed, and the
    [NOT] of a negative literal waits above [AND] and [OR]. *)
Lemma eval_literal idx o a l :
  is_term (literal_term l) = true →
  eval_tokens idx (literal_tokens l) (under o a) =
    Return (term_docs idx (literal_term l) :: (under o a).1,
            (if l is Neg _ then ["NOT"] else []) ++ (under o a).2).
Proof.
  intros [_ Hop]%is_term_spec. destruct l as [t|t]; cbn [literal_tokens literal_term] in *.
  - by repeat eval_step.
  - destruct o, a; unfold under; cbn [option_list app fst snd];
      by repeat eval_step.
Qed.

(** [AND] after a literal: the literal is negated if it has to be, joined
    to the conjuncts before it, and waits for the next conjunct. *)
Lemma eval_AND idx o a l :
  eval_token idx
    (term_docs idx (literal_term l) :: (under o a).1,
     (if l is Neg _ then ["NOT"] else []) ++ (under o a).2) "AND" =
  Return (under o (Some (and_onto a (literal_docs idx l)))).
Proof.
  destruct l as [t|t], o, a; unfold under;
    cbn [option_list app fst snd literal_term literal_docs and_onto];
    by repeat eval_step.
Qed.

(** [OR] after a literal: everything that waits is applied. *)
Lemma eval_OR idx o a l :
  eval_token idx
    (term_docs idx (literal_term l) :: (under o a).1,
     (if l is Neg _ then ["NOT"] else []) ++ (under o a).2) "OR" =
  Return (under (Some (or_onto o (and_onto a (literal_docs idx l)))) None).
Proof.
  destruct l as [t|t], o, a; unfold under;
    cbn [option_list app fst snd literal_term literal_docs and_onto or_onto];
    by repeat eval_step.
Qed.

(** The end of the query after a literal. *)
Lemma finish_literal idx o a l :
  finish idx
    (term_docs idx (literal_term l) :: (under o a).1,
     (if l is Neg _ then ["NOT"] else []) ++ (under o a).2) =
  Return (or_onto o (and_onto a (literal_docs idx l))).
Proof.
  unfold finish.
  destruct l as [t|t], o, a; unfold under;
    cbn [option_list app fst snd literal_term literal_docs and_onto or_onto
         reduce_all];
    by repeat eval_step.
Qed.

Lemma conj_tokens_cons l l' c :
  conj_tokens (l :: l' :: c) = literal_tokens l ++ "AND" :: conj_tokens (l' :: c).
Proof. done. Qed.

Lemma query_tokens_cons c c' q :
  query_tokens (c :: c' :: q) = conj_tokens c ++ "OR" :: query_tokens (c' :: q).
Proof. done. Qed.

(** A conjunction followed by [OR]: its value joins the disjuncts. *)
Lemma eval_conj_or idx o a c rest :
  c ≠ [] → Forall (λ l, is_term (literal_term l) = true) c →
  eval_tokens idx (conj_tokens c ++ "OR" :: rest) (under o a) =
    eval_tokens idx rest (under (Some (or_onto o (conj_onto idx a c))) None).
Proof.
  intros Hne Hc. revert a. induction Hc as [|l c Hl Hc IH]; intros a; [done|].
  destruct c as [|l' c].
  - cbn [conj_tokens]. rewrite eval_tokens_app, eval_literal, bind_Return by done.
    by rewrite eval_tokens_cons, eval_OR, bind_Return.
  - rewrite conj_tokens_cons, <- app_assoc, eval_tokens_app, eval_literal,
      bind_Return by done.
    cbn [app]. rewrite eval_tokens_cons, eval_AND, bind_Return.
    by rewrite IH.
Qed.

(** A conjunction that ends the query. *)
Lemma eval_conj_end idx o a c :
  c ≠ [] → Forall (λ l, is_term (literal_term l) = true) c →
  bind (eval_tokens idx (conj_tokens c) (under o a)) (finish idx) =
    Return (or_onto o (conj_onto idx a c)).
Proof.
  intros Hne Hc. revert a. induction Hc as [|l c Hl Hc IH]; intros a; [done|].
  destruct c as [|l' c].
  - cbn [conj_tokens]. rewrite eval_literal, bind_Return by done.
    by rewrite finish_literal.
  - rewrite conj_tokens_cons, eval_tokens_app, eval_literal, bind_Return by done.
    rewrite eval_tokens_cons, eval_AND, bind_Return. by rewrite IH.
Qed.

Lemma eval_query idx o q :
  well_formed q →
  bind (eval_tokens idx (query_tokens q) (under o None)) (finish idx) =
    Return (query_onto idx o q).
Proof.
  intros [Hne Hq]. revert o. induction Hq as [|c q [Hc Hterms] Hq IH]; intros o; [done|].
  destruct q as [|c' q].
  - cbn [query_tokens]. by rewrite eval_conj_end.
  - rewrite query_tokens_cons, eval_conj_or by done. by rewrite IH.
Qed.

Lemma conj_onto_foldl idx x c :
  conj_onto idx (Some x) c = foldl (λ s l, s ∩ literal_docs idx l) x c.
Proof. revert x. induction c as [|l c IH]; intros x; [done|]. cbn. apply IH. Qed.

Lemma conj_onto_docs idx c : c ≠ [] → conj_onto idx None c = conj_docs idx c.
Proof. destruct c as [|l c]; [done|]. intros _. cbn. apply conj_onto_foldl. Qed.

Lemma query_onto_foldl idx x q :
  Forall (λ c, c ≠ []) q →
  query_onto idx (Some x) q = foldl (λ s c, s ∪ conj_docs idx c) x q.
Proof.
  intros Hq. revert x. induction Hq as [|c q Hc Hq IH]; intros x; [done|].
  cbn. rewrite conj_onto_docs by done. apply IH.
Qed.

Lemma query_onto_docs idx q :
  q ≠ [] → Forall (λ c, c ≠ []) q → query_onto idx None q = query_docs idx q.
Proof.
  destruct q as [|c q]; [done|]. intros _ [Hc Hq]%Forall_cons. cbn.
  rewrite conj_onto_docs by done. by apply query_onto_foldl.
Qed.

Lemma literal_tokens_tokens l :
  is_term (literal_term l) = true →
  Forall (λ w, is_token w = true) (literal_tokens l).
Proof. intros [Ht _]%is_term_spec. destruct l; by repeat constructor. Qed.

Lemma conj_tokens_tokens c :
  Forall (λ l, is_term (literal_term l) = true) c →
  Forall (λ w, is_token w = true) (conj_tokens c).
Proof.
  induction 1 as [|l c Hl Hc IH]; [constructor|]. destruct c as [|l' c].
  - by apply literal_tokens_tokens.
  - rewrite conj_tokens_cons. apply Forall_app. split; [by apply literal_tokens_tokens|].
    by constructor.
Qed.

Lemma query_tokens_tokens q :
  Forall (λ c, c ≠ [] ∧ Forall (λ l, is_term (literal_term l) = true) c) q →
  Forall (λ w, is_token w = true) (query_tokens q).
Proof.
  induction 1 as [|c q [_ Hc] Hq IH]; [constructor|]. destruct q as [|c' q].
  - by apply conj_tokens_tokens.
  - rewrite query_tokens_cons. apply Forall_app. split; [by apply conj_tokens_tokens|].
    by constructor.
Qed.

Lemma query_tokens_not_nil q : well_formed q → query_tokens q ≠ [].
Proof.
  intros [Hne Hq]. destruct Hq as [|c q [Hc Hterms] Hq]; [done|].
  destruct c as [|l c]; [done|].
  assert (conj_tokens (l :: c) ≠ []) as Hconj.
  { destruct c; destruct l; done. }
  destruct q; [done|]. rewrite query_tokens_cons.
  by destruct (conj_tokens (l :: c)).
Qed.

(** X11. The evaluator is correct on well-formed queries: for every index
    and every disjunction of conjunctions of literals (a literal being a
    term or [NOT] and a term), [boolean_search] raises nothing and returns
    the union, over the disjuncts, of the intersection of their literals,
    a negative literal standing for the universe minus the documents of
    its term. *)
Theorem boolean_search_well_formed idx q :
  well_formed q →
  boolean_search (Py.join " " (query_tokens q)) idx = Return (query_docs idx q).
Proof.
  intros Hq. pose proof Hq as [Hne Hall].
  rewrite (boolean_search_tokens idx _ (query_tokens q)).
  - change (bind (eval_tokens idx (query_tokens q) (under None None)) (finish idx)
            = Return (query_docs idx q)).
    rewrite eval_query by done. f_equal. apply query_onto_docs; [done|].
    eapply Forall_impl; [exact Hall|]. by intros c [? _].
  - apply split_join. by apply query_tokens_tokens.
  - by apply query_tokens_not_nil.
Qed.

Lemma boolean_search_well_formed_witness :
  boolean_search "cat AND NOT dog OR sat AND dog" scenario_index =
    Return (query_docs scenario_index
              [[Pos "cat"; Neg "dog"]; [Pos "sat"; Pos "dog"]]).
Proof.
  apply (boolean_search_well_formed scenario_index
           [[Pos "cat"; Neg "dog"]; [Pos "sat"; Pos "dog"]]).
  split; [discriminate|]. repeat constructor; discriminate.
Defined.

Example well_formed_on_scenario :
  boolean_search "cat AND NOT dog OR sat AND dog" scenario_index
    = Return {[ KInt 0; KInt 1 ]}.
Proof. vm_compute. reflexivity. Qed.

(** ** Queries outside the grammar *)

(** X12. Double negation is not supported: for every index and all terms,
    "NOT NOT x" raises [IndexError] (the second [NOT] applies the first to
    an empty operand stack), and in "a AND NOT NOT x" the first [NOT]
    negates the operand before it, so that the query returns
    (universe − docs(a)) ∩ (universe − docs(x)). *)
Theorem boolean_search_double_negation idx a x :
  is_term a = true → is_term x = true →
  boolean_search ("NOT NOT " +:+ x) idx = Raise IndexError ∧
  boolean_search (a +:+ " AND NOT NOT " +:+ x) idx =
    Return ((universe idx ∖ term_docs idx a) ∩ (universe idx ∖ term_docs idx x)).
Proof.
  intros [Ha Ha']%is_term_spec [Hx Hx']%is_term_spec. split.
  - rewrite (boolean_search_tokens idx _ ["NOT"; "NOT"; x]).
    + repeat eval_step. by rewrite apply_operator_nil.
    + change ("NOT NOT " +:+ x) with (Py.join " " ["NOT"; "NOT"; x]).
      apply split_join. by repeat constructor.
    + done.
  - rewrite (boolean_search_tokens idx _ [a; "AND"; "NOT"; "NOT"; x]).
    + by repeat eval_step.
    + change (a +:+ " AND NOT NOT " +:+ x)
        with (Py.join " " [a; "AND"; "NOT"; "NOT"; x]).
      apply split_join. by repeat constructor.
    + done.
Qed.

Lemma boolean_search_double_negation_witness :
  boolean_search "NOT NOT cat" scenario_index = Raise IndexError ∧
  boolean_search "sat AND NOT NOT cat" scenario_index =
    Return ((universe scenario_index ∖ term_docs scenario_index "sat")
            ∩ (universe scenario_index ∖ term_docs scenario_index "cat")).
Proof.
  exact (boolean_search_double_negation scenario_index "sat" "cat"
           eq_refl eq_refl).
Defined.

(** X13. The query the help text of the application gives as its example,
    "a AND b NOT c", has no operator between "b" and "NOT c": for every
    index and all terms it returns docs(b) ∩ (universe − docs(c)); the
    documents of "a" play no part. *)
Theorem boolean_search_help_example idx a b c :
  is_term a = true → is_term b = true → is_term c = true →
  boolean_search (a +:+ " AND " +:+ b +:+ " NOT " +:+ c) idx =
    Return (term_docs idx b ∩ (universe idx ∖ term_docs idx c)).
Proof.
  intros [Ha Ha']%is_term_spec [Hb Hb']%is_term_spec [Hc Hc']%is_term_spec.
  rewrite (boolean_search_tokens idx _ [a; "AND"; b; "NOT"; c]).
  - by repeat eval_step.
  - change (a +:+ " AND " +:+ b +:+ " NOT " +:+ c)
      with (Py.join " " [a; "AND"; b; "NOT"; c]).
    apply split_join. by repeat constructor.
  - done.
Qed.

Lemma boolean_search_help_example_witness :
  boolean_search "nlp AND language NOT image" scenario_index =
    Return (term_docs scenario_index "language"
            ∩ (universe scenario_index ∖ term_docs scenario_index "image")).
Proof.
  exact (boolean_search_help_example scenario_index "nlp" "language" "image"
           eq_refl eq_refl eq_refl).
Defined.

(** ** Results are document ids *)

Lemma elem_of_universe idx k :
  k ∈ universe idx ↔ ∃ d, k = KInt d ∧ 0 ≤ d < num_docs idx.
Proof.
  unfold universe. rewrite elem_of_list_to_set, list_elem_of_fmap.
  setoid_rewrite elem_of_seqZ. split.
  - intros (d & -> & ?). exists d. split; [done|lia].
  - intros (d & -> & ?). exists d. split; [done|lia].
Qed.

Lemma build_inverted_index_ids_in_range docs kw :
  ids_in_range (build_inverted_index docs kw).
Proof.
  intros t k (e & He & [l Hl])%elem_of_term_docs. apply elem_of_universe.
  destruct (proj1 (built_postings_iff docs kw t k l)) as (d & _ & -> & Hd & _);
    [by exists e|]. by exists d.
Qed.

Lemma apply_operator_in_range idx op out out' :
  Forall (λ s, s ⊆ universe idx) out →
  apply_operator idx op out = Return out' →
  Forall (λ s, s ⊆ universe idx) out'.
Proof.
  intros Hout. unfold apply_operator. destruct (decide (op = "NOT")).
  - destruct Hout as [|x out Hx Hout]; [done|]. cbn. intros [= <-].
    constructor; [|done]. intros k [? _]%elem_of_difference. done.
  - destruct Hout as [|b out Hb Hout]; [done|].
    destruct Hout as [|x out Hx Hout]; [done|]. cbn.
    destruct (decide (op = "AND")); [|destruct (decide (op = "OR"))];
      intros [= <-]; [constructor; [|done]..|done].
    + intros k [? _]%elem_of_intersection. by apply Hx.
    + intros k [?|?]%elem_of_union; [by apply Hx|by apply Hb].
Qed.

Lemma reduce_while_in_range idx p out ops st :
  Forall (λ s, s ⊆ universe idx) out →
  reduce_while idx p out ops = Return st →
  Forall (λ s, s ⊆ universe idx) st.1.
Proof.
  revert out. induction ops as [|op ops IH]; intros out Hout.
  - cbn. by intros [= <-].
  - cbn [reduce_while]. destruct (decide (p ≤ default 0 (prec !! op))).
    + destruct (apply_operator idx op out) as [out1|] eqn:Hop; [|done].
      rewrite bind_Return. apply IH. by apply (apply_operator_in_range _ _ _ _ Hout Hop).
    + by intros [= <-].
Qed.

Lemma reduce_all_in_range idx out ops out' :
  Forall (λ s, s ⊆ universe idx) out →
  reduce_all idx out ops = Return out' →
  Forall (λ s, s ⊆ universe idx) out'.
Proof.
  revert out. induction ops as [|op ops IH]; intros out Hout.
  - cbn. by intros [= <-].
  - cbn [reduce_all]. destruct (apply_operator idx op out) as [out1|] eqn:Hop; [|done].
    rewrite bind_Return. apply IH. by apply (apply_operator_in_range _ _ _ _ Hout Hop).
Qed.

Lemma eval_tokens_in_range idx toks st st' :
  ids_in_range idx →
  Forall (λ s, s ⊆ universe idx) st.1 →
  eval_tokens idx toks st = Return st' →
  Forall (λ s, s ⊆ universe idx) st'.1.
Proof.
  intros Hidx. revert st. induction toks as [|tok toks IH]; intros st Hst.
  - cbn. by intros [= <-].
  - cbn [eval_tokens]. destruct (eval_token idx st tok) as [st1|] eqn:Htok; [|done].
    rewrite bind_Return. apply IH. unfold eval_token in Htok.
    destruct (is_operator tok).
    + destruct (prec !! tok) as [p|]; [|done].
      destruct (reduce_while idx p st.1 st.2) as [[out ops]|] eqn:Hred; [|done].
      cbn in Htok. injection Htok as <-. cbn.
      by apply (reduce_while_in_range _ _ _ _ _ Hst Hred).
    + injection Htok as <-. cbn. constructor; [apply Hidx|done].
Qed.

Lemma boolean_search_ids_in_range idx query R :
  ids_in_range idx → boolean_search query idx = Return R → R ⊆ universe idx.
Proof.
  intros Hidx. unfold boolean_search.
  destruct (decide (Py.split (Py.strip query) = [])).
  { intros [= <-] k ?%elem_of_empty. done. }
  destruct (eval_tokens idx _ ([], [])) as [[out ops]|] eqn:Heval; [|done].
  rewrite bind_Return.
  destruct (reduce_all idx out ops) as [out'|] eqn:Hall; [|done].
  rewrite bind_Return. intros [= <-].
  assert (Forall (λ s, s ⊆ universe idx) out') as Hout'.
  { apply (reduce_all_in_range idx out ops); [|done].
    by apply (eval_tokens_in_range idx _ ([], []) (out, ops) Hidx ltac:(constructor) Heval). }
  destruct Hout' as [|top out' Htop _]; [|done].
  by intros k ?%elem_of_empty.
Qed.

(** X14. The searches never return anything but document ids of the
    corpus: on every built index, whatever [boolean_search] returns for a
    query, and whatever [phrase_search] returns for a phrase, is a set of
    [int] ids [d] with 0 ≤ d < num_docs. *)
Theorem search_results_in_range docs kw :
  let idx := build_inverted_index docs kw in
  (∀ query R k, boolean_search query idx = Return R → k ∈ R →
     ∃ d, k = KInt d ∧ 0 ≤ d < Z.of_nat (length docs)) ∧
  (∀ phrase R k, phrase_search phrase idx = Return R → k ∈ R →
     ∃ d, k = KInt d ∧ 0 ≤ d < Z.of_nat (length docs)).
Proof.
  cbn zeta. pose proof (build_inverted_index_ids_in_range docs kw) as Hidx.
  split.
  - intros query R k HR Hk. apply (elem_of_universe (build_inverted_index docs kw)).
    by apply (boolean_search_ids_in_range _ query R).
  - intros phrase R k HR Hk.
    apply (elem_of_universe (build_inverted_index docs kw)).
    destruct (Py.split phrase) as [|w0 rest] eqn:Hsplit.
    + unfold phrase_search in HR. rewrite Hsplit in HR. injection HR as <-.
      by apply elem_of_empty in Hk.
    + destruct (phrase_search_within (build_inverted_index docs kw)
                  phrase w0 rest Hsplit) as (R' & HR' & Hsub).
      rewrite HR in HR'. injection HR' as <-.
      apply Hsub in Hk. apply elem_of_docs_of_all in Hk as [Hk0 _].
      by apply (Hidx w0).
Qed.

(** ** What the options of the tokenizer guarantee *)

Lemma all_chars_app p s1 s2 :
  all_chars p (s1 +:+ s2) = all_chars p s1 && all_chars p s2.
Proof.
  induction s1 as [|c s1 IH]; [done|].
  rewrite str_app_cons. cbn [all_chars]. by rewrite IH, andb_assoc.
Qed.

(** The tokens hold the characters of the text that are not white space. *)
Lemma split_go_chars q cur s :
  all_chars q cur = true → all_chars (space_or q) s = true →
  Forall (λ w, all_chars q w = true) (Py.split_go cur s).
Proof.
  revert cur. induction s as [|c s IH]; intros cur Hcur Hs.
  - rewrite split_go_nil. destruct (decide (cur = "")); by repeat constructor.
  - cbn [all_chars] in Hs. apply andb_true_iff in Hs as [Hc Hs].
    rewrite split_go_cons. destruct (Py.isspace c) eqn:Hsp.
    + destruct (decide (cur = "")); [by apply IH|]. constructor; [done|by apply IH].
    + apply IH; [|done]. rewrite all_chars_app, Hcur. cbn.
      unfold space_or in Hc. rewrite Hsp in Hc. cbn in Hc. by rewrite Hc.
Qed.

Lemma lstrip_chars p s : all_chars p s = true → all_chars p (Py.lstrip s) = true.
Proof.
  induction s as [|c s IH]; [done|]. cbn [Py.lstrip]. intros Hs.
  destruct (Py.isspace c); [|done]. cbn [all_chars] in Hs.
  apply andb_true_iff in Hs as [_ Hs]. by apply IH.
Qed.

Lemma rstrip_chars p s : all_chars p s = true → all_chars p (Py.rstrip s) = true.
Proof.
  induction s as [|c s IH]; [done|]. cbn [Py.rstrip all_chars].
  intros [Hc Hs]%andb_true_iff. specialize (IH Hs).
  destruct (Py.rstrip s) as [|c' r].
  - destruct (Py.isspace c); [done|]. cbn. by rewrite Hc.
  - change (p c && all_chars p (String c' r) = true). by rewrite Hc, IH.
Qed.

(** A substitution puts spaces in and keeps the other characters. *)
Lemma sub_runs_go_chars p r b s :
  r " "%char = true → all_chars r s = true →
  all_chars r (Py.sub_runs_go p b s) = true.
Proof.
  intros Hsp. revert b. induction s as [|c s IH]; intros b; [done|].
  cbn [Py.sub_runs_go all_chars]. intros [Hc Hs]%andb_true_iff.
  destruct (p c); [destruct b|]; cbn [all_chars]; rewrite ?Hsp, ?Hc, ?IH; done.
Qed.

Lemma sub_each_chars p r s :
  r " "%char = true → all_chars r s = true →
  all_chars r (Py.sub_each p s) = true.
Proof.
  intros Hsp. unfold Py.sub_each. induction s as [|c s IH]; [done|].
  cbn [Py.map all_chars]. intros [Hc Hs]%andb_true_iff.
  rewrite (IH Hs), andb_true_r. by destruct (p c).
Qed.

(** After a substitution nothing of the class is left. *)
Lemma sub_runs_go_none p b s :
  all_chars (space_or (λ c, negb (p c))) (Py.sub_runs_go p b s) = true.
Proof.
  revert b. induction s as [|c s IH]; intros b; [done|].
  cbn [Py.sub_runs_go]. destruct (p c) eqn:Hc; [destruct b|]; cbn [all_chars];
    rewrite ?IH; [done|done|].
  unfold space_or. rewrite Hc. cbn. by rewrite orb_true_r.
Qed.

Lemma sub_each_none p s :
  all_chars (space_or (λ c, negb (p c))) (Py.sub_each p s) = true.
Proof.
  unfold Py.sub_each. induction s as [|c s IH]; [done|].
  cbn [Py.map all_chars]. rewrite IH, andb_true_r.
  destruct (p c) eqn:Hc; [done|]. unfold space_or. rewrite Hc. by rewrite orb_true_r.
Qed.

Lemma lower_chars s : all_chars (space_or is_lowered) (Py.lower s) = true.
Proof.
  unfold Py.lower. induction s as [|c s IH]; [done|].
  cbn [Py.map all_chars]. rewrite IH, andb_true_r.
  by destruct c as [[] [] [] [] [] [] [] []].
Qed.

Lemma lowered_lower s : all_chars is_lowered s = true → Py.lower s = s.
Proof.
  unfold Py.lower. induction s as [|c s IH]; [done|].
  cbn [Py.map all_chars]. intros [Hc Hs]%andb_true_iff.
  apply bool_decide_eq_true in Hc. by rewrite Hc, IH.
Qed.

Lemma Forall_filter_keeps {A} (P : A → Prop) (Q : A → Prop)
    `{∀ x, Decision (Q x)} (l : list A) :
  Forall P l → Forall P (filter Q l).
Proof.
  rewrite !Forall_forall. intros Hl x [_ Hx]%list_elem_of_filter. by apply Hl.
Qed.

(** From the text after the three optional substitutions to the tokens. *)
Lemma tokenize_chars q text kw :
  all_chars (space_or q)
    (let text := if lowercase kw then Py.lower text else text in
     let text := if remove_digits kw then Py.sub_runs Py.isdecimal text else text in
     if remove_punct kw then Py.sub_each not_word_not_space text else text) = true →
  Forall (λ w, all_chars q w = true) (tokenize text kw).
Proof.
  intros Hs. unfold tokenize. cbn zeta in *.
  set (s := if remove_punct kw then _ else _) in *.
  assert (Forall (λ w, all_chars q w = true)
            (if decide (Py.strip (Py.sub_runs Py.isspace s) = "") then []
             else Py.split (Py.strip (Py.sub_runs Py.isspace s)))) as Htok.
  { destruct (decide (Py.strip (Py.sub_runs Py.isspace s) = "")); [constructor|].
    apply split_go_chars; [done|]. unfold Py.strip.
    by apply rstrip_chars, lstrip_chars, sub_runs_go_chars. }
  destruct (use_stop kw); [|done]. by apply Forall_filter_keeps.
Qed.

Lemma all_chars_impl (p q : ascii → bool) s :
  (∀ c, p c = true → q c = true) → all_chars p s = true → all_chars q s = true.
Proof.
  intros Hpq. induction s as [|c s IH]; [done|]. cbn [all_chars].
  rewrite !andb_true_iff. intros [? ?]. auto.
Qed.

Lemma tokenize_lowered text kw :
  lowercase kw = true →
  Forall (λ t, all_chars is_lowered t = true) (tokenize text kw).
Proof.
  intros Hlc. apply tokenize_chars. rewrite Hlc. cbn zeta.
  assert (space_or is_lowered " " = true) as Hsp by done.
  destruct (remove_punct kw), (remove_digits kw);
    repeat first [ apply sub_each_chars; [done|]
                 | apply sub_runs_go_chars; [done|] ];
    apply lower_chars.
Qed.

Lemma tokenize_no_digit text kw :
  remove_digits kw = true →
  Forall (λ t, all_chars (λ c, negb (Py.isdecimal c)) t = true) (tokenize text kw).
Proof.
  intros Hrd. apply tokenize_chars. rewrite Hrd. cbn zeta.
  destruct (remove_punct kw); [apply sub_each_chars; [done|]|];
    apply sub_runs_go_none.
Qed.

Lemma tokenize_word_chars text kw :
  remove_punct kw = true →
  Forall (λ t, all_chars Py.isword t = true) (tokenize text kw).
Proof.
  intros Hrp. apply tokenize_chars. rewrite Hrp. cbn zeta.
  eapply all_chars_impl; [|apply sub_each_none].
  intros c. unfold space_or, not_word_not_space.
  destruct (Py.isspace c), (Py.isword c); done.
Qed.

Lemma tokenize_no_stopword text kw :
  use_stop kw = true →
  Forall (λ t, t ∉ stopwords_for (lang kw)) (tokenize text kw).
Proof.
  intros Hstop. unfold tokenize. rewrite Hstop. cbn zeta.
  apply Forall_forall. by intros t [? _]%list_elem_of_filter.
Qed.

(** X15. What each option of [tokenize] guarantees of every token it
    returns, for every text: with [lowercase] the token is its own lower
    case; with [remove_digits] it holds no decimal digit; with
    [remove_punct] it holds word characters only (letters, digits, the
    underscore); with [use_stop] it is not in the stopword set of the
    language. *)
Theorem tokenize_guarantees text kw :
  Forall (λ t,
      (lowercase kw = true → Py.lower t = t) ∧
      (remove_digits kw = true →
         all_chars (λ c, negb (Py.isdecimal c)) t = true) ∧
      (remove_punct kw = true → all_chars Py.isword t = true) ∧
      (use_stop kw = true → t ∉ stopwords_for (lang kw)))
    (tokenize text kw).
Proof.
  apply Forall_forall. intros t Ht. repeat split.
  - intros H. apply lowered_lower.
    by apply (proj1 (Forall_forall _ _) (tokenize_lowered text kw H)).
  - intros H. by apply (proj1 (Forall_forall _ _) (tokenize_no_digit text kw H)).
  - intros H. by apply (proj1 (Forall_forall _ _) (tokenize_word_chars text kw H)).
  - intros H. by apply (proj1 (Forall_forall _ _) (tokenize_no_stopword text kw H)).
Qed.

Example tokenize_guarantees_example :
  tokenize "Hello, World_2 & THE 42 cats!" (Tokkw true true true "en" true)
    = ["hello"; "world_"; "cats"].
Proof. vm_compute. reflexivity. Qed.

(** ** Indexed terms as queries *)

Lemma tokens_of_tokenize text kw t :
  t ∈ tokenize text kw → is_token t = true.
Proof.
  revert t. apply Forall_forall. unfold tokenize.
  set (s := Py.strip _).
  assert (Forall (λ t, is_token t = true)
            (if decide (s = "") then [] else Py.split s)) as Htok.
  { destruct (decide (s = "")); [constructor|]. by apply split_go_tokens. }
  destruct (use_stop kw); [|done]. by apply Forall_filter_keeps.
Qed.

(** A term of a built index is a token of one of the documents. *)
Lemma built_term_occurs docs kw t e :
  index (build_inverted_index docs kw) !! t = Some e →
  ∃ text, text ∈ docs ∧ t ∈ tokenize text kw.
Proof.
  intros He. destruct (build_inverted_index_entry_key docs kw t e He) as (k & l & Hk).
  destruct (proj1 (built_postings_iff docs kw t k l)) as
    (d & text & _ & _ & Htext & -> & Hne); [by exists e|].
  exists text. split; [by eapply list_elem_of_lookup_2|].
  by apply (occurrences_not_nil 0).
Qed.

Lemma lowered_not_operator t : Py.lower t = t → is_operator t = false.
Proof.
  intros Ht. destruct (is_operator t) eqn:Hop; [|done].
  apply is_operator_spec in Hop as [-> | [-> | ->]]; discriminate Ht.
Qed.

(** X16. In an index built with [lowercase] on, every term can be
    queried: the term is a term of the query grammar, and both the
    Boolean query and the phrase that consist of the term alone return
    exactly the documents of its postings, of which there is at least
    one. *)
Theorem indexed_term_is_found docs kw t e :
  lowercase kw = true →
  index (build_inverted_index docs kw) !! t = Some e →
  is_term t = true ∧
  boolean_search t (build_inverted_index docs kw) = Return (dom (postings e)) ∧
  phrase_search t (build_inverted_index docs kw) = Return (dom (postings e)) ∧
  dom (postings e) ≠ ∅.
Proof.
  intros Hlc He. set (idx := build_inverted_index docs kw) in *.
  destruct (built_term_occurs docs kw t e He) as (text & Htext & Ht).
  pose proof (tokens_of_tokenize text kw t Ht) as Htoken.
  assert (Py.lower t = t) as Hlow.
  { apply lowered_lower.
    by apply (proj1 (Forall_forall _ _) (tokenize_lowered text kw Hlc)). }
  assert (is_term t = true) as Hterm.
  { apply is_term_spec. split; [done|by apply lowered_not_operator]. }
  assert (term_docs idx t = dom (postings e)) as Hdocs
    by (unfold term_docs; by rewrite He).
  split; [done|]. split; [by rewrite boolean_search_term, Hdocs|]. split.
  - destruct (phrase_search_returns idx t) as [R HR]. rewrite HR. f_equal.
    apply set_eq. intros k. rewrite (phrase_search_spec _ _ _ HR k).
    rewrite split_token by done. rewrite elem_of_dom. split.
    + intros [_ (lists & Hl%positions_lists_spec & _)].
      apply Forall2_cons_inv_l in Hl as (l & rest & (e' & He' & Hk) & _ & _).
      rewrite He in He'. injection He' as <-. by exists l.
    + intros [l Hk]. split; [done|]. exists [l]. split.
      * apply positions_lists_spec. repeat constructor. by exists e.
      * apply adjacent_spec. split; [done|].
        destruct (proj1 (built_postings_iff docs kw t k l)) as
          (_ & _ & _ & _ & _ & _ & Hne); [by exists e|].
        destruct l as [|p l]; [done|]. exists p. intros [|[|j]] l' [= <-].
        replace (p + Z.of_nat 0) with p by lia. by left.
  - destruct (build_inverted_index_entry_key docs kw t e He) as (k & l & Hk).
    intros Hempty. apply (not_elem_of_empty (C := gset dockey) k).
    rewrite <- Hempty. apply elem_of_dom. by exists l.
Qed.

Lemma indexed_term_is_found_witness :
  let e := {| df := 2; postings := {[ KInt 0 := [1]; KInt 2 := [0] ]} |} in
  is_term "cat" = true ∧
  boolean_search "cat" (build_inverted_index scenario_corpus tokkw_default)
    = Return (dom (postings e)) ∧
  phrase_search "cat" (build_inverted_index scenario_corpus tokkw_default)
    = Return (dom (postings e)) ∧
  dom (postings e) ≠ ∅.
Proof.
  intros e.
  apply (indexed_term_is_found scenario_corpus tokkw_default "cat" e).
  - reflexivity.
  - vm_compute. reflexivity.
Defined.

(** ** Vocabulary statistics *)

Global Instance row_le_total : Total row_le.
Proof.
  intros [[t1 d1] c1] [[t2 d2] c2]. unfold row_le. cbn.
  destruct (Z.lt_trichotomy d1 d2) as [?|[->|?]]; [right; left; lia| |left; left; lia].
  destruct (total (≤)%string t1 t2); [left|right]; right; done.
Qed.

Global Instance row_le_trans : Transitive row_le.
Proof.
  intros [[t1 d1] c1] [[t2 d2] c2] [[t3 d3] c3]. unfold row_le. cbn.
  intros [?|[? H12]] [?|[? H23]]; [left; lia..|].
  right. split; [lia|]. by etrans.
Qed.

Lemma elem_of_vocabulary_rows idx t d c :
  (t, d, c) ∈ vocabulary_rows idx ↔
  ∃ e, index idx !! t = Some e ∧ d = df e ∧ c = cf e.
Proof.
  unfold vocabulary_rows. rewrite list_elem_of_fmap. split.
  - intros ([t' e] & [= -> -> ->] & Hin%elem_of_map_to_list). by exists e.
  - intros (e & He & -> & ->). exists (t, e). split; [done|].
    by apply elem_of_map_to_list.
Qed.

(** Two rows of one index that are each before the other are one row. *)
Lemma row_le_antisym idx r1 r2 :
  r1 ∈ vocabulary_rows idx → r2 ∈ vocabulary_rows idx →
  row_le r1 r2 → row_le r2 r1 → r1 = r2.
Proof.
  destruct r1 as [[t1 d1] c1], r2 as [[t2 d2] c2].
  intros (e1 & He1 & -> & ->)%elem_of_vocabulary_rows
         (e2 & He2 & -> & ->)%elem_of_vocabulary_rows.
  unfold row_le. cbn. intros [?|[? H12]] [?|[? H21]]; [lia..|].
  assert (t1 = t2) as -> by (by apply (anti_symm (≤)%string)).
  rewrite He1 in He2. by injection He2 as ->.
Qed.

(** X17. [vocabulary_stats] returns one row (term, df, cf) for each term
    of the index and no other row, sorted by df from high to low and, for
    equal df, by term in code point order. It is the only sorted
    arrangement of these rows, so the order in which the dictionary gives
    its items plays no part. *)
Theorem vocabulary_stats_sorted idx :
  (∀ t d c, (t, d, c) ∈ vocabulary_stats idx ↔
     ∃ e, index idx !! t = Some e ∧ d = df e ∧ c = cf e) ∧
  length (vocabulary_stats idx) = size (index idx) ∧
  StronglySorted row_le (vocabulary_stats idx) ∧
  (∀ rows, rows ≡ₚ vocabulary_rows idx → Sorted row_le rows →
     rows = vocabulary_stats idx).
Proof.
  pose proof (merge_sort_Permutation row_le (vocabulary_rows idx)) as Hperm.
  fold (vocabulary_stats idx) in Hperm.
  pose proof (StronglySorted_merge_sort row_le (vocabulary_rows idx)) as Hsorted.
  fold (vocabulary_stats idx) in Hsorted.
  split; [|split; [|split; [done|]]].
  - intros t d c. rewrite Hperm. apply elem_of_vocabulary_rows.
  - rewrite Hperm. unfold vocabulary_rows.
    by rewrite length_fmap, length_map_to_list.
  - intros rows Hrows Hrows_sorted.
    apply (StronglySorted_unique_strong row_le); [| |done|by rewrite Hperm].
    + intros r1 r2 H1 H2. rewrite Hrows in H1. rewrite Hperm in H2.
      by apply (row_le_antisym idx).
    + apply Sorted_StronglySorted; [apply row_le_trans|done].
Qed.

Example vocabulary_stats_scenario :
  vocabulary_stats scenario_index =
    [("cat", 2, 2); ("dog", 2, 2); ("sat", 2, 2); ("the", 2, 2); ("and", 1, 1)].
Proof. vm_compute. reflexivity. Qed.

(** ** The vocabulary of a built index *)

Lemma postings_of_lookup kw d0 docs t k l :
  postings_of kw d0 docs t !! k = Some l ↔
  ∃ d text, k = KInt d ∧ d0 ≤ d ∧ docs !! Z.to_nat (d - d0) = Some text ∧
    l = occurrences 0 t (tokenize text kw) ∧ l ≠ [].
Proof.
  revert k l d0. induction docs as [|text docs IH]; intros k l d0.
  - cbn. rewrite lookup_empty. split; [done|]. by intros (? & ? & _ & _ & ? & _).
  - cbn [postings_of]. cbn zeta.
    assert ((∃ d text', k = KInt d ∧ d0 ≤ d ∧
               (text :: docs) !! Z.to_nat (d - d0) = Some text' ∧
               l = occurrences 0 t (tokenize text' kw) ∧ l ≠ []) ↔
            (k = KInt d0 ∧ l = occurrences 0 t (tokenize text kw) ∧ l ≠ []) ∨
            postings_of kw (d0 + 1) docs t !! k = Some l) as ->.
    { rewrite IH. split.
      - intros (d & text' & -> & Hle & Hd & -> & Hne).
        destruct (decide (d = d0)) as [->|Hd0].
        + left. replace (d0 - d0) with 0 in Hd by lia. cbn in Hd.
          by injection Hd as ->.
        + right. exists d, text'. repeat split; [lia| |done].
          replace (Z.to_nat (d - d0)) with (S (Z.to_nat (d - (d0 + 1)))) in Hd by lia.
          done.
      - intros [(-> & -> & Hne)|(d & text' & -> & Hle & Hd & -> & Hne)].
        + exists d0, text. replace (d0 - d0) with 0 by lia. repeat split; [lia|done].
        + exists d, text'. repeat split; [lia| |done].
          by replace (Z.to_nat (d - d0)) with (S (Z.to_nat (d - (d0 + 1)))) by lia. }
    assert (postings_of kw (d0 + 1) docs t !! KInt d0 = None) as Hfresh.
    { apply eq_None_not_Some. intros [l' (d & _ & [= <-] & ? & _)%IH]. lia. }
    destruct (decide (occurrences 0 t (tokenize text kw) = [])) as [Hnil|Hne].
    + split; [by right|]. intros [(_ & -> & ?)|?]; done.
    + destruct (decide (k = KInt d0)) as [->|Hk].
      * rewrite lookup_insert_eq, Hfresh. split.
        -- intros [= <-]. by left.
        -- by intros [(_ & -> & _)|?].
      * rewrite lookup_insert_ne by done. split; [by right|].
        by intros [(? & _)|?].
Qed.

Lemma postings_of_fresh kw d0 docs t :
  postings_of kw (d0 + 1) docs t !! KInt d0 = None.
Proof.
  apply eq_None_not_Some.
  intros [l (d & _ & [= <-] & ? & _)%postings_of_lookup]. lia.
Qed.

(** The postings dictionary of a term of a built index. *)
Lemma built_postings_of docs kw t e :
  index (build_inverted_index docs kw) !! t = Some e →
  postings e = postings_of kw 0 docs t.
Proof.
  intros He. apply map_eq. intros k. apply option_eq. intros l.
  rewrite postings_of_lookup. split.
  - intros Hk. destruct (proj1 (built_postings_iff docs kw t k l)) as
      (d & text & -> & [Hd _] & Htext & -> & Hne); [by exists e|].
    exists d, text. by replace (d - 0) with d by lia.
  - intros (d & text & -> & Hd & Htext & -> & Hne).
    replace (d - 0) with d in Htext by lia.
    destruct (proj2 (built_postings_iff docs kw t (KInt d)
                       (occurrences 0 t (tokenize text kw)))) as (e' & He' & Hk).
    { exists d, text. pose proof (lookup_lt_Some _ _ _ Htext).
      unfold build_inverted_index. cbn [num_docs]. repeat split; [lia|lia|done..]. }
    rewrite He in He'. by injection He' as <-.
Qed.

Lemma length_occurrences p t tokens :
  length (occurrences p t tokens) = length (filter (λ x, x = t) tokens).
Proof.
  revert p. induction tokens as [|x tokens IH]; intros p; [done|].
  cbn [occurrences]. rewrite length_app, IH.
  destruct (decide (x = t)) as [->|Hne].
  - by rewrite filter_cons_True.
  - by rewrite filter_cons_False.
Qed.

Lemma size_postings_of kw d0 docs t :
  Z.of_nat (size (postings_of kw d0 docs t)) = docs_holding docs kw t.
Proof.
  unfold docs_holding. revert d0. induction docs as [|text docs IH]; intros d0.
  - cbn. by rewrite map_size_empty.
  - cbn [postings_of]. cbn zeta.
    destruct (decide (occurrences 0 t (tokenize text kw) = [])) as [Hnil|Hne].
    + rewrite filter_cons_False; [apply IH|].
      intros Hin. by apply (occurrences_not_nil 0) in Hin.
    + rewrite filter_cons_True by (by apply (occurrences_not_nil 0)).
      rewrite map_size_insert_None by apply postings_of_fresh.
      cbn [length]. specialize (IH (d0 + 1)). lia.
Qed.

Lemma cf_postings_of kw d0 docs t df0 :
  cf {| df := df0; postings := postings_of kw d0 docs t |} = corpus_count docs kw t.
Proof.
  unfold cf, corpus_count, corpus_tokens. cbn [postings]. revert d0.
  induction docs as [|text docs IH]; intros d0.
  - cbn. by rewrite map_fold_empty.
  - cbn [postings_of fmap list_fmap concat]. cbn zeta.
    rewrite filter_app, length_app, <- length_occurrences with (p := 0).
    destruct (decide (occurrences 0 t (tokenize text kw) = [])) as [Hnil|Hne].
    + rewrite Hnil. cbn [length]. apply IH.
    + rewrite map_fold_insert_L.
      * specialize (IH (d0 + 1)). lia.
      * intros. lia.
      * apply postings_of_fresh.
Qed.

Lemma docs_holding_le_count docs kw t :
  docs_holding docs kw t ≤ corpus_count docs kw t.
Proof.
  unfold docs_holding, corpus_count, corpus_tokens.
  induction docs as [|text docs IH]; [done|].
  cbn [fmap list_fmap concat]. rewrite filter_app, length_app.
  destruct (decide (t ∈ tokenize text kw)) as [Hin|Hnin].
  - rewrite filter_cons_True by done. cbn [length].
    apply (occurrences_not_nil 0) in Hin.
    rewrite <- length_occurrences with (p := 0).
    destruct (occurrences 0 t (tokenize text kw)); [done|]. cbn [length]. lia.
  - rewrite filter_cons_False by done. lia.
Qed.

(** X18. The statistics of a built index count what they are named
    for. For every term of the index, df is the number of the documents
    whose tokens hold the term and cf, as [vocabulary_stats] sums it, is
    the number of the tokens of the whole corpus that are the term; and
    1 ≤ df ≤ cf, df ≤ num_docs. *)
Theorem build_inverted_index_counts docs kw t e :
  index (build_inverted_index docs kw) !! t = Some e →
  df e = docs_holding docs kw t ∧
  cf e = corpus_count docs kw t ∧
  1 ≤ df e ≤ cf e ∧
  df e ≤ num_docs (build_inverted_index docs kw).
Proof.
  intros He. pose proof (built_postings_of docs kw t e He) as Hpost.
  assert (df e = docs_holding docs kw t) as Hdf.
  { rewrite <- (size_postings_of kw 0), <- Hpost.
    unfold build_inverted_index in He. cbn [index] in He.
    rewrite lookup_fmap in He.
    destruct (index_docs kw 0 docs ∅ !! t) as [e0|]; [|done].
    by injection He as <-. }
  assert (cf e = corpus_count docs kw t) as Hcf.
  { rewrite <- (cf_postings_of kw 0 docs t (df e)), <- Hpost. by destruct e. }
  split; [done|]. split; [done|]. rewrite Hdf, Hcf. repeat split.
  - rewrite <- Hdf. destruct (build_inverted_index_entry_key docs kw t e He)
      as (k & l & Hk).
    rewrite Hdf, <- (size_postings_of kw 0), <- Hpost.
    assert (size (postings e) ≠ 0%nat); [|lia].
    intros Hsize%map_size_empty_inv. by rewrite Hsize, lookup_empty in Hk.
  - apply docs_holding_le_count.
  - unfold docs_holding, build_inverted_index. cbn [num_docs].
    pose proof (length_filter (λ text, t ∈ tokenize text kw) docs). lia.
Qed.

Lemma build_inverted_index_counts_witness :
  let e := {| df := 2; postings := {[ KInt 0 := [1]; KInt 2 := [0] ]} |} in
  df e = docs_holding scenario_corpus tokkw_default "cat" ∧
  cf e = corpus_count scenario_corpus tokkw_default "cat" ∧
  1 ≤ df e ≤ cf e ∧
  df e ≤ num_docs (build_inverted_index scenario_corpus tokkw_default).
Proof.
  intros e.
  apply (build_inverted_index_counts scenario_corpus tokkw_default "cat" e).
  vm_compute. reflexivity.
Defined.

(** ** Queries are not normalised *)

(** A word that [tokenize] cannot return under the options is no term of
    the index built with them. *)
Lemma unreturned_word_absent docs kw w :
  (lowercase kw = true ∧ Py.lower w ≠ w) ∨
  (remove_digits kw = true ∧
     all_chars (λ c, negb (Py.isdecimal c)) w = false) ∨
  (remove_punct kw = true ∧ all_chars Py.isword w = false) ∨
  (use_stop kw = true ∧ w ∈ stopwords_for (lang kw)) →
  index (build_inverted_index docs kw) !! w = None.
Proof.
  intros Hw. apply eq_None_not_Some. intros [e He].
  destruct (built_term_occurs docs kw w e He) as (text & _ & Hin).
  destruct Hw as [[H Hw] | [[H Hw] | [[H Hw] | [H Hw]]]].
  - apply Hw, lowered_lower.
    by apply (proj1 (Forall_forall _ _) (tokenize_lowered text kw H)).
  - pose proof (proj1 (Forall_forall _ _) (tokenize_no_digit text kw H) w Hin).
    cbn beta in *. congruence.
  - pose proof (proj1 (Forall_forall _ _) (tokenize_word_chars text kw H) w Hin).
    cbn beta in *. congruence.
  - by apply (proj1 (Forall_forall _ _) (tokenize_no_stopword text kw H) w Hin).
Qed.

(** A phrase with a word that is no term of the index matches nothing. *)
Lemma phrase_search_absent_word idx phrase w :
  index idx !! w = None → w ∈ Py.split phrase →
  phrase_search phrase idx = Return ∅.
Proof.
  intros Hw Hin. destruct (phrase_search_returns idx phrase) as [R HR].
  rewrite HR. f_equal. apply set_eq. intros k.
  rewrite (phrase_search_spec _ _ _ HR k). split; [|by intros ?%elem_of_empty].
  intros [_ (lists & Hl%positions_lists_spec & _)].
  apply list_elem_of_lookup in Hin as [i Hi].
  destruct (Forall2_lookup_l _ _ _ _ _ Hl Hi) as (l & _ & e & He & _).
  congruence.
Qed.

(** X19. The searches look their words up as they are typed; the
    options the index was built with are not applied to the query. A word
    that the options rule out as a token (not its own lower case with
    [lowercase]; holding a digit with [remove_digits]; holding a character
    that is no word character with [remove_punct]; a stopword with
    [use_stop]) is no term of the built index, whatever the
    documents. As a Boolean query it returns the empty set and every
    phrase that holds it returns the empty set. *)
Theorem query_words_not_normalised docs kw w :
  (lowercase kw = true ∧ Py.lower w ≠ w) ∨
  (remove_digits kw = true ∧
     all_chars (λ c, negb (Py.isdecimal c)) w = false) ∨
  (remove_punct kw = true ∧ all_chars Py.isword w = false) ∨
  (use_stop kw = true ∧ w ∈ stopwords_for (lang kw)) →
  let idx := build_inverted_index docs kw in
  index idx !! w = None ∧
  (is_term w = true → boolean_search w idx = Return ∅) ∧
  (∀ phrase, w ∈ Py.split phrase → phrase_search phrase idx = Return ∅).
Proof.
  intros Hw idx. pose proof (unreturned_word_absent docs kw w Hw) as Hnone.
  split; [done|]. split.
  - intros Hterm. rewrite boolean_search_term by done. unfold term_docs.
    fold idx in Hnone. by rewrite Hnone.
  - intros phrase Hin. by apply (phrase_search_absent_word _ _ w).
Qed.

Lemma query_words_not_normalised_witness :
  let idx := build_inverted_index ["The Cat sat"; "a cat"] tokkw_default in
  tokenize "The Cat sat" tokkw_default = ["the"; "cat"; "sat"] ∧
  index idx !! "Cat" = None ∧
  (is_term "Cat" = true → boolean_search "Cat" idx = Return ∅) ∧
  (∀ phrase, "Cat" ∈ Py.split phrase → phrase_search phrase idx = Return ∅).
Proof.
  intros idx. split; [vm_compute; reflexivity|].
  apply (query_words_not_normalised ["The Cat sat"; "a cat"] tokkw_default "Cat").
  left. split; [reflexivity|discriminate].
Defined.

(** ** The search of the page *)

Lemma rstrip_snoc_nonspace s c :
  Py.isspace c = false → Py.rstrip (s +:+ String c "") = s +:+ String c "".
Proof.
  intros Hc. induction s as [|c0 s IH].
  - change ("" +:+ String c "") with (String c ""). cbn. by rewrite Hc.
  - rewrite str_app_cons. cbn [Py.rstrip]. rewrite IH.
    destruct s; by rewrite ?str_app_cons.
Qed.

Lemma rstrip_of_snoc p s c :
  p c = true → rstrip_of p (s +:+ String c "") = rstrip_of p s.
Proof.
  intros Hc. induction s as [|c0 s IH].
  - change ("" +:+ String c "") with (String c ""). cbn. by rewrite Hc.
  - rewrite str_app_cons. cbn [rstrip_of]. by rewrite IH.
Qed.

Lemma rstrip_of_none p s :
  all_chars (λ c, negb (p c)) s = true → rstrip_of p s = s.
Proof.
  induction s as [|c s IH]; [done|]. cbn [all_chars rstrip_of].
  intros [Hc%negb_true_iff Hs]%andb_true_iff. rewrite (IH Hs), Hc. by destruct s.
Qed.

Lemma lstrip_of_none p s :
  all_chars (λ c, negb (p c)) s = true → lstrip_of p s = s.
Proof.
  destruct s as [|c s]; [done|]. cbn [all_chars lstrip_of].
  intros [Hc%negb_true_iff _]%andb_true_iff. by rewrite Hc.
Qed.

Lemma strip_quoted p : Py.strip (quoted p) = quoted p.
Proof.
  unfold Py.strip, quoted. cbn [Py.lstrip].
  change (Py.isspace quote) with false. cbn match.
  change (String quote (p +:+ String quote ""))
    with (String quote p +:+ String quote "").
  by apply rstrip_snoc_nonspace.
Qed.

Lemma strip_of_quoted p :
  all_chars (λ c, negb (is_quote c)) p = true →
  strip_of is_quote (quoted p) = p.
Proof.
  intros Hp. unfold strip_of, quoted. cbn [lstrip_of].
  change (is_quote quote) with true. cbn match.
  destruct p as [|c p]; [done|].
  assert (is_quote c = false) as Hc.
  { cbn [all_chars] in Hp. by apply andb_true_iff in Hp as [?%negb_true_iff _]. }
  rewrite str_app_cons. cbn [lstrip_of]. rewrite Hc, <- str_app_cons.
  rewrite rstrip_of_snoc by done. by apply rstrip_of_none.
Qed.

(** [phrase_search] reads its phrase through [split()] only. *)
Lemma phrase_search_strip p idx :
  phrase_search (Py.strip p) idx = phrase_search p idx.
Proof. unfold phrase_search. by rewrite split_strip. Qed.

Lemma split_blank s : Py.strip s = "" → Py.split s = [].
Proof. intros Hs. by rewrite <- split_strip, Hs. Qed.

(** X20. The search of the page, for every index. In Boolean mode the
    hits are what [boolean_search] gives for the query as typed. In
    Phrase mode the search raises nothing, and for a phrase that holds no
    double quote the hits are those of [phrase_search] on the phrase,
    whether it is typed between double quotes or without them. *)
Theorem search_hits_modes idx :
  (∀ q, search_hits Boolean q idx = boolean_search q idx) ∧
  (∀ q, ∃ R, search_hits Phrase q idx = Return R) ∧
  (∀ p, all_chars (λ c, negb (is_quote c)) p = true →
     search_hits Phrase p idx = phrase_search p idx ∧
     search_hits Phrase (quoted p) idx = phrase_search p idx).
Proof.
  split; [|split].
  - intros q. unfold search_hits.
    destruct (decide (Py.strip q = "")) as [Hq|]; [|done].
    unfold boolean_search. by rewrite Hq.
  - intros q. unfold search_hits.
    destruct (decide (Py.strip q = "")); [by exists ∅|].
    apply phrase_search_returns.
  - intros p Hp. split.
    + unfold search_hits. destruct (decide (Py.strip p = "")) as [Hblank|_].
      * unfold phrase_search. by rewrite (split_blank p Hblank).
      * unfold strip_of. rewrite lstrip_of_none, rstrip_of_none.
        -- apply phrase_search_strip.
        -- by apply rstrip_chars, lstrip_chars.
        -- by apply rstrip_chars, lstrip_chars.
    + unfold search_hits. rewrite strip_quoted.
      destruct (decide (quoted p = "")); [done|].
      by rewrite strip_of_quoted.
Qed.

Example search_hits_scenario :
  search_hits Phrase (quoted "cat sat") scenario_index = Return {[ KInt 0 ]} ∧
  search_hits Phrase "  cat sat " scenario_index = Return {[ KInt 0 ]} ∧
  search_hits Boolean (quoted "cat sat") scenario_index = Return ∅.
Proof. vm_compute. done. Qed.

(** ** Loading a corpus, one document per line *)

Lemma splitlines_go_break cur c s :
  is_linebreak c = true →
  ∃ rest, splitlines_go cur (String c s) = cur :: rest ∧
          (rest = splitlines_go "" s ∨ splitlines_go "" s = "" :: rest).
Proof.
  intros Hc. cbn [splitlines_go]. rewrite Hc.
  destruct (decide (c = "013"%char)) as [->|_]; [|eexists; split; [done|by left]].
  destruct s as [|c' s']; [eexists; split; [done|by left]|].
  destruct (decide (c' = "010"%char)) as [->|Hne].
  - eexists. split; [done|]. by right.
  - eexists. split; [|by left].
    destruct c' as [[] [] [] [] [] [] [] []]; done.
Qed.

Lemma splitlines_go_char cur c s :
  is_linebreak c = false →
  splitlines_go cur (String c s) = splitlines_go (cur +:+ String c "") s.
Proof. intros Hc. cbn [splitlines_go]. by rewrite Hc. Qed.

(** No line holds a line boundary. *)
Lemma splitlines_go_in_line cur s :
  all_chars in_line cur = true →
  Forall (λ l, all_chars in_line l = true) (splitlines_go cur s).
Proof.
  revert cur. induction s as [|c s IH]; intros cur Hcur.
  - cbn. destruct (decide (cur = "")); repeat constructor; done.
  - destruct (is_linebreak c) eqn:Hc.
    + destruct (splitlines_go_break cur c s Hc) as (rest & -> & [-> | Hrest]).
      * constructor; [done|]. by apply IH.
      * constructor; [done|]. specialize (IH "" eq_refl).
        rewrite Hrest in IH. by inversion IH.
    + rewrite splitlines_go_char by done. apply IH.
      rewrite all_chars_app, Hcur. cbn. unfold in_line. by rewrite Hc.
Qed.

Lemma is_linebreak_isspace c : is_linebreak c = true → Py.isspace c = true.
Proof.
  unfold is_linebreak, Py.isspace, Py.between. cbn zeta.
  destruct (Py.code c) as [|n]; [done|].
  rewrite !orb_true_iff, !andb_true_iff, !N.leb_le, !N.eqb_eq. lia.
Qed.

(** The lines are blank iff the text is. *)
Lemma splitlines_go_blank cur s :
  Forall (λ l, all_chars Py.isspace l = true) (splitlines_go cur s) ↔
  all_chars Py.isspace cur = true ∧ all_chars Py.isspace s = true.
Proof.
  revert cur. induction s as [|c s IH]; intros cur.
  - cbn. destruct (decide (cur = "")) as [->|].
    + split; [done|constructor].
    + rewrite Forall_singleton. split; [done|by intros [? _]].
  - destruct (is_linebreak c) eqn:Hc.
    + pose proof (is_linebreak_isspace c Hc) as Hsp.
      cbn [all_chars]. rewrite Hsp. cbn [andb].
      destruct (splitlines_go_break cur c s Hc) as (rest & -> & [-> | Hrest]).
      * rewrite Forall_cons, IH. cbn [all_chars]. tauto.
      * rewrite Forall_cons. specialize (IH "").
        rewrite Hrest, Forall_cons in IH. split.
        -- intros [? ?]. split; [done|]. by apply IH.
        -- intros [? ?]. split; [done|]. by apply IH.
    + rewrite splitlines_go_char, IH, all_chars_app by done.
      cbn [all_chars]. rewrite !andb_true_iff. tauto.
Qed.

Lemma lstrip_nil_iff s : Py.lstrip s = "" ↔ all_chars Py.isspace s = true.
Proof.
  induction s as [|c s IH]; [done|]. cbn [Py.lstrip all_chars].
  destruct (Py.isspace c); [done|]. split; done.
Qed.

Lemma rstrip_nil_iff s : Py.rstrip s = "" ↔ all_chars Py.isspace s = true.
Proof.
  induction s as [|c s IH]; [done|]. cbn [Py.rstrip all_chars].
  destruct (Py.rstrip s) as [|c' r].
  - destruct (Py.isspace c); [|by split]. cbn [andb]. split; [|done].
    intros _. by apply IH.
  - split; [done|]. intros [_ Hs%IH]%andb_true_iff. done.
Qed.

Lemma lstrip_starts s : starts_nonspace (Py.lstrip s) = true.
Proof.
  induction s as [|c s IH]; [done|]. cbn [Py.lstrip].
  destruct (Py.isspace c) eqn:Hc; [done|]. cbn. by rewrite Hc.
Qed.

Lemma lstrip_started s : starts_nonspace s = true → Py.lstrip s = s.
Proof.
  destruct s as [|c s]; [done|]. cbn. by intros ->%negb_true_iff.
Qed.

Lemma rstrip_starts s :
  starts_nonspace s = true → starts_nonspace (Py.rstrip s) = true.
Proof.
  destruct s as [|c s]; [done|]. cbn [starts_nonspace Py.rstrip].
  intros Hc. destruct (Py.rstrip s); [|done].
  destruct (Py.isspace c) eqn:Hsp; [done|]. cbn. by rewrite Hsp.
Qed.

Lemma rstrip_idemp s : Py.rstrip (Py.rstrip s) = Py.rstrip s.
Proof.
  induction s as [|c s IH]; [done|]. cbn [Py.rstrip].
  destruct (Py.rstrip s) as [|c' r] eqn:Hr.
  - destruct (Py.isspace c) eqn:Hc; [done|]. cbn. by rewrite Hc.
  - cbn [Py.rstrip]. cbn [Py.rstrip] in IH. by rewrite IH.
Qed.

Lemma strip_idemp s : Py.strip (Py.strip s) = Py.strip s.
Proof.
  unfold Py.strip. rewrite (lstrip_started (Py.rstrip _)).
  - apply rstrip_idemp.
  - apply rstrip_starts, lstrip_starts.
Qed.

Lemma strip_nil_iff s : Py.strip s = "" ↔ all_chars Py.isspace s = true.
Proof.
  unfold Py.strip. split.
  - intros Hs%rstrip_nil_iff. apply lstrip_nil_iff.
    pose proof (lstrip_starts s) as Hstart.
    destruct (Py.lstrip s) as [|c r]; [done|].
    cbn [all_chars starts_nonspace] in *.
    apply andb_true_iff in Hs as [Hc _]. by rewrite Hc in Hstart.
  - by intros ->%lstrip_nil_iff.
Qed.

Lemma corpus_lines_nil_iff txt : corpus_lines txt = [] ↔ Py.strip txt = "".
Proof.
  rewrite strip_nil_iff. unfold corpus_lines, splitlines.
  transitivity (Forall (λ l, all_chars Py.isspace l = true) (splitlines_go "" txt)).
  - induction (splitlines_go "" txt) as [|l ls IH]; [done|].
    cbn [fmap list_fmap]. rewrite Forall_cons, <- IH, <- strip_nil_iff.
    destruct (decide (Py.strip l = "")) as [Hl|Hl].
    + rewrite filter_cons_False by (by intros ?). tauto.
    + rewrite filter_cons_True by done. split; [done|by intros [? _]].
  - rewrite splitlines_go_blank. cbn [all_chars]. tauto.
Qed.

Lemma corpus_lines_docs txt : Forall line_doc (corpus_lines txt).
Proof.
  unfold corpus_lines, splitlines.
  pose proof (splitlines_go_in_line "" txt eq_refl) as Hlines.
  induction Hlines as [|l ls Hl Hls IH]; [constructor|].
  cbn [fmap list_fmap]. destruct (decide (Py.strip l = "")) as [Hnil|Hne].
  - by rewrite filter_cons_False by (by intros ?).
  - rewrite filter_cons_True by done. constructor; [|done].
    split; [done|]. split; [apply strip_idemp|].
    by apply rstrip_chars, lstrip_chars.
Qed.

(** X21. The two tabs that take a text with one document per line, for
    every text and whatever [docs] and [doc_ids] hold before. The tab for
    pasted text and the tab for a text file do the same: their guards,
    one on the text and one on the lines, agree. A blank text leaves
    [docs] and [doc_ids] as they are. Any other text sets them: there is
    at least one document; every document is not empty, has no white
    space at its ends and holds no line boundary; and [doc_ids] are the
    labels doc_1, doc_2, ... of these documents. *)
Theorem load_lines txt st :
  load_pasted txt st = load_txt txt st ∧
  (Py.strip txt = "" → load_pasted txt st = st) ∧
  (Py.strip txt ≠ "" →
     ∃ docs, load_pasted txt st = (docs, doc_ids_for docs) ∧
       docs ≠ [] ∧ Forall line_doc docs).
Proof.
  unfold load_pasted, load_txt. cbn zeta.
  destruct (decide (Py.strip txt = "")) as [Hblank|Hne].
  - split; [|split; [done|done]].
    rewrite decide_True; [done|]. by apply corpus_lines_nil_iff.
  - assert (corpus_lines txt ≠ []) as Hdocs by (by rewrite corpus_lines_nil_iff).
    split; [by rewrite decide_False|]. split; [done|]. intros _.
    exists (corpus_lines txt). split; [done|]. split; [done|].
    apply corpus_lines_docs.
Qed.

Example load_lines_example :
  load_pasted (" first doc " +:+ String "013" (String "010" ""
                 +:+ String "009" (String "010" "second") +:+ String "010" ""))
              ([], [])
    = (["first doc"; "second"], ["doc_1"; "doc_2"]).
Proof. vm_compute. reflexivity. Qed.

Lemma splitlines_go_line l cur s :
  all_chars in_line l = true →
  splitlines_go cur (l +:+ s) = splitlines_go (cur +:+ l) s.
Proof.
  revert cur. induction l as [|c l IH]; intros cur Hl.
  - change ("" +:+ s) with s. by rewrite str_app_nil_r.
  - cbn [all_chars] in Hl. apply andb_true_iff in Hl as [Hc%negb_true_iff Hl].
    rewrite str_app_cons, splitlines_go_char by done.
    rewrite IH by done. by rewrite str_app_assoc.
Qed.

Lemma splitlines_line_feed l s :
  all_chars in_line l = true →
  splitlines (l +:+ String "010" s) = l :: splitlines s.
Proof. intros Hl. unfold splitlines. by rewrite splitlines_go_line. Qed.

Lemma splitlines_line l :
  all_chars in_line l = true →
  splitlines l = if decide (l = "") then [] else [l].
Proof.
  intros Hl. unfold splitlines. rewrite <- (str_app_nil_r l) at 1.
  by rewrite splitlines_go_line.
Qed.

(** X22. One document per line. For lines that hold no line boundary,
    the text that has them one after the other with a line feed between
    them is loaded as these lines in their order, each without the white
    space at its ends, the lines that are blank left out. *)
Theorem corpus_lines_join ls :
  Forall (λ l, all_chars in_line l = true) ls →
  corpus_lines (Py.join (String "010" "") ls) =
    filter (λ l, l ≠ "") (Py.strip <$> ls).
Proof.
  unfold corpus_lines. induction 1 as [|l ls Hl Hls IH]; [done|].
  destruct ls as [|l' ls].
  - cbn [Py.join]. rewrite splitlines_line by done.
    destruct (decide (l = "")) as [->|]; done.
  - change (Py.join (String "010" "") (l :: l' :: ls))
      with (l +:+ String "010" (Py.join (String "010" "") (l' :: ls))).
    rewrite splitlines_line_feed by done.
    rewrite !fmap_cons, !(filter_cons _ (Py.strip l)). by rewrite IH.
Qed.

Lemma corpus_lines_join_witness :
  corpus_lines (Py.join (String "010" "") [" the cat sat"; "  "; "the dog sat "])
    = filter (λ l, l ≠ "") (Py.strip <$> [" the cat sat"; "  "; "the dog sat "]) ∧
  filter (λ l, l ≠ "") (Py.strip <$> [" the cat sat"; "  "; "the dog sat "])
    = ["the cat sat"; "the dog sat"].
Proof.
  split.
  - apply (corpus_lines_join [" the cat sat"; "  "; "the dog sat "]).
    repeat constructor.
  - vm_compute. reflexivity.
Defined.

(** ** The titles of the hits *)

Lemma doc_label_inj d1 d2 : doc_label d1 = doc_label d2 → d1 = d2.
Proof.
  unfold doc_label. change ("doc_" +:+ ?s) with
    (String "d" (String "o" (String "c" (String "_" s)))).
  intros [= H%(inj pretty)]. lia.
Qed.

Lemma doc_ids_for_lookup docs d :
  0 ≤ d < Z.of_nat (length docs) →
  doc_ids_for docs !! Z.to_nat d = Some (doc_label d).
Proof.
  intros Hd. unfold doc_ids_for. rewrite list_lookup_fmap.
  rewrite lookup_seqZ_lt by lia. cbn. f_equal. f_equal. lia.
Qed.

Lemma getitem_doc_ids docs d :
  0 ≤ d < Z.of_nat (length docs) →
  getitem (doc_ids_for docs) (KInt d) = inr (doc_label d).
Proof.
  intros Hd. unfold getitem. cbn zeta.
  rewrite (decide_False (P := d < 0)) by lia.
  rewrite (decide_True (P := 0 ≤ d)) by lia.
  by rewrite doc_ids_for_lookup.
Qed.

Lemma phrase_search_ids_in_range idx phrase R :
  ids_in_range idx → phrase_search phrase idx = Return R → R ⊆ universe idx.
Proof.
  intros Hidx HR k Hk. destruct (Py.split phrase) as [|w0 rest] eqn:Hsplit.
  - unfold phrase_search in HR. rewrite Hsplit in HR. injection HR as <-.
    by apply elem_of_empty in Hk.
  - destruct (phrase_search_within idx phrase w0 rest Hsplit) as (R' & HR' & Hsub).
    rewrite HR in HR'. injection HR' as <-.
    apply Hsub in Hk. apply elem_of_docs_of_all in Hk as [Hk0 _].
    by apply (Hidx w0).
Qed.

Lemma search_hits_ids_in_range idx m q R :
  ids_in_range idx → search_hits m q idx = Return R → R ⊆ universe idx.
Proof.
  intros Hidx. unfold search_hits. destruct (decide (Py.strip q = "")).
  { intros [= <-] k ?%elem_of_empty. done. }
  destruct m.
  - by apply boolean_search_ids_in_range.
  - by apply phrase_search_ids_in_range.
Qed.

Lemma hit_title_doc_ids docs session d :
  session = None ∨ session = Some (doc_ids_for docs) →
  0 ≤ d < Z.of_nat (length docs) →
  hit_title session (doc_ids_for docs) (KInt d) = inr (doc_label d).
Proof.
  intros Hsession Hd.
  assert (default (doc_ids_for docs) session = doc_ids_for docs) as Hget
    by (by destruct Hsession as [-> | ->]).
  unfold hit_title. rewrite Hget.
  destruct (doc_ids_for docs) as [|i ids] eqn:Hids; [done|].
  rewrite <- Hids. by apply getitem_doc_ids.
Qed.

(** X23. The titles of the hits of an index built on the page. The
    corpus has the labels doc_1, doc_2, ... as its [doc_ids], and the
    session state holds these labels or none. Then for every query, in
    either mode, every hit [d] has a title, nothing is raised, the title
    is doc_(d+1), the label of document [d], and two hits have two
    titles. *)
Theorem hit_title_built docs kw session m q R :
  session = None ∨ session = Some (doc_ids_for docs) →
  search_hits m q (build_inverted_index docs kw) = Return R →
  (∀ k, k ∈ R →
     ∃ d, k = KInt d ∧ 0 ≤ d < Z.of_nat (length docs) ∧
       doc_ids_for docs !! Z.to_nat d = Some (doc_label d) ∧
       hit_title session (doc_ids_for docs) k = inr (doc_label d)) ∧
  (∀ k1 k2, k1 ∈ R → k2 ∈ R →
     hit_title session (doc_ids_for docs) k1
       = hit_title session (doc_ids_for docs) k2 → k1 = k2).
Proof.
  intros Hsession HR.
  assert (∀ k, k ∈ R →
     ∃ d, k = KInt d ∧ 0 ≤ d < Z.of_nat (length docs) ∧
       doc_ids_for docs !! Z.to_nat d = Some (doc_label d) ∧
       hit_title session (doc_ids_for docs) k = inr (doc_label d)) as Htitle.
  { intros k Hk.
    apply (search_hits_ids_in_range _ _ _ _
             (build_inverted_index_ids_in_range docs kw) HR) in Hk.
    apply elem_of_universe in Hk as (d & -> & Hd).
    unfold build_inverted_index in Hd. cbn [num_docs] in Hd.
    exists d. split; [done|]. split; [done|].
    split; [by apply doc_ids_for_lookup|by apply hit_title_doc_ids]. }
  split; [done|]. intros k1 k2 H1 H2.
  destruct (Htitle k1 H1) as (d1 & -> & _ & _ & ->).
  destruct (Htitle k2 H2) as (d2 & -> & _ & _ & ->).
  intros Heq. assert (doc_label d1 = doc_label d2) as Hlabel by congruence.
  by apply doc_label_inj in Hlabel as ->.
Qed.

Lemma hit_title_built_witness :
  (∀ k, k ∈ ({[ KInt 0; KInt 2 ]} : gset dockey) →
     ∃ d, k = KInt d ∧ 0 ≤ d < Z.of_nat (length scenario_corpus) ∧
       doc_ids_for scenario_corpus !! Z.to_nat d = Some (doc_label d) ∧
       hit_title (Some (doc_ids_for scenario_corpus))
         (doc_ids_for scenario_corpus) k = inr (doc_label d)) ∧
  (∀ k1 k2, k1 ∈ ({[ KInt 0; KInt 2 ]} : gset dockey) →
     k2 ∈ ({[ KInt 0; KInt 2 ]} : gset dockey) →
     hit_title (Some (doc_ids_for scenario_corpus))
         (doc_ids_for scenario_corpus) k1
       = hit_title (Some (doc_ids_for scenario_corpus))
           (doc_ids_for scenario_corpus) k2 → k1 = k2).
Proof.
  apply (hit_title_built scenario_corpus (scenario_kw true false "id")
           (Some (doc_ids_for scenario_corpus)) Boolean "cat").
  - by right.
  - vm_compute. reflexivity.
Defined.

Example hit_title_scenario :
  hit_title (Some (doc_ids_for scenario_corpus)) (doc_ids_for scenario_corpus)
    (KInt 2) = inr "doc_3".
Proof. vm_compute. reflexivity. Qed.

(** ** The hits of a loaded index *)

Lemma loads_term_docs j t : str_ids (term_docs (Json.loads j) t).
Proof.
  intros k (e & He & [l Hl])%elem_of_term_docs.
  unfold Json.loads in He. cbn [index] in He. rewrite lookup_fmap in He.
  destruct (Json.j_index j !! t) as [je|]; [|done]. injection He as <-.
  cbn [postings Json.loads_entry] in Hl. unfold Json.loads_postings in Hl.
  apply lookup_kmap_Some in Hl as (x & -> & _); [|apply _]. by exists x.
Qed.

Lemma apply_operator_str idx op out out' :
  op ≠ "NOT" → Forall str_ids out →
  apply_operator idx op out = Return out' → Forall str_ids out'.
Proof.
  intros Hop Hout. unfold apply_operator. rewrite decide_False by done.
  destruct Hout as [|b out Hb Hout]; [done|].
  destruct Hout as [|x out Hx Hout]; [done|]. cbn.
  destruct (decide (op = "AND")); [|destruct (decide (op = "OR"))];
    intros [= <-]; [constructor; [|done]..|done].
  - intros k [? _]%elem_of_intersection. by apply Hx.
  - intros k [?|?]%elem_of_union; [by apply Hx|by apply Hb].
Qed.

Lemma reduce_while_str idx p out ops st :
  "NOT" ∉ ops → Forall str_ids out →
  reduce_while idx p out ops = Return st →
  Forall str_ids st.1 ∧ "NOT" ∉ st.2.
Proof.
  revert out. induction ops as [|op ops IH]; intros out Hops Hout.
  - cbn. by intros [= <-].
  - apply not_elem_of_cons in Hops as [Hop Hops]. cbn [reduce_while].
    destruct (decide (p ≤ default 0 (prec !! op))).
    + destruct (apply_operator idx op out) as [out1|] eqn:Happ; [|done].
      rewrite bind_Return. apply IH; [done|].
      by apply (apply_operator_str idx op out out1).
    + intros [= <-]. cbn. split; [done|]. by apply not_elem_of_cons.
Qed.

Lemma reduce_all_str idx out ops out' :
  "NOT" ∉ ops → Forall str_ids out →
  reduce_all idx out ops = Return out' → Forall str_ids out'.
Proof.
  revert out. induction ops as [|op ops IH]; intros out Hops Hout.
  - cbn. by intros [= <-].
  - apply not_elem_of_cons in Hops as [Hop Hops]. cbn [reduce_all].
    destruct (apply_operator idx op out) as [out1|] eqn:Happ; [|done].
    rewrite bind_Return. apply IH; [done|].
    by apply (apply_operator_str idx op out out1).
Qed.

Lemma eval_tokens_str idx toks st st' :
  (∀ t, str_ids (term_docs idx t)) →
  "NOT" ∉ toks → "NOT" ∉ st.2 → Forall str_ids st.1 →
  eval_tokens idx toks st = Return st' →
  Forall str_ids st'.1 ∧ "NOT" ∉ st'.2.
Proof.
  intros Hidx. revert st. induction toks as [|tok toks IH]; intros st Htoks Hops Hout.
  - cbn. by intros [= <-].
  - apply not_elem_of_cons in Htoks as [Htok Htoks]. cbn [eval_tokens].
    destruct (eval_token idx st tok) as [st1|] eqn:Hst1; [|done].
    rewrite bind_Return. unfold eval_token in Hst1.
    destruct (is_operator tok).
    + destruct (prec !! tok) as [p|]; [|done].
      destruct (reduce_while idx p st.1 st.2) as [[out ops]|] eqn:Hred; [|done].
      cbn in Hst1. injection Hst1 as <-.
      destruct (reduce_while_str _ _ _ _ _ Hops Hout Hred) as [Hout' Hops'].
      apply IH; [done| |done]. cbn. by apply not_elem_of_cons.
    + injection Hst1 as <-. apply IH; [done|done|].
      cbn. constructor; [apply Hidx|done].
Qed.

Lemma boolean_search_str idx q R :
  (∀ t, str_ids (term_docs idx t)) → "NOT" ∉ Py.split q →
  boolean_search q idx = Return R → str_ids R.
Proof.
  intros Hidx Hq. unfold boolean_search. rewrite split_strip.
  destruct (decide (Py.split q = [])).
  { intros [= <-] k ?%elem_of_empty. done. }
  destruct (eval_tokens idx _ ([], [])) as [[out ops]|] eqn:Heval; [|done].
  rewrite bind_Return.
  destruct (reduce_all idx out ops) as [out'|] eqn:Hall; [|done].
  rewrite bind_Return. intros [= <-].
  destruct (eval_tokens_str idx _ ([], []) (out, ops) Hidx Hq) as [Hout Hops];
    [by intros ?%elem_of_nil|constructor|done|].
  pose proof (reduce_all_str idx out ops out' Hops Hout Hall) as Hout'.
  destruct Hout' as [|top out' Htop _]; [|done].
  by intros k ?%elem_of_empty.
Qed.

Lemma phrase_search_str idx phrase R :
  (∀ t, str_ids (term_docs idx t)) →
  phrase_search phrase idx = Return R → str_ids R.
Proof.
  intros Hidx HR k Hk. destruct (Py.split phrase) as [|w0 rest] eqn:Hsplit.
  - unfold phrase_search in HR. rewrite Hsplit in HR. injection HR as <-.
    by apply elem_of_empty in Hk.
  - destruct (phrase_search_within idx phrase w0 rest Hsplit) as (R' & HR' & Hsub).
    rewrite HR in HR'. injection HR' as <-.
    apply Hsub in Hk. apply elem_of_docs_of_all in Hk as [Hk0 _].
    by apply (Hidx w0).
Qed.

(** X24. No hit of a loaded index can be shown, for a phrase and for a
    Boolean query without NOT. For every index that [json.loads] gives,
    every hit of such a query is a [str], and the title of the hit raises
    TypeError whatever the session state and [doc_ids] hold: a [str] is
    no index of the list of [doc_ids], and it does not add to 1. *)
Theorem hit_title_loaded j session doc_ids m q R k :
  (m = Boolean → "NOT" ∉ Py.split q) →
  search_hits m q (Json.loads j) = Return R → k ∈ R →
  (∃ x, k = KStr x) ∧ hit_title session doc_ids k = inl TypeError.
Proof.
  intros Hq HR Hk.
  assert (str_ids R) as Hstr.
  { unfold search_hits in HR. destruct (decide (Py.strip q = "")).
    { injection HR as <-. by intros ? ?%elem_of_empty. }
    destruct m.
    - apply (boolean_search_str (Json.loads j) q); [apply loads_term_docs|auto|done].
    - eapply phrase_search_str; [apply loads_term_docs|done]. }
  destruct (Hstr k Hk) as [x ->]. split; [by exists x|].
  unfold hit_title. by destruct doc_ids.
Qed.

Lemma hit_title_loaded_witness :
  (∃ x, KStr "0" = KStr x) ∧
  hit_title None [] (KStr "0") = inl TypeError.
Proof.
  apply (hit_title_loaded (Json.dumps scenario_index) None [] Phrase
           "cat sat" {[ KStr "0" ]} (KStr "0")).
  - discriminate.
  - vm_compute. reflexivity.
  - by apply elem_of_singleton.
Defined.
